(** * BusTub storage core: LRU-K replacer, buffer pool manager, immutable trie

    A shallow embedding of [src/buffer/lru_k_replacer.cpp],
    [src/buffer/buffer_pool_manager.cpp] and [src/primer/trie.cpp], with the
    properties of the design document stated against it. *)

From stdpp Require Import gmap list strings fin_maps.
From Stdlib Require Import ZArith Lia Ascii.

Local Open Scope Z_scope.

(** ** Machine integers

    [size_t] is a 64-bit unsigned integer: arithmetic on it is arithmetic on
    [Z] reduced modulo [2^64].  [frame_id_t] and [page_id_t] are [int32_t]. *)

Definition to_size_t (z : Z) : Z := z mod 2 ^ 64.

Definition to_int (z : Z) : Z := (z + 2 ^ 31) mod 2 ^ 32 - 2 ^ 31.

Definition is_int32 (z : Z) : Prop := - 2 ^ 31 <= z < 2 ^ 31.

(** ** Outcomes of an operation *)

(** Modelled from the spec: what [BUSTUB_ASSERT(false, ...)] and
    [BUSTUB_ENSURE(false, ...)] do ([common/macros.h] is not among the
    sources).  Both are fatal: the process stops, and there is no state
    afterwards.  So an operation either returns ([Done]), or stops on a failed
    assertion ([Fatal]), or indexes the frame array out of its bounds, which
    C++ leaves undefined ([Undefined]). *)

Inductive outcome (A : Type) : Type :=
| Done (a : A)
| Fatal
| Undefined.

Arguments Done {A} a.
Arguments Fatal {A}.
Arguments Undefined {A}.

Definition obind {A B} (m : outcome A) (f : A -> outcome B) : outcome B :=
  match m with
  | Done a => f a
  | Fatal => Fatal
  | Undefined => Undefined
  end.

Notation "'let!' x ':=' m 'in' k" := (obind m (fun x => k))
  (at level 10, x name, m at level 100, k at level 200).

(** ** LRU-K replacer ([lru_k_replacer.cpp]) *)

Module Replacer.

(** Modelled from the spec: the members of [LRUKNode], as the functions of
    [lru_k_replacer.cpp] use them ([lru_k_replacer.h] is not among the
    sources).  One node per tracked frame; [history_] is a list of [size_t]
    timestamps with the oldest at the front, [k_] a [size_t]. *)
Record LRUKNode : Type := {
  history_ : list Z;
  k_ : Z;
  fid_ : Z;
  is_evictable_ : bool
}.

(** Modelled from the spec: the members of [LRUKReplacer], as its functions
    use them.  [node_store_] maps a frame to its node; [current_timestamp_],
    [curr_size_], [replacer_size_] and the K of LRU-K are [size_t].
    [replacer_k_] is the member the source calls [k_] (the node has a member
    of that name too). *)
Record LRUKReplacer : Type := {
  node_store_ : gmap Z LRUKNode;
  current_timestamp_ : Z;
  curr_size_ : Z;
  replacer_size_ : Z;
  replacer_k_ : Z
}.

(** [LRUKReplacer::LRUKReplacer(num_frames, k)].  The constructor sets
    [replacer_size_] and [k_]; the other members keep the initial values of
    the class declaration: no node, logical time 0, no evictable frame. *)
Definition new (num_frames k : Z) : LRUKReplacer :=
  {| node_store_ := ∅; current_timestamp_ := 0; curr_size_ := 0;
     replacer_size_ := num_frames; replacer_k_ := k |}.

(** [history_.front()]: undefined in C++ on an empty list; no tracked node
    has an empty history (see [node_ok]). *)
Definition front (h : list Z) : Z := hd 0 h.

(** [history_.pop_front()]. *)
Definition pop_front (h : list Z) : list Z := tl h.

(** The three locals of the scan in [Evict].  [evict_frame_id] is
    uninitialised in the source until its first assignment. *)
Record scan : Type := {
  evict_frame_id : option Z;
  k_dist_max : Z;
  k_dist_inf : bool
}.

Definition scan_init : scan :=
  {| evict_frame_id := None; k_dist_max := 0; k_dist_inf := false |}.

(** Body of the [while] loop of [Evict] for one entry of [node_store_]. *)
Definition Evict_step (r : LRUKReplacer) (acc : scan) (it : Z * LRUKNode) : scan :=
  if negb (is_evictable_ it.2) then acc
  else
    let k_dist := to_size_t (current_timestamp_ r - front (history_ it.2)) in
    if Z.of_nat (length (history_ it.2)) <? replacer_k_ r then
      if negb (k_dist_inf acc) then
        {| evict_frame_id := Some it.1; k_dist_max := k_dist; k_dist_inf := true |}
      else if k_dist_max acc <? k_dist then
        {| evict_frame_id := Some it.1; k_dist_max := k_dist;
           k_dist_inf := k_dist_inf acc |}
      else acc
    else if negb (k_dist_inf acc) && (k_dist_max acc <? k_dist) then
      {| evict_frame_id := Some it.1; k_dist_max := k_dist;
         k_dist_inf := k_dist_inf acc |}
    else acc.

Section Iteration.

(** [node_store_] is a [std::unordered_map]: the order in which [Evict]
    visits its entries is fixed by the implementation and unknown here.  It is
    a parameter: any enumeration of the entries of the map. *)
Variable iter : gmap Z LRUKNode -> list (Z * LRUKNode).
Hypothesis iter_perm : forall m, iter m ≡ₚ map_to_list m.

Definition Evict_scan (r : LRUKReplacer) : scan :=
  fold_left (Evict_step r) (iter (node_store_ r)) scan_init.

(** [LRUKReplacer::Evict]: the returned option is the frame written to
    [*frame_id] when the source returns [true].  The branch for an unassigned
    [evict_frame_id] is never taken (lemma [Evict_fold_assigned]). *)
Definition Evict (r : LRUKReplacer) : option Z * LRUKReplacer :=
  if curr_size_ r =? 0 then (None, r)
  else
    let s := Evict_scan r in
    if k_dist_max s =? 0 then (None, r)
    else
      match evict_frame_id s with
      | None => (None, r)
      | Some f =>
          (Some f,
           {| node_store_ := delete f (node_store_ r);
              current_timestamp_ := current_timestamp_ r;
              curr_size_ := to_size_t (curr_size_ r - 1);
              replacer_size_ := replacer_size_ r;
              replacer_k_ := replacer_k_ r |})
      end.

End Iteration.

(** [LRUKReplacer::RecordAccess]. *)
Definition RecordAccess (r : LRUKReplacer) (frame_id : Z) : outcome LRUKReplacer :=
  if replacer_size_ r <=? curr_size_ r then Fatal
  else
    match node_store_ r !! frame_id with
    | None =>
        let node := {| history_ := [current_timestamp_ r]; k_ := 1;
                       fid_ := frame_id; is_evictable_ := true |} in
        Done {| node_store_ := <[frame_id := node]> (node_store_ r);
                current_timestamp_ := to_size_t (current_timestamp_ r + 1);
                curr_size_ := to_size_t (curr_size_ r + 1);
                replacer_size_ := replacer_size_ r;
                replacer_k_ := replacer_k_ r |}
    | Some node =>
        let node1 :=
          if k_ node <? replacer_k_ r then
            {| history_ := history_ node; k_ := to_size_t (k_ node + 1);
               fid_ := fid_ node; is_evictable_ := is_evictable_ node |}
          else
            {| history_ := pop_front (history_ node); k_ := k_ node;
               fid_ := fid_ node; is_evictable_ := is_evictable_ node |} in
        let node2 :=
          {| history_ := history_ node1 ++ [current_timestamp_ r]; k_ := k_ node1;
             fid_ := fid_ node1; is_evictable_ := is_evictable_ node1 |} in
        Done {| node_store_ := <[frame_id := node2]> (node_store_ r);
                current_timestamp_ := to_size_t (current_timestamp_ r + 1);
                curr_size_ := curr_size_ r;
                replacer_size_ := replacer_size_ r;
                replacer_k_ := replacer_k_ r |}
    end.

(** [LRUKReplacer::SetEvictable]. *)
Definition SetEvictable (r : LRUKReplacer) (frame_id : Z) (set_evictable : bool)
  : LRUKReplacer :=
  match node_store_ r !! frame_id with
  | None => r
  | Some node =>
      if Bool.eqb (is_evictable_ node) set_evictable then r
      else
        {| node_store_ :=
             <[frame_id := {| history_ := history_ node; k_ := k_ node;
                              fid_ := fid_ node;
                              is_evictable_ := set_evictable |}]> (node_store_ r);
           current_timestamp_ := current_timestamp_ r;
           curr_size_ := if set_evictable then to_size_t (curr_size_ r + 1)
                         else to_size_t (curr_size_ r - 1);
           replacer_size_ := replacer_size_ r;
           replacer_k_ := replacer_k_ r |}
  end.

(** [LRUKReplacer::Remove]. *)
Definition Remove (r : LRUKReplacer) (frame_id : Z) : LRUKReplacer :=
  match node_store_ r !! frame_id with
  | None => r
  | Some node =>
      if negb (is_evictable_ node) then r
      else
        {| node_store_ := delete frame_id (node_store_ r);
           current_timestamp_ := current_timestamp_ r;
           curr_size_ := to_size_t (curr_size_ r - 1);
           replacer_size_ := replacer_size_ r;
           replacer_k_ := replacer_k_ r |}
  end.

(** [LRUKReplacer::Size]: the count goes through an [int] local. *)
Definition Size (r : LRUKReplacer) : Z := to_size_t (to_int (curr_size_ r)).

(** *** Well-formed replacer states

    What every state reached from [new] through the four operations
    satisfies, as long as the 64-bit timestamp has not wrapped. *)

(** A tracked node: a non-empty history of at most [k] timestamps, all of
    them before the current time; the node's [k_] counts them. *)
Definition node_ok (now k : Z) (n : LRUKNode) : Prop :=
  history_ n <> [] /\
  Z.of_nat (length (history_ n)) = k_ n /\
  k_ n <= k /\
  Forall (fun t => 0 <= t < now) (history_ n).

(** Number of tracked nodes whose [is_evictable_] flag is set. *)
Definition evictable_count (m : gmap Z LRUKNode) : Z :=
  Z.of_nat (size (filter (fun p => is_evictable_ p.2 = true) m)).

(** Contribution of a node to that number. *)
Definition flag_weight (n : LRUKNode) : Z := if is_evictable_ n then 1 else 0.

Record wf (r : LRUKReplacer) : Prop := {
  wf_k : 1 <= replacer_k_ r < 2 ^ 64;
  wf_now : 0 <= current_timestamp_ r < 2 ^ 64;
  wf_nodes : forall f n, node_store_ r !! f = Some n ->
             node_ok (current_timestamp_ r) (replacer_k_ r) n;
  wf_keys : forall f n, node_store_ r !! f = Some n -> is_int32 f;
  wf_size : curr_size_ r = evictable_count (node_store_ r)
}.

(** The states a client can bring a replacer into: frame identifiers are
    32-bit integers, K is at least 1, and the 64-bit logical clock has not
    wrapped around. *)
Inductive reachable (iter : gmap Z LRUKNode -> list (Z * LRUKNode))
  : LRUKReplacer -> Prop :=
| reach_new num_frames k :
    1 <= k < 2 ^ 64 -> reachable iter (new num_frames k)
| reach_RecordAccess r frame_id r' :
    reachable iter r -> is_int32 frame_id ->
    current_timestamp_ r + 1 < 2 ^ 64 ->
    RecordAccess r frame_id = Done r' -> reachable iter r'
| reach_SetEvictable r frame_id set_evictable :
    reachable iter r -> reachable iter (SetEvictable r frame_id set_evictable)
| reach_Remove r frame_id :
    reachable iter r -> reachable iter (Remove r frame_id)
| reach_Evict r :
    reachable iter r -> reachable iter (Evict iter r).2.

(** *** Backward K-distance, in the words of the design document *)

(** Timestamp of the [k]-th most recent access of a history (the most recent
    access is at the back), if there are that many. *)
Definition kth_most_recent (k : Z) (h : list Z) : option Z :=
  reverse h !! Z.to_nat (k - 1).

(** Backward K-distance at time [now]; [None] stands for the infinite
    distance of a frame with fewer than [k] recorded accesses. *)
Definition backward_k_distance (now k : Z) (n : LRUKNode) : option Z :=
  (fun t => now - t) <$> kth_most_recent k (history_ n).

(** Oldest recorded access of a node. *)
Definition oldest_access (n : LRUKNode) : option Z := head (history_ n).

(** [v] is at least as good a victim as [n]: cold before warm; among cold
    nodes the earlier oldest access; among warm nodes the larger distance. *)
Definition outranks (now k : Z) (v n : LRUKNode) : Prop :=
  match backward_k_distance now k v, backward_k_distance now k n with
  | None, Some _ => True
  | None, None =>
      match oldest_access v, oldest_access n with
      | Some tv, Some tn => tv <= tn
      | _, _ => False
      end
  | Some dv, Some dn => dn <= dv
  | Some _, None => False
  end.

(** The invariant of the scan of [Evict] over the entries [seen] so far. *)
Definition scan_inv (r : LRUKReplacer) (seen : list (Z * LRUKNode)) (s : scan)
  : Prop :=
  ((forall it, it ∈ seen -> is_evictable_ it.2 = false) /\ s = scan_init) \/
  (exists v nv,
      (v, nv) ∈ seen /\ is_evictable_ nv = true /\
      evict_frame_id s = Some v /\
      k_dist_max s = current_timestamp_ r - front (history_ nv) /\
      0 < k_dist_max s /\
      k_dist_inf s = bool_decide (Z.of_nat (length (history_ nv)) < replacer_k_ r) /\
      forall it, it ∈ seen -> is_evictable_ it.2 = true ->
                 outranks (current_timestamp_ r) (replacer_k_ r) nv it.2).

(** No timestamp is recorded for two frames: every access gets a timestamp
    of its own. *)
Definition distinct_stamps (r : LRUKReplacer) : Prop :=
  forall f g n m t,
    f <> g -> node_store_ r !! f = Some n -> node_store_ r !! g = Some m ->
    t ∈ history_ n -> t ∉ history_ m.

(** The timestamps at which frame [f] is accessed, when the frames of
    [frames] are accessed one after the other from time [t] on. *)
Fixpoint stamps_of (f : Z) (frames : list Z) (t : Z) : list Z :=
  match frames with
  | [] => []
  | g :: frames' =>
      (if decide (g = f) then [t] else []) ++ stamps_of f frames' (t + 1)
  end.

(** The last [k] elements of a list (all of it when it is shorter). *)
Definition last_k (k : Z) (l : list Z) : list Z :=
  drop (length l - Z.to_nat k) l.

(** The history recorded for a frame, empty when it is not tracked. *)
Definition history_of (r : LRUKReplacer) (f : Z) : list Z :=
  default [] (history_ <$> node_store_ r !! f).

(** *** Example states *)

(** Repeated [RecordAccess], stopping at the first assertion failure. *)
Fixpoint accesses (r : LRUKReplacer) (frames : list Z) : outcome LRUKReplacer :=
  match frames with
  | [] => Done r
  | f :: frames' => let! r' := RecordAccess r f in accesses r' frames'
  end.

(** Frames 1 to 4, each accessed twice, K = 2 (scenario 2 of the design
    document), as a state of its own. *)
Definition node_of (f : Z) (h : list Z) (e : bool) : LRUKNode :=
  {| history_ := h; k_ := Z.of_nat (length h); fid_ := f; is_evictable_ := e |}.

Definition four_warm : LRUKReplacer :=
  {| node_store_ :=
       <[1 := node_of 1 [0; 4] true]>
         (<[2 := node_of 2 [1; 5] true]>
            (<[3 := node_of 3 [2; 6] true]>
               (<[4 := node_of 4 [3; 7] true]> ∅)));
     current_timestamp_ := 8; curr_size_ := 4;
     replacer_size_ := 7; replacer_k_ := 2 |}.

(** One pinned frame: tracked, not evictable. *)
Definition one_pinned : LRUKReplacer :=
  {| node_store_ := <[0 := node_of 0 [0] false]> ∅;
     current_timestamp_ := 1; curr_size_ := 0;
     replacer_size_ := 1; replacer_k_ := 2 |}.

End Replacer.

(** ** Buffer pool manager ([buffer_pool_manager.cpp]) *)

Module Request.

(** A [DiskRequest]: direction, the bytes of the buffer it points to, and the
    page it is about. *)
Record t : Type := {
  is_write_ : bool;
  data_ : list Byte.byte;
  page_id_ : Z
}.

End Request.

Module BPM.

Import Replacer.

(** Modelled from the spec: the members of a frame ([Page] of
    [storage/page/page.h], not among the sources): the payload, the
    identifier of the page it holds, the pin count (an [int]) and the dirty
    flag. *)
Record Page : Type := {
  data_ : list Byte.byte;
  page_id_ : Z;
  pin_count_ : Z;
  is_dirty_ : bool
}.

(** [pages_[frame_id]]: the frame array has [pool_size_] entries, and an
    index outside of it has no defined meaning. *)
Definition frame_at (pages : list Page) (frame_id : Z) : option Page :=
  if decide (0 <= frame_id) then pages !! Z.to_nat frame_id else None.

Definition set_frame (pages : list Page) (frame_id : Z) (p : Page) : list Page :=
  <[Z.to_nat frame_id := p]> pages.

(** [page_table_.emplace(k, v)]: inserts only when [k] has no entry yet. *)
Definition emplace (k v : Z) (m : gmap Z Z) : gmap Z Z :=
  match m !! k with
  | Some _ => m
  | None => <[k := v]> m
  end.

Section Pool.

(** The order in which the replacer walks its [unordered_map]. *)
Variable iter : gmap Z LRUKNode -> list (Z * LRUKNode).

(** [INVALID_PAGE_ID], a constant of [common/config.h]. *)
Variable INVALID_PAGE_ID : Z.

(** The disk behind the scheduler: its state, what a write of a page does to
    it and whether it succeeds, and what a read of a page delivers. *)
Variable Disk : Type.
Variable disk_write : Z -> list Byte.byte -> Disk -> Disk * bool.
Variable disk_read : Z -> Disk -> Disk * bool * list Byte.byte.

(** Modelled from the spec: [DiskScheduler::Schedule] followed by the wait on
    the request's future (the scheduler is not among the sources).  The caller
    gets one boolean completion signal; on a read the buffer is populated
    before the signal fires; a write leaves the buffer as it is. *)
Definition Schedule (r : Request.t) (d : Disk) : Disk * bool * list Byte.byte :=
  if Request.is_write_ r then
    let '(d', ok) := disk_write (Request.page_id_ r) (Request.data_ r) d in
    (d', ok, Request.data_ r)
  else disk_read (Request.page_id_ r) d.

(** Modelled from the spec: the members of [BufferPoolManager], as its
    functions use them ([buffer_pool_manager.h] is not among the sources).
    [next_page_id_] is the counter of the page allocator, [disk_scheduler_]
    the state of the disk behind the scheduler. *)
Record BufferPoolManager : Type := {
  pool_size_ : Z;
  pages_ : list Page;
  page_table_ : gmap Z Z;
  free_list_ : list Z;
  replacer_ : LRUKReplacer;
  next_page_id_ : Z;
  disk_scheduler_ : Disk
}.

(** Modelled from the spec: the state of a frame right after [new Page[n]]
    ([storage/page/page.h] is not among the sources): no page, pin count 0,
    clean.  [blank] is the zeroed payload. *)
Definition fresh_page (blank : list Byte.byte) : Page :=
  {| data_ := blank; page_id_ := INVALID_PAGE_ID; pin_count_ := 0;
     is_dirty_ := false |}.

(** [BufferPoolManager::BufferPoolManager]: every frame starts in the free
    list, in ascending order.  [page_table_] starts empty and the allocator
    at page 0 (initial values of the class declaration). *)
Definition new (pool_size replacer_k : Z) (blank : list Byte.byte) (d : Disk)
  : BufferPoolManager :=
  {| pool_size_ := pool_size;
     pages_ := replicate (Z.to_nat pool_size) (fresh_page blank);
     page_table_ := ∅;
     free_list_ := to_int <$> seqZ 0 pool_size;
     replacer_ := Replacer.new pool_size replacer_k;
     next_page_id_ := 0;
     disk_scheduler_ := d |}.

(** [BufferPoolManager::AllocatePage]: [return next_page_id_++], on the
    counter; the result is the identifier and the counter afterwards. *)
Definition AllocatePage (next_page_id : Z) : Z * Z :=
  (next_page_id, to_int (next_page_id + 1)).

(** Frame selection, written twice in the source ([NewPage] lines 40-48,
    [FetchPage] lines 93-100): the head of the free list, else a victim of
    the replacer.  Returns the frame (if any), the free list and the replacer
    afterwards. *)
Definition select_frame (b : BufferPoolManager)
  : option Z * list Z * LRUKReplacer :=
  match free_list_ b with
  | frame_id :: rest => (Some frame_id, rest, replacer_ b)
  | [] =>
      let '(victim, rep) := Evict iter (replacer_ b) in
      (victim, [], rep)
  end.

(** Write-back of the frame's bytes when it is dirty ([NewPage] lines 51-62,
    [FetchPage] lines 103-114); a failed write is a [BUSTUB_ENSURE]. *)
Definition write_back (p : Page) (d : Disk) : outcome Disk :=
  if is_dirty_ p then
    let '(d', ok, _) :=
      Schedule {| Request.is_write_ := true; Request.data_ := data_ p;
                  Request.page_id_ := page_id_ p |} d in
    if ok then Done d' else Fatal
  else Done d.

(** [BufferPoolManager::NewPage].  The result is the page identifier written
    to [*page_id] with the index of the frame whose address is returned, or
    [None] for [nullptr]. *)
Definition NewPage (b : BufferPoolManager)
  : outcome (option (Z * Z) * BufferPoolManager) :=
  match select_frame b with
  | (None, fl, rep) =>
      Done (None,
            {| pool_size_ := pool_size_ b; pages_ := pages_ b;
               page_table_ := page_table_ b; free_list_ := fl;
               replacer_ := rep; next_page_id_ := next_page_id_ b;
               disk_scheduler_ := disk_scheduler_ b |})
  | (Some frame_id, fl, rep) =>
      match frame_at (pages_ b) frame_id with
      | None => Undefined
      | Some p =>
          let! d := write_back p (disk_scheduler_ b) in
          let old_page_id := page_id_ p in
          let '(new_page_id, next_page_id) := AllocatePage (next_page_id_ b) in
          let p' := {| data_ := data_ p; page_id_ := new_page_id;
                       pin_count_ := 1; is_dirty_ := false |} in
          let pt := if decide (old_page_id <> INVALID_PAGE_ID)
                    then delete old_page_id (page_table_ b)
                    else page_table_ b in
          let pt := emplace (page_id_ p') frame_id pt in
          let! rep := RecordAccess rep frame_id in
          let rep := SetEvictable rep frame_id false in
          Done (Some (page_id_ p', frame_id),
                {| pool_size_ := pool_size_ b;
                   pages_ := set_frame (pages_ b) frame_id p';
                   page_table_ := pt; free_list_ := fl; replacer_ := rep;
                   next_page_id_ := next_page_id;
                   disk_scheduler_ := d |})
      end
  end.

(** [BufferPoolManager::FetchPage].  The result is the index of the frame
    whose address is returned, or [None] for [nullptr].  On a hit the source
    forms [&pages_[it->second]] (line 90): the index has to be one of the
    frame array there as well. *)
Definition FetchPage (b : BufferPoolManager) (page_id : Z)
  : outcome (option Z * BufferPoolManager) :=
  match page_table_ b !! page_id with
  | Some frame_id =>
      match frame_at (pages_ b) frame_id with
      | None => Undefined
      | Some _ => Done (Some frame_id, b)
      end
  | None =>
      match select_frame b with
      | (None, fl, rep) =>
          Done (None,
                {| pool_size_ := pool_size_ b; pages_ := pages_ b;
                   page_table_ := page_table_ b; free_list_ := fl;
                   replacer_ := rep; next_page_id_ := next_page_id_ b;
                   disk_scheduler_ := disk_scheduler_ b |})
      | (Some frame_id, fl, rep) =>
          match frame_at (pages_ b) frame_id with
          | None => Undefined
          | Some p =>
              let! d := write_back p (disk_scheduler_ b) in
              let old_page_id := page_id_ p in
              let '(d, ok, buf) :=
                Schedule {| Request.is_write_ := false;
                            Request.data_ := data_ p;
                            Request.page_id_ := page_id |} d in
              if negb ok then Fatal
              else
                let p' := {| data_ := buf; page_id_ := page_id;
                             pin_count_ := 1; is_dirty_ := false |} in
                let pt := if decide (old_page_id <> INVALID_PAGE_ID)
                          then delete old_page_id (page_table_ b)
                          else page_table_ b in
                let pt := emplace page_id frame_id pt in
                let! rep := RecordAccess rep frame_id in
                let rep := SetEvictable rep frame_id false in
                Done (Some frame_id,
                      {| pool_size_ := pool_size_ b;
                         pages_ := set_frame (pages_ b) frame_id p';
                         page_table_ := pt; free_list_ := fl; replacer_ := rep;
                         next_page_id_ := next_page_id_ b;
                         disk_scheduler_ := d |})
          end
      end
  end.

(** [BufferPoolManager::UnpinPage]. *)
Definition UnpinPage (b : BufferPoolManager) (page_id : Z) (is_dirty : bool)
  : outcome (bool * BufferPoolManager) :=
  match page_table_ b !! page_id with
  | None => Done (false, b)
  | Some frame_id =>
      match frame_at (pages_ b) frame_id with
      | None => Undefined
      | Some p =>
          let p1 := if is_dirty
                    then {| data_ := data_ p; page_id_ := page_id_ p;
                            pin_count_ := pin_count_ p; is_dirty_ := true |}
                    else p in
          if 0 <? pin_count_ p1 then
            let p2 := {| data_ := data_ p1; page_id_ := page_id_ p1;
                         pin_count_ := pin_count_ p1 - 1;
                         is_dirty_ := is_dirty_ p1 |} in
            let rep := if pin_count_ p2 =? 0
                       then SetEvictable (replacer_ b) frame_id true
                       else replacer_ b in
            Done (true,
                  {| pool_size_ := pool_size_ b;
                     pages_ := set_frame (pages_ b) frame_id p2;
                     page_table_ := page_table_ b; free_list_ := free_list_ b;
                     replacer_ := rep; next_page_id_ := next_page_id_ b;
                     disk_scheduler_ := disk_scheduler_ b |})
          else
            Done (false,
                  {| pool_size_ := pool_size_ b;
                     pages_ := set_frame (pages_ b) frame_id p1;
                     page_table_ := page_table_ b; free_list_ := free_list_ b;
                     replacer_ := replacer_ b; next_page_id_ := next_page_id_ b;
                     disk_scheduler_ := disk_scheduler_ b |})
      end
  end.

(** The flush of one frame ([FlushPage] lines 183-196, and the body of the
    loop of [FlushAllPages]): an unconditional write, then the dirty flag is
    cleared. *)
Definition flush_frame (b : BufferPoolManager) (frame_id : Z)
  : outcome BufferPoolManager :=
  match frame_at (pages_ b) frame_id with
  | None => Undefined
  | Some p =>
      let '(d, ok, _) :=
        Schedule {| Request.is_write_ := true; Request.data_ := data_ p;
                    Request.page_id_ := page_id_ p |} (disk_scheduler_ b) in
      if negb ok then Fatal
      else
        Done {| pool_size_ := pool_size_ b;
                pages_ := set_frame (pages_ b) frame_id
                            {| data_ := data_ p; page_id_ := page_id_ p;
                               pin_count_ := pin_count_ p; is_dirty_ := false |};
                page_table_ := page_table_ b; free_list_ := free_list_ b;
                replacer_ := replacer_ b; next_page_id_ := next_page_id_ b;
                disk_scheduler_ := d |}
  end.

(** [BufferPoolManager::FlushPage]. *)
Definition FlushPage (b : BufferPoolManager) (page_id : Z)
  : outcome (bool * BufferPoolManager) :=
  match page_table_ b !! page_id with
  | None => Done (false, b)
  | Some frame_id =>
      let! b' := flush_frame b frame_id in
      Done (true, b')
  end.

(** [BufferPoolManager::FlushAllPages]: frames [0 .. pool_size_ - 1] in
    order. *)
Definition FlushAllPages (b : BufferPoolManager) : outcome BufferPoolManager :=
  fold_left (fun acc i => let! b' := acc in flush_frame b' i)
            (seqZ 0 (pool_size_ b)) (Done b).

(** [BufferPoolManager::DeletePage].  [DeallocatePage] is declared in the
    header (not among the sources); the retirement hook of the design
    document keeps no state in the pool, and nothing is modelled for it. *)
Definition DeletePage (b : BufferPoolManager) (page_id : Z)
  : outcome (bool * BufferPoolManager) :=
  match page_table_ b !! page_id with
  | None => Done (true, b)
  | Some frame_id =>
      match frame_at (pages_ b) frame_id with
      | None => Undefined
      | Some p =>
          if 0 <? pin_count_ p then Done (false, b)
          else
            Done (true,
                  {| pool_size_ := pool_size_ b;
                     pages_ := set_frame (pages_ b) frame_id
                                 {| data_ := data_ p;
                                    page_id_ := INVALID_PAGE_ID;
                                    pin_count_ := pin_count_ p;
                                    is_dirty_ := is_dirty_ p |};
                     page_table_ := delete page_id (page_table_ b);
                     free_list_ := free_list_ b ++ [frame_id];
                     replacer_ := Remove (replacer_ b) frame_id;
                     next_page_id_ := next_page_id_ b;
                     disk_scheduler_ := disk_scheduler_ b |})
      end
  end.

(** The states a client can bring a pool into, as long as the logical clock
    of the replacer has not wrapped around. *)
Inductive reachable_pool : BufferPoolManager -> Prop :=
| pool_new pool_size replacer_k blank d :
    0 <= pool_size < 2 ^ 31 -> 1 <= replacer_k < 2 ^ 64 ->
    reachable_pool (new pool_size replacer_k blank d)
| pool_NewPage b res b' :
    reachable_pool b -> current_timestamp_ (replacer_ b) + 1 < 2 ^ 64 ->
    NewPage b = Done (res, b') -> reachable_pool b'
| pool_FetchPage b page_id res b' :
    reachable_pool b -> current_timestamp_ (replacer_ b) + 1 < 2 ^ 64 ->
    FetchPage b page_id = Done (res, b') -> reachable_pool b'
| pool_UnpinPage b page_id is_dirty res b' :
    reachable_pool b -> UnpinPage b page_id is_dirty = Done (res, b') ->
    reachable_pool b'
| pool_FlushPage b page_id res b' :
    reachable_pool b -> FlushPage b page_id = Done (res, b') ->
    reachable_pool b'
| pool_FlushAllPages b b' :
    reachable_pool b -> FlushAllPages b = Done b' -> reachable_pool b'
| pool_DeletePage b page_id res b' :
    reachable_pool b -> DeletePage b page_id = Done (res, b') ->
    reachable_pool b'.

End Pool.

Arguments pool_size_ {Disk} b.
Arguments pages_ {Disk} b.
Arguments page_table_ {Disk} b.
Arguments free_list_ {Disk} b.
Arguments replacer_ {Disk} b.
Arguments next_page_id_ {Disk} b.
Arguments disk_scheduler_ {Disk} b.
Arguments Build_BufferPoolManager {Disk}.
Arguments new INVALID_PAGE_ID {Disk} pool_size replacer_k blank d.
Arguments select_frame iter {Disk} b.
Arguments write_back {Disk} disk_write disk_read p d.
Arguments Schedule {Disk} disk_write disk_read r d.
Arguments NewPage iter INVALID_PAGE_ID {Disk} disk_write disk_read b.
Arguments FetchPage iter INVALID_PAGE_ID {Disk} disk_write disk_read b page_id.
Arguments UnpinPage {Disk} b page_id is_dirty.
Arguments flush_frame {Disk} disk_write disk_read b frame_id.
Arguments FlushPage {Disk} disk_write disk_read b page_id.
Arguments FlushAllPages {Disk} disk_write disk_read b.
Arguments DeletePage INVALID_PAGE_ID {Disk} b page_id.
Arguments reachable_pool iter INVALID_PAGE_ID {Disk} disk_write disk_read b.

(** *** Invariant of the pool

    What every state reached from [new] through the operations satisfies:
    the frame array has [pool_size_] entries; the replacer is well formed;
    the frames in the free list, in the page table and in the replacer are
    32-bit indices into the frame array; a frame a page is mapped to is in
    the free list or tracked by the replacer; pin counts are not negative;
    and a frame with pin count 0 is in the free list or evictable. *)
Definition is_frame (pages : list Page) (f : Z) : Prop :=
  is_int32 f /\ is_Some (frame_at pages f).

Record bpm_inv {Disk : Type} (b : BufferPoolManager Disk) : Prop := {
  inv_size : Z.of_nat (length (pages_ b)) = pool_size_ b;
  inv_replacer : wf (replacer_ b);
  inv_free : forall f, f ∈ free_list_ b -> is_frame (pages_ b) f;
  inv_tracked : forall f n, node_store_ (replacer_ b) !! f = Some n ->
                is_frame (pages_ b) f;
  inv_table : forall pid f, page_table_ b !! pid = Some f ->
              is_frame (pages_ b) f /\
              (f ∈ free_list_ b \/ is_Some (node_store_ (replacer_ b) !! f));
  inv_pins : forall i p, pages_ b !! i = Some p -> 0 <= pin_count_ p;
  inv_unpinned : forall i p, pages_ b !! i = Some p -> pin_count_ p = 0 ->
                 Z.of_nat i ∈ free_list_ b \/
                 exists n, node_store_ (replacer_ b) !! Z.of_nat i = Some n /\
                           is_evictable_ n = true
}.

(** A frame whose node in the replacer is evictable has pin count 0. *)
Definition evictable_unpinned {Disk : Type} (b : BufferPoolManager Disk)
  : Prop :=
  forall f n, node_store_ (replacer_ b) !! f = Some n ->
              is_evictable_ n = true ->
              exists p, frame_at (pages_ b) f = Some p /\ pin_count_ p = 0.

(** A frame with a positive pin count has a node in the replacer, and the
    node is not evictable. *)
Definition pinned_tracked {Disk : Type} (b : BufferPoolManager Disk)
  : Prop :=
  forall f p, frame_at (pages_ b) f = Some p -> 0 < pin_count_ p ->
              exists n, node_store_ (replacer_ b) !! f = Some n /\
                        is_evictable_ n = false.

(** A frame with its dirty flag cleared. *)
Definition clean (p : Page) : Page :=
  {| data_ := data_ p; page_id_ := page_id_ p; pin_count_ := pin_count_ p;
     is_dirty_ := false |}.

(** The disk after the bytes of the frames of [pages] have been written to
    it, one frame after the other, each under the page identifier the frame
    holds. *)
Definition write_all {Disk : Type}
  (disk_write : Z -> list Byte.byte -> Disk -> Disk * bool)
  (pages : list Page) (d : Disk) : Disk :=
  fold_left (fun d p => (disk_write (page_id_ p) (data_ p) d).1) pages d.

(** Every one of these writes completes. *)
Fixpoint writes_succeed {Disk : Type}
  (disk_write : Z -> list Byte.byte -> Disk -> Disk * bool)
  (pages : list Page) (d : Disk) : bool :=
  match pages with
  | [] => true
  | p :: pages' =>
      (disk_write (page_id_ p) (data_ p) d).2
      && writes_succeed disk_write pages'
           (disk_write (page_id_ p) (data_ p) d).1
  end.

(** *** Example pools

    A disk that logs the requests it gets and completes every one of them;
    a read delivers an empty buffer. *)
Definition log_write (page_id : Z) (data : list Byte.byte) (d : list Request.t)
  : list Request.t * bool :=
  (d ++ [{| Request.is_write_ := true; Request.data_ := data;
            Request.page_id_ := page_id |}], true).

Definition log_read (page_id : Z) (d : list Request.t)
  : list Request.t * bool * list Byte.byte :=
  (d ++ [{| Request.is_write_ := false; Request.data_ := [];
            Request.page_id_ := page_id |}], true, []).

(** A pool of one frame, K = 2, with [-1] for [INVALID_PAGE_ID]. *)
Definition pool1 : BufferPoolManager (list Request.t) := new (-1) 1 2 [] [].

(** [pool1] after [NewPage]: page 0 in frame 0, pinned once. *)
Definition pool1_pinned : BufferPoolManager (list Request.t) :=
  {| pool_size_ := 1;
     pages_ := [{| data_ := []; page_id_ := 0; pin_count_ := 1;
                   is_dirty_ := false |}];
     page_table_ := <[0 := 0]> ∅;
     free_list_ := [];
     replacer_ := one_pinned;
     next_page_id_ := 1;
     disk_scheduler_ := [] |}.

(** [pool1_pinned] after [UnpinPage(0, false)]: pin count 0, frame 0
    evictable. *)
Definition pool1_unpinned : BufferPoolManager (list Request.t) :=
  {| pool_size_ := 1;
     pages_ := [{| data_ := []; page_id_ := 0; pin_count_ := 0;
                   is_dirty_ := false |}];
     page_table_ := <[0 := 0]> ∅;
     free_list_ := [];
     replacer_ := {| node_store_ := <[0 := node_of 0 [0] true]> ∅;
                     current_timestamp_ := 1; curr_size_ := 1;
                     replacer_size_ := 1; replacer_k_ := 2 |};
     next_page_id_ := 1;
     disk_scheduler_ := [] |}.

(** [pool1_pinned] after [UnpinPage(0, true)]: pin count 0, frame 0 dirty
    and evictable. *)
Definition pool1_dirty : BufferPoolManager (list Request.t) :=
  {| pool_size_ := 1;
     pages_ := [{| data_ := []; page_id_ := 0; pin_count_ := 0;
                   is_dirty_ := true |}];
     page_table_ := <[0 := 0]> ∅;
     free_list_ := [];
     replacer_ := {| node_store_ := <[0 := node_of 0 [0] true]> ∅;
                     current_timestamp_ := 1; curr_size_ := 1;
                     replacer_size_ := 1; replacer_k_ := 2 |};
     next_page_id_ := 1;
     disk_scheduler_ := [] |}.

End BPM.

(** ** Immutable trie ([trie.cpp]) *)

Module Trie.

(** The value types [Put] and [Get] are instantiated at (end of
    [trie.cpp]). *)
Inductive vtype : Type :=
| T_uint32 | T_uint64 | T_string | T_Integer | T_MoveBlocked.

(** A value of one of these types.  An [Integer] is a
    [std::unique_ptr<uint32_t>] ([trie.cpp], line 183): null, or the owner of
    an integer.  Modelled from the spec: [MoveBlocked] is declared in
    [primer/trie.h] (not among the sources); of its members the model keeps
    the flag [waited_]. *)
Inductive value : Type :=
| V_uint32 (n : Z)
| V_uint64 (n : Z)
| V_string (s : string)
| V_Integer (p : option Z)
| V_MoveBlocked (waited : bool).

Definition type_of (v : value) : vtype :=
  match v with
  | V_uint32 _ => T_uint32
  | V_uint64 _ => T_uint64
  | V_string _ => T_string
  | V_Integer _ => T_Integer
  | V_MoveBlocked _ => T_MoveBlocked
  end.

Global Instance vtype_eq_dec : EqDecision vtype := ltac:(solve_decision).

(** Modelled from the spec: the object that [T(std::move(value))] constructs
    ([primer/trie.h] is not among the sources).  An integer and a string
    keep their value, an [Integer] takes over the pointer, null or not; the
    move constructor of [MoveBlocked] waits for the future of its source,
    unless the source has waited before, and sets [waited_] in both objects.
    The wait is taken to return. *)
Definition moved (v : value) : value :=
  match v with
  | V_MoveBlocked _ => V_MoveBlocked true
  | _ => v
  end.

(** Modelled from the spec: the two node variants of [primer/trie.h] (not
    among the sources).  A plain node owns a map from a byte to a child; a
    valued node has the same map plus a value.  Children are shared pointers:
    addresses into the heap below.  The variant is the dynamic type that
    [dynamic_cast] inspects; [value_] is a shared pointer and may be null. *)
Inductive TrieNode : Type :=
| Node (children : gmap ascii nat)
| NodeWithValue (T : vtype) (children : gmap ascii nat) (value : option value).

Definition children_ (n : TrieNode) : gmap ascii nat :=
  match n with
  | Node ch => ch
  | NodeWithValue _ ch _ => ch
  end.

Definition is_value_node_ (n : TrieNode) : bool :=
  match n with
  | Node _ => false
  | NodeWithValue _ _ _ => true
  end.

(** Assignment to the [children_] member of a node. *)
Definition set_children (ch : gmap ascii nat) (n : TrieNode) : TrieNode :=
  match n with
  | Node _ => Node ch
  | NodeWithValue T _ v => NodeWithValue T ch v
  end.

(** Modelled from the spec: [TrieNode::Clone] and its override copy the node,
    variant, child map and value pointer alike. *)
Definition Clone (n : TrieNode) : TrieNode := n.

Global Instance TrieNode_inhabited : Inhabited TrieNode := populate (Node ∅).

(** The heap of nodes: an address is an index, and an allocation appends.
    A [shared_ptr] keeps its target alive, so every address held by a live
    node or handle is below the length of the heap ([closed]). *)
Definition alloc (h : list TrieNode) (n : TrieNode) : list TrieNode * nat :=
  (h ++ [n], length h).

(** [p->children_ = ch]. *)
Definition assign_children (h : list TrieNode) (p : nat) (ch : gmap ascii nat)
  : list TrieNode :=
  <[p := set_children ch (h !!! p)]> h.

(** [p->children_[c] = child]. *)
Definition set_child (h : list TrieNode) (p : nat) (c : ascii) (child : nat)
  : list TrieNode :=
  assign_children h p (<[c := child]> (children_ (h !!! p))).

(** [p->children_.erase(c)]. *)
Definition erase_child (h : list TrieNode) (p : nat) (c : ascii) : list TrieNode :=
  assign_children h p (delete c (children_ (h !!! p))).

(** The loop of [Get]: one child per byte of the key, until the key or the
    path ends. *)
Fixpoint Get_walk (h : list TrieNode) (curr : option nat) (key : list ascii)
  : option nat :=
  match key with
  | [] => curr
  | c :: key' =>
      match curr with
      | None => None
      | Some p => Get_walk h (children_ (h !!! p) !! c) key'
      end
  end.

(** [Trie::Get<T>]: [root_] is the (nullable) root of the trie. *)
Definition Get (h : list TrieNode) (root_ : option nat) (key : list ascii)
  (T : vtype) : option value :=
  match Get_walk h root_ key with
  | None => None
  | Some p =>
      match h !!! p with
      | Node _ => None
      | NodeWithValue T' _ v => if decide (T' = T) then v else None
      end
  end.

(** The loop of [Put] and the code after it: [curr] is the freshly made copy
    of the node for the bytes consumed so far, [key] what is left of the key
    (never empty). *)
Fixpoint Put_loop (h : list TrieNode) (curr : nat) (key : list ascii) (v : value)
  : list TrieNode :=
  match key with
  | [] => h
  | [c] =>
      let '(h, nv) :=
        alloc h (NodeWithValue (type_of v) ∅ (Some (moved v))) in
      match children_ (h !!! curr) !! c with
      | Some n =>
          let h := if decide (children_ (h !!! n) = ∅) then h
                   else assign_children h nv (children_ (h !!! n)) in
          set_child h curr c nv
      | None => set_child h curr c nv
      end
  | c :: key' =>
      let '(h, node) :=
        match children_ (h !!! curr) !! c with
        | Some n => alloc h (Clone (h !!! n))
        | None => alloc h (Node ∅)
        end in
      let h := set_child h curr c node in
      Put_loop h node key' v
  end.

(** [Trie::Put<T>]: the heap afterwards and the root of the returned trie.
    The value node holds [T(std::move(value))], here and in the loop. *)
Definition Put (h : list TrieNode) (root_ : option nat) (key : list ascii)
  (v : value) : list TrieNode * option nat :=
  match key with
  | [] =>
      let '(h, new_root) :=
        alloc h (NodeWithValue (type_of v) ∅ (Some (moved v))) in
      let h := match root_ with
               | Some r => assign_children h new_root (children_ (h !!! r))
               | None => h
               end in
      (h, Some new_root)
  | _ :: _ =>
      let '(h, new_root) :=
        match root_ with
        | Some r => alloc h (Clone (h !!! r))
        | None => alloc h (Node ∅)
        end in
      (Put_loop h new_root key v, Some new_root)
  end.

(** First loop of [Remove]: the nodes from the root to the node of the key.
    [path] is the vector with its back at the head of the list. *)
Fixpoint Remove_walk (h : list TrieNode) (curr : nat) (key : list ascii)
  (path : list nat) : option (list nat) :=
  match key with
  | [] => Some path
  | c :: key' =>
      match children_ (h !!! curr) !! c with
      | None => None
      | Some n => Remove_walk h n key' (n :: path)
      end
  end.

(** Second loop of [Remove]: ancestors with fewer than two children and no
    value are dropped.  [rk] is what the reverse iterator [rk_item] has not
    passed yet. *)
Fixpoint Remove_prune (h : list TrieNode) (path : list nat) (rk : list ascii)
  : list nat * list ascii :=
  match path with
  | [] => ([], rk)
  | p :: path' =>
      if bool_decide (size (children_ (h !!! p)) < 2)%nat
         && negb (is_value_node_ (h !!! p))
      then Remove_prune h path' (tl rk)
      else (path, rk)
  end.

(** Third loop of [Remove]: what is left of the path is copied, bottom up.
    The path is never longer than what the reverse iterator has left
    (lemmas [Remove_walk_Some] and [Remove_prune_spec]), so that [*rk_item]
    and [rk_item++] stay inside the key; the defaults of [hd] and [tl] are
    never used. *)
Fixpoint Remove_rebuild (h : list TrieNode) (path : list nat) (rk : list ascii)
  (node : option nat) : list TrieNode * option nat :=
  match path with
  | [] => (h, node)
  | p :: path' =>
      let '(h, n) := alloc h (Clone (h !!! p)) in
      let c := hd "000"%char rk in
      let h := match node with
               | Some nd => set_child h n c nd
               | None => erase_child h n c
               end in
      Remove_rebuild h path' (tl rk) (Some n)
  end.

(** [Trie::Remove]: the heap afterwards and the root of the returned trie. *)
Definition Remove (h : list TrieNode) (root_ : option nat) (key : list ascii)
  : list TrieNode * option nat :=
  match root_ with
  | None => (h, root_)
  | Some r =>
      match Remove_walk h r key [r] with
      | None => (h, root_)
      | Some [] => (h, root_)
      | Some (back :: path) =>
          if decide (children_ (h !!! back) = ∅) then
            let '(path, rk) := Remove_prune h path (rev key) in
            Remove_rebuild h path rk None
          else if is_value_node_ (h !!! back) then
            let '(h, node) := alloc h (Node (children_ (h !!! back))) in
            Remove_rebuild h path (rev key) (Some node)
          else (h, root_)
      end
  end.

(** Every address stored in a node of the heap is an address of the heap. *)
Definition closed (h : list TrieNode) : Prop :=
  forall p n c q, h !! p = Some n -> children_ n !! c = Some q -> (q < length h)%nat.

(** A handle to a trie of the heap: null, or an address of the heap. *)
Definition handle (h : list TrieNode) (root_ : option nat) : Prop :=
  match root_ with
  | None => True
  | Some r => (r < length h)%nat
  end.

(** [h'] has every node of [h] below address [k] as it is in [h]. *)
Definition unchanged_below (k : nat) (h h' : list TrieNode) : Prop :=
  (length h <= length h')%nat /\
  forall p, (p < k)%nat -> h' !! p = h !! p.

(** The nodes from address [a] on spell [key] and nothing else: one plain
    node with a single child per byte, then a valued leaf holding what [Put]
    stores for [v]. *)
Fixpoint chain (h : list TrieNode) (a : nat) (key : list ascii) (v : value)
  : Prop :=
  match key with
  | [] => h !!! a = NodeWithValue (type_of v) ∅ (Some (moved v))
  | c :: key' => exists a', h !!! a = Node {[c := a']} /\ chain h a' key' v
  end.

(** The heaps a client can build: from the empty heap, by [Put] and
    [Remove] on tries of the heap. *)
Inductive built : list TrieNode -> Prop :=
| built_nil : built []
| built_Put h root_ key v :
    built h -> handle h root_ -> built (Put h root_ key v).1
| built_Remove h root_ key :
    built h -> handle h root_ -> built (Remove h root_ key).1.

(** A node the second loop of [Remove] drops: fewer than two children and
    no value. *)
Definition prunable (h : list TrieNode) (p : nat) : Prop :=
  (size (children_ (h !!! p)) < 2)%nat /\ is_value_node_ (h !!! p) = false.

(** The bytes of a string literal. *)
Definition key_of (s : string) : list ascii := String.list_ascii_of_string s.

(** The trie that maps "a" to the 32-bit integer 1, built in an empty heap. *)
Definition trie_a : list TrieNode * option nat :=
  Put [] None (key_of "a") (V_uint32 1).

(** [trie_a] after "ab" has been put with the 32-bit integer 2. *)
Definition trie_ab : list TrieNode * option nat :=
  Put trie_a.1 trie_a.2 (key_of "ab") (V_uint32 2).

(** What the last steps of [Get] make of the node the walk ends at: the
    value of a valued node of the type asked for, else null. *)
Definition value_at (n : TrieNode) (T : vtype) : option value :=
  match n with
  | Node _ => None
  | NodeWithValue T' _ v => if decide (T' = T) then v else None
  end.

(** The answers of a copy of node [p] of [h] whose child under [c] has been
    replaced by a subtrie that answers [d]: the node's own value for the
    empty key, [d] below [c], and the answers of [h] below every other
    byte. *)
Definition graft (h : list TrieNode) (p : nat) (c : ascii)
  (d : list ascii -> vtype -> option value)
  : list ascii -> vtype -> option value :=
  fun key T =>
    match key with
    | [] => value_at (h !!! p) T
    | c' :: key' =>
        if decide (c' = c) then d key' T
        else Get h (children_ (h !!! p) !! c') key' T
    end.

(** [graft] along a path, deepest node first, as the third loop of [Remove]
    visits it: [rk] holds the bytes under which each node is entered from
    the one before. *)
Fixpoint grafted (h : list TrieNode) (path : list nat) (rk : list ascii)
  (d : list ascii -> vtype -> option value)
  : list ascii -> vtype -> option value :=
  match path, rk with
  | p :: path', c :: rk' => grafted h path' rk' (graft h p c d)
  | _, _ => d
  end.

(** A call on a trie that returns a trie. *)
Inductive op : Type :=
| OpPut (key : list ascii) (v : value)
| OpRemove (key : list ascii).

(** The call [o] on the trie with root [t.2] in the heap [t.1]. *)
Definition apply_op (t : list TrieNode * option nat) (o : op)
  : list TrieNode * option nat :=
  match o with
  | OpPut key v => Put t.1 t.2 key v
  | OpRemove key => Remove t.1 t.2 key
  end.

(** The trie a sequence of calls builds, each call made on the trie the
    call before it returned, the first on the empty trie. *)
Definition run (ops : list op) : list TrieNode * option nat :=
  fold_left apply_op ops ([], None).

(** The same calls on a finite map from keys to values; a [Put] leaves in
    the map the object it constructed from its argument. *)
Definition model_op (m : gmap (list ascii) value) (o : op)
  : gmap (list ascii) value :=
  match o with
  | OpPut key v => <[key := moved v]> m
  | OpRemove key => delete key m
  end.

Definition model (ops : list op) : gmap (list ascii) value :=
  fold_left model_op ops ∅.

(** The nodes the first loop of [Remove] passes on its way down [key] from
    [a], in the order of the walk, and the node it ends at. *)
Fixpoint ancestors (h : list TrieNode) (a : nat) (key : list ascii)
  : option (list nat * nat) :=
  match key with
  | [] => Some ([], a)
  | c :: key' =>
      match children_ (h !!! a) !! c with
      | None => None
      | Some n =>
          match ancestors h n key' with
          | None => None
          | Some (l, b) => Some (a :: l, b)
          end
      end
  end.

End Trie.

(** * Properties of the LRU-K replacer *)

Module ReplacerFacts.

Import Replacer.

Lemma to_size_t_small z : 0 <= z < 2 ^ 64 -> to_size_t z = z.
Proof. intros H. unfold to_size_t. by apply Z.mod_small. Qed.

Lemma evictable_count_empty : evictable_count ∅ = 0.
Proof. unfold evictable_count. by rewrite map_filter_empty, map_size_empty. Qed.

Lemma evictable_count_insert_fresh (m : gmap Z LRUKNode) f n :
  m !! f = None ->
  evictable_count (<[f := n]> m) = evictable_count m + flag_weight n.
Proof.
  intros Hf. unfold evictable_count, flag_weight.
  destruct (is_evictable_ n) eqn:E.
  - rewrite map_filter_insert_True by done.
    rewrite map_size_insert_None; [lia|].
    apply map_lookup_filter_None. by left.
  - rewrite map_filter_insert_False by (simpl; congruence).
    rewrite delete_id by done. lia.
Qed.

Lemma evictable_count_delete (m : gmap Z LRUKNode) f n :
  m !! f = Some n ->
  evictable_count (delete f m) = evictable_count m - flag_weight n.
Proof.
  intros Hf.
  rewrite <- (insert_delete_id m f n) at 2 by done.
  rewrite evictable_count_insert_fresh by apply lookup_delete_eq. lia.
Qed.

Lemma evictable_count_insert_over (m : gmap Z LRUKNode) f n n' :
  m !! f = Some n ->
  evictable_count (<[f := n']> m)
  = evictable_count m - flag_weight n + flag_weight n'.
Proof.
  intros Hf. rewrite <- insert_delete_eq.
  rewrite evictable_count_insert_fresh by apply lookup_delete_eq.
  rewrite (evictable_count_delete m f n) by done. lia.
Qed.

Lemma evictable_count_zero (m : gmap Z LRUKNode) :
  evictable_count m = 0 <->
  forall f n, m !! f = Some n -> is_evictable_ n = false.
Proof.
  unfold evictable_count.
  set (P := fun p : Z * LRUKNode => is_evictable_ p.2 = true).
  split.
  - intros H f n Hf.
    assert (Hs : size (filter P m) = 0%nat) by lia.
    apply map_size_empty_iff in Hs.
    destruct (is_evictable_ n) eqn:E; [|done].
    assert (filter P m !! f = Some n) as Hin
      by (by apply map_lookup_filter_Some).
    rewrite Hs in Hin. by rewrite lookup_empty in Hin.
  - intros H.
    assert (filter P m = ∅) as ->; [|by rewrite map_size_empty].
    apply map_eq. intros f. rewrite lookup_empty.
    apply map_lookup_filter_None.
    destruct (m !! f) as [n|] eqn:Hf; [right|by left].
    intros n' [= <-]. unfold P. simpl. rewrite (H f n) by done. congruence.
Qed.

Lemma evictable_count_nonneg (m : gmap Z LRUKNode) : 0 <= evictable_count m.
Proof. unfold evictable_count. lia. Qed.

Lemma evictable_count_le_size (m : gmap Z LRUKNode) :
  evictable_count m <= Z.of_nat (size m).
Proof.
  unfold evictable_count. apply inj_le, map_subseteq_size, map_filter_subseteq.
Qed.

(** A map keyed by 32-bit integers has at most [2^32] entries. *)
Lemma int32_keys_size (m : gmap Z LRUKNode) :
  (forall f n, m !! f = Some n -> is_int32 f) ->
  Z.of_nat (size m) <= 2 ^ 32.
Proof.
  intros Hk.
  assert (dom m ⊆ (list_to_set (seqZ (- 2 ^ 31) (2 ^ 32)) : gset Z)) as Hsub.
  { intros f Hf. apply elem_of_dom in Hf as [n Hn]. apply Hk in Hn.
    apply elem_of_list_to_set, elem_of_seqZ. unfold is_int32 in Hn. lia. }
  apply subseteq_size in Hsub.
  rewrite size_dom in Hsub.
  rewrite size_list_to_set in Hsub by apply NoDup_seqZ.
  rewrite length_seqZ in Hsub. lia.
Qed.

Lemma wf_curr_size_bound r : wf r -> 0 <= curr_size_ r <= 2 ^ 32.
Proof.
  intros H. rewrite (wf_size r H). split; [apply evictable_count_nonneg|].
  etrans; [apply evictable_count_le_size|].
  apply int32_keys_size, (wf_keys r H).
Qed.

(** *** Nodes and their backward K-distance *)

Lemma node_front_bounds now k n :
  node_ok now k n -> 0 <= front (history_ n) < now.
Proof.
  intros (Hne & _ & _ & Hall). unfold front.
  destruct (history_ n) as [|t h]; [done|]. simpl.
  by apply Forall_cons in Hall as [? _].
Qed.

Lemma node_oldest now k n :
  node_ok now k n -> oldest_access n = Some (front (history_ n)).
Proof.
  intros (Hne & _). unfold oldest_access, front.
  by destruct (history_ n).
Qed.

Lemma node_cold_distance now k n :
  1 <= k -> Z.of_nat (length (history_ n)) < k ->
  backward_k_distance now k n = None.
Proof.
  intros Hk Hlen. unfold backward_k_distance, kth_most_recent.
  rewrite lookup_ge_None_2; [done|]. rewrite length_reverse. lia.
Qed.

Lemma node_warm_distance now k n :
  node_ok now k n -> 1 <= k -> ~ Z.of_nat (length (history_ n)) < k ->
  backward_k_distance now k n = Some (now - front (history_ n)).
Proof.
  intros (Hne & Hlen & Hle & _) Hk Hwarm.
  unfold backward_k_distance, kth_most_recent, front.
  rewrite reverse_lookup by lia.
  replace (length (history_ n) - S (Z.to_nat (k - 1)))%nat with 0%nat by lia.
  by destruct (history_ n).
Qed.

(** The order of the design document, on well-formed nodes, in terms of what
    the source compares. *)
Lemma outranks_char now k v n :
  node_ok now k v -> node_ok now k n -> 1 <= k ->
  outranks now k v n <->
  (Z.of_nat (length (history_ v)) < k /\ ~ Z.of_nat (length (history_ n)) < k) \/
  (Z.of_nat (length (history_ v)) < k /\ Z.of_nat (length (history_ n)) < k /\
   front (history_ v) <= front (history_ n)) \/
  (~ Z.of_nat (length (history_ v)) < k /\ ~ Z.of_nat (length (history_ n)) < k /\
   front (history_ v) <= front (history_ n)).
Proof.
  intros Hv Hn Hk. unfold outranks.
  destruct (decide (Z.of_nat (length (history_ v)) < k)) as [Cv|Wv];
    destruct (decide (Z.of_nat (length (history_ n)) < k)) as [Cn|Wn].
  - rewrite !node_cold_distance by done.
    rewrite (node_oldest now k v), (node_oldest now k n) by done. lia.
  - rewrite node_cold_distance by done.
    rewrite (node_warm_distance now k n) by done. lia.
  - rewrite (node_warm_distance now k v) by done.
    rewrite node_cold_distance by done. lia.
  - rewrite (node_warm_distance now k v), (node_warm_distance now k n) by done.
    lia.
Qed.

(** *** The scan of [Evict] *)

Lemma Evict_step_inv r seen s it :
  1 <= replacer_k_ r -> current_timestamp_ r < 2 ^ 64 ->
  (forall it', it' ∈ seen ++ [it] ->
     node_ok (current_timestamp_ r) (replacer_k_ r) it'.2) ->
  scan_inv r seen s ->
  scan_inv r (seen ++ [it]) (Evict_step r s it).
Proof.
  intros Hk Hnow Hok Hinv.
  assert (Hit : node_ok (current_timestamp_ r) (replacer_k_ r) it.2)
    by (apply Hok; set_solver).
  pose proof (node_front_bounds _ _ _ Hit) as Hfr.
  unfold Evict_step.
  destruct (is_evictable_ it.2) eqn:Ev; simpl.
  2:{ destruct Hinv
        as [[Hnone ->]|(v & nv & Hin & Hev & Hid & Hmax & Hpos & Hinf & Hbest)].
      - left. split; [|done]. intros it' [?| ->%list_elem_of_singleton]%elem_of_app; auto.
      - right. exists v, nv. repeat split; try done; [set_solver|].
        intros it' [?| ->%list_elem_of_singleton]%elem_of_app ?; [auto|congruence]. }
  rewrite (to_size_t_small (current_timestamp_ r - front (history_ it.2))) by lia.
  assert (Hself : outranks (current_timestamp_ r) (replacer_k_ r) it.2 it.2)
    by (apply outranks_char; try done; lia).
  destruct Hinv as [[Hnone ->]|(v & nv & Hin & Hev & Hid & Hmax & Hpos & Hinf & Hbest)].
  - (* first evictable entry *)
    assert (scan_inv r (seen ++ [it])
              {| evict_frame_id := Some it.1;
                 k_dist_max := current_timestamp_ r - front (history_ it.2);
                 k_dist_inf :=
                   bool_decide (Z.of_nat (length (history_ it.2))
                                < replacer_k_ r) |}) as Hgoal.
    { right. exists it.1, it.2. simpl. repeat split; try done; try lia.
      - destruct it; set_solver.
      - intros it' [Hs| ->%list_elem_of_singleton]%elem_of_app Hev'; [|done].
        rewrite (Hnone it' Hs) in Hev'. done. }
    simpl.
    destruct (Z.ltb_spec (Z.of_nat (length (history_ it.2))) (replacer_k_ r))
      as [C|W].
    + by rewrite bool_decide_eq_true_2 in Hgoal.
    + rewrite bool_decide_eq_false_2 in Hgoal by lia.
      destruct (Z.ltb_spec 0 (current_timestamp_ r - front (history_ it.2))); [done|lia].
  - (* a victim is already chosen *)
    assert (Hnv : node_ok (current_timestamp_ r) (replacer_k_ r) nv)
      by (apply (Hok (v, nv)); set_solver).
    assert (Hold : outranks (current_timestamp_ r) (replacer_k_ r) nv it.2 ->
                   scan_inv r (seen ++ [it]) s).
    { intros Hr. right. exists v, nv. repeat split; try done; [set_solver|].
      intros it' [Hs| ->%list_elem_of_singleton]%elem_of_app Hev'; auto. }
    assert (Hnew : forall inf,
               inf = bool_decide (Z.of_nat (length (history_ it.2)) < replacer_k_ r) ->
               outranks (current_timestamp_ r) (replacer_k_ r) it.2 nv ->
               scan_inv r (seen ++ [it])
                 {| evict_frame_id := Some it.1;
                    k_dist_max := current_timestamp_ r - front (history_ it.2);
                    k_dist_inf := inf |}).
    { intros inf -> Hr. right. exists it.1, it.2. simpl. repeat split; try done; try lia.
      - destruct it; set_solver.
      - intros it' [Hs| ->%list_elem_of_singleton]%elem_of_app Hev'; [|done].
        assert (Hit' : node_ok (current_timestamp_ r) (replacer_k_ r) it'.2)
          by (apply Hok; set_solver).
        specialize (Hbest it' Hs Hev').
        apply outranks_char in Hbest; [|done..].
        apply outranks_char in Hr; [|done..].
        apply outranks_char; [done..|]. lia. }
    rewrite Hinf, Hmax.
    destruct (Z.ltb_spec (Z.of_nat (length (history_ it.2))) (replacer_k_ r)) as [C|W];
      destruct (decide (Z.of_nat (length (history_ nv)) < replacer_k_ r)) as [Cv|Wv];
      rewrite ?(bool_decide_eq_true_2 _ Cv), ?(bool_decide_eq_false_2 _ Wv); simpl.
    + destruct (Z.ltb_spec (current_timestamp_ r - front (history_ nv))
                           (current_timestamp_ r - front (history_ it.2))).
      * rewrite <- (bool_decide_eq_true_2 _ Cv), <- Hinf.
        apply Hnew; [by rewrite Hinf, !bool_decide_eq_true_2|].
        apply outranks_char; [done..|]. lia.
      * apply Hold. apply outranks_char; [done..|]. lia.
    + apply Hnew; [by rewrite bool_decide_eq_true_2|].
      apply outranks_char; [done..|]. lia.
    + apply Hold. apply outranks_char; [done..|]. lia.
    + destruct (Z.ltb_spec (current_timestamp_ r - front (history_ nv))
                           (current_timestamp_ r - front (history_ it.2))).
      * rewrite <- (bool_decide_eq_false_2 _ Wv), <- Hinf.
        apply Hnew; [rewrite Hinf, !bool_decide_eq_false_2 by lia; done|].
        apply outranks_char; [done..|]. lia.
      * apply Hold. apply outranks_char; [done..|]. lia.
Qed.

Lemma Evict_fold_inv r l :
  1 <= replacer_k_ r -> current_timestamp_ r < 2 ^ 64 ->
  forall seen s,
    (forall it, it ∈ seen ++ l ->
       node_ok (current_timestamp_ r) (replacer_k_ r) it.2) ->
    scan_inv r seen s ->
    scan_inv r (seen ++ l) (fold_left (Evict_step r) l s).
Proof.
  intros Hk Hnow. induction l as [|it l IH]; intros seen s Hok Hinv; simpl.
  - by rewrite app_nil_r.
  - rewrite cons_middle, app_assoc. apply IH.
    + by rewrite <- app_assoc, <- cons_middle.
    + apply Evict_step_inv; try done.
      intros it' Hin. apply Hok. set_solver.
Qed.

(** A victim recorded by the scan goes with a non-zero distance, whatever
    the state: [evict_frame_id] is never read uninitialised. *)
Lemma Evict_fold_assigned r l s :
  (k_dist_max s <> 0 -> is_Some (evict_frame_id s)) ->
  k_dist_max (fold_left (Evict_step r) l s) <> 0 ->
  is_Some (evict_frame_id (fold_left (Evict_step r) l s)).
Proof.
  revert s. induction l as [|it l IH]; intros s Hs; simpl; [done|].
  apply IH. unfold Evict_step.
  repeat case_match; simpl; eauto.
Qed.

(** *** Well-formedness is an invariant *)

Lemma node_ok_later now now' k n :
  now <= now' -> node_ok now k n -> node_ok now' k n.
Proof.
  intros Hle (? & ? & ? & Hall). repeat split; try done.
  eapply Forall_impl; [exact Hall|]. simpl. intros. lia.
Qed.

Lemma new_wf num_frames k : 1 <= k < 2 ^ 64 -> wf (new num_frames k).
Proof.
  intros Hk. split; simpl; done.
Qed.

Lemma RecordAccess_fatal_iff r f :
  RecordAccess r f = Fatal <-> replacer_size_ r <= curr_size_ r.
Proof.
  unfold RecordAccess.
  destruct (Z.leb_spec (replacer_size_ r) (curr_size_ r)); [done|].
  split; [|lia]. by destruct (node_store_ r !! f).
Qed.

Lemma RecordAccess_defined r f : RecordAccess r f <> Undefined.
Proof.
  unfold RecordAccess. destruct (replacer_size_ r <=? curr_size_ r); [done|].
  by destruct (node_store_ r !! f).
Qed.

Lemma RecordAccess_wf r f r' :
  wf r -> is_int32 f -> current_timestamp_ r + 1 < 2 ^ 64 ->
  RecordAccess r f = Done r' -> wf r'.
Proof.
  intros H Hf Hts. pose proof (wf_curr_size_bound r H) as Hb.
  pose proof (wf_now r H) as Hnow. pose proof (wf_k r H) as Hk.
  unfold RecordAccess.
  destruct (replacer_size_ r <=? curr_size_ r); [done|].
  destruct (node_store_ r !! f) as [n|] eqn:Hn; intros [= <-].
  - (* known frame *)
    destruct (wf_nodes r H f n Hn) as (Hne & Hlen & Hle & Hall).
    split; simpl; try done.
    + rewrite to_size_t_small; lia.
    + rewrite (to_size_t_small (current_timestamp_ r + 1)) by lia.
      intros g m [[<- <-]|[? Hm]]%lookup_insert_Some.
      * destruct (Z.ltb_spec (k_ n) (replacer_k_ r)); simpl.
        -- repeat split; simpl.
           ++ by destruct (history_ n).
           ++ rewrite length_app. simpl. rewrite to_size_t_small; lia.
           ++ rewrite to_size_t_small; lia.
           ++ apply Forall_app. split; [|apply Forall_singleton; lia].
              eapply Forall_impl; [exact Hall|]. simpl. intros. lia.
        -- unfold pop_front. destruct (history_ n) as [|t h] eqn:Hh; [done|].
           simpl in *. repeat split; simpl.
           ++ by destruct h.
           ++ rewrite length_app. simpl. lia.
           ++ lia.
           ++ apply Forall_cons in Hall as [_ Hall].
              apply Forall_app. split; [|apply Forall_singleton; lia].
              eapply Forall_impl; [exact Hall|]. simpl. intros. lia.
      * apply (node_ok_later (current_timestamp_ r)); [lia|].
        by apply (wf_nodes r H g).
    + intros g m [[<- <-]|[? Hm]]%lookup_insert_Some; [done|].
      by apply (wf_keys r H g m).
    + rewrite (evictable_count_insert_over _ f n) by done.
      rewrite (wf_size r H). unfold flag_weight.
      destruct (k_ n <? replacer_k_ r); simpl; lia.
  - (* new frame *)
    split; simpl; try done.
    + rewrite to_size_t_small; lia.
    + rewrite to_size_t_small by lia.
      intros g m [[<- <-]|[? Hm]]%lookup_insert_Some.
      * repeat split; simpl; try done; try lia.
        apply Forall_singleton. lia.
      * apply (node_ok_later (current_timestamp_ r)); [lia|].
        by apply (wf_nodes r H g).
    + intros g m [[<- <-]|[? Hm]]%lookup_insert_Some; [done|].
      by apply (wf_keys r H g m).
    + rewrite evictable_count_insert_fresh by done.
      rewrite to_size_t_small by lia.
      rewrite (wf_size r H). unfold flag_weight. simpl. lia.
Qed.

Lemma SetEvictable_wf r f e : wf r -> wf (SetEvictable r f e).
Proof.
  intros H. pose proof (wf_curr_size_bound r H) as Hb.
  unfold SetEvictable.
  destruct (node_store_ r !! f) as [n|] eqn:Hn; [|done].
  destruct (Bool.eqb (is_evictable_ n) e) eqn:He; [done|].
  apply Bool.eqb_false_iff in He.
  split; simpl.
  - apply (wf_k r H).
  - apply (wf_now r H).
  - intros g m [[<- <-]|[? Hm]]%lookup_insert_Some.
    + apply (wf_nodes r H f n Hn).
    + by apply (wf_nodes r H g).
  - intros g m [[<- <-]|[? Hm]]%lookup_insert_Some.
    + by apply (wf_keys r H f n).
    + by apply (wf_keys r H g m).
  - rewrite (evictable_count_insert_over _ f n) by done.
    pose proof (wf_size r H) as Hs.
    assert (flag_weight n <= evictable_count (node_store_ r)).
    { rewrite <- (insert_id (node_store_ r) f n) by done.
      rewrite <- insert_delete_eq.
      rewrite evictable_count_insert_fresh by apply lookup_delete_eq.
      pose proof (evictable_count_nonneg (delete f (node_store_ r))). lia. }
    unfold flag_weight in *. simpl.
    destruct e, (is_evictable_ n); try done; rewrite to_size_t_small; lia.
Qed.

Lemma Remove_wf r f : wf r -> wf (Remove r f).
Proof.
  intros H. pose proof (wf_curr_size_bound r H) as Hb.
  unfold Remove.
  destruct (node_store_ r !! f) as [n|] eqn:Hn; [|done].
  destruct (is_evictable_ n) eqn:He; [|done]. simpl.
  split; simpl.
  - apply (wf_k r H).
  - apply (wf_now r H).
  - intros g m [? Hm]%lookup_delete_Some. by apply (wf_nodes r H g).
  - intros g m [? Hm]%lookup_delete_Some. by apply (wf_keys r H g m).
  - rewrite (evictable_count_delete _ f n) by done.
    pose proof (wf_size r H) as Hs.
    pose proof (evictable_count_nonneg (delete f (node_store_ r))) as Hd.
    rewrite (evictable_count_delete _ f n) in Hd by done.
    unfold flag_weight in *. rewrite He in *.
    rewrite to_size_t_small; lia.
Qed.

Lemma RecordAccess_timestamp r f r' :
  wf r -> current_timestamp_ r + 1 < 2 ^ 64 ->
  RecordAccess r f = Done r' ->
  current_timestamp_ r' = current_timestamp_ r + 1.
Proof.
  intros H Hts. pose proof (wf_now r H). unfold RecordAccess.
  destruct (replacer_size_ r <=? curr_size_ r); [done|].
  destruct (node_store_ r !! f); intros [= <-]; simpl;
    rewrite to_size_t_small; lia.
Qed.

Lemma accesses_wf frames : forall r r',
  wf r -> Forall is_int32 frames ->
  current_timestamp_ r + Z.of_nat (length frames) < 2 ^ 64 ->
  accesses r frames = Done r' -> wf r'.
Proof.
  induction frames as [|f frames IH]; intros r r' H Hfs Hts; simpl.
  - by intros [= <-].
  - apply Forall_cons in Hfs as [Hf Hfs]. simpl in Hts.
    destruct (RecordAccess r f) as [r1| |] eqn:E; simpl; try done.
    apply IH; [|done|].
    + eapply RecordAccess_wf; [exact H|done|lia|exact E].
    + rewrite (RecordAccess_timestamp r f r1) by (done || lia). lia.
Qed.

Lemma four_warm_reached :
  accesses (new 7 2) [1; 2; 3; 4; 1; 2; 3; 4] = Done four_warm.
Proof. vm_compute. reflexivity. Qed.

Lemma four_warm_wf : wf four_warm.
Proof.
  apply (accesses_wf [1; 2; 3; 4; 1; 2; 3; 4] (new 7 2)).
  - apply new_wf. lia.
  - repeat constructor; unfold is_int32; lia.
  - simpl. lia.
  - apply four_warm_reached.
Qed.

Lemma one_pinned_reached :
  (let! r := RecordAccess (new 1 2) 0 in Done (SetEvictable r 0 false))
  = Done one_pinned.
Proof. vm_compute. reflexivity. Qed.

Lemma one_pinned_wf : wf one_pinned.
Proof.
  pose proof one_pinned_reached as E.
  destruct (RecordAccess (new 1 2) 0) as [r| |] eqn:Er; simpl in E; try done.
  injection E as <-. apply SetEvictable_wf.
  apply (RecordAccess_wf (new 1 2) 0 r);
    [apply new_wf; lia | unfold is_int32; lia | simpl; lia | exact Er].
Qed.

(** *** What the operations do to other frames *)

Lemma RecordAccess_lookup_ne r f r' g :
  RecordAccess r f = Done r' -> g <> f ->
  node_store_ r' !! g = node_store_ r !! g.
Proof.
  unfold RecordAccess. destruct (replacer_size_ r <=? curr_size_ r); [done|].
  destruct (node_store_ r !! f); intros [= <-] Hg; simpl;
    by rewrite lookup_insert_ne.
Qed.

Lemma RecordAccess_tracked r f r' :
  RecordAccess r f = Done r' -> is_Some (node_store_ r' !! f).
Proof.
  unfold RecordAccess. destruct (replacer_size_ r <=? curr_size_ r); [done|].
  destruct (node_store_ r !! f); intros [= <-]; simpl;
    rewrite lookup_insert_eq; by eexists.
Qed.

Lemma SetEvictable_lookup_ne r f e g :
  g <> f -> node_store_ (SetEvictable r f e) !! g = node_store_ r !! g.
Proof.
  intros Hg. unfold SetEvictable. destruct (node_store_ r !! f); [|done].
  destruct (Bool.eqb _ _); [done|]. simpl. by rewrite lookup_insert_ne.
Qed.

Lemma SetEvictable_lookup r f e n :
  node_store_ r !! f = Some n ->
  node_store_ (SetEvictable r f e) !! f
  = Some {| history_ := history_ n; k_ := k_ n; fid_ := fid_ n;
            is_evictable_ := e |}.
Proof.
  intros Hn. unfold SetEvictable. rewrite Hn.
  destruct (Bool.eqb (is_evictable_ n) e) eqn:E.
  - apply Bool.eqb_prop in E. subst e. rewrite Hn. by destruct n.
  - simpl. by rewrite lookup_insert_eq.
Qed.

Lemma SetEvictable_tracked r f e g :
  is_Some (node_store_ r !! g) -> is_Some (node_store_ (SetEvictable r f e) !! g).
Proof.
  intros [n Hn]. destruct (decide (g = f)) as [->|Hg].
  - rewrite (SetEvictable_lookup r f e n Hn). by eexists.
  - rewrite SetEvictable_lookup_ne by done. by eexists.
Qed.

Lemma SetEvictable_tracked_inv r f e g :
  is_Some (node_store_ (SetEvictable r f e) !! g) -> is_Some (node_store_ r !! g).
Proof.
  destruct (decide (g = f)) as [->|Hg].
  - unfold SetEvictable. destruct (node_store_ r !! f) eqn:E; [by eexists|].
    by rewrite E.
  - by rewrite SetEvictable_lookup_ne.
Qed.

Lemma Remove_tracked_inv r f g :
  is_Some (node_store_ (Remove r f) !! g) -> is_Some (node_store_ r !! g).
Proof.
  unfold Remove. destruct (node_store_ r !! f) as [n|]; [|done].
  destruct (negb (is_evictable_ n)); [done|]. simpl.
  intros [m [_ Hm]%lookup_delete_Some]. by eexists.
Qed.

Lemma Remove_lookup_ne r f g :
  g <> f -> node_store_ (Remove r f) !! g = node_store_ r !! g.
Proof.
  intros Hg. unfold Remove. destruct (node_store_ r !! f); [|done].
  destruct (negb _); [done|]. simpl. by rewrite lookup_delete_ne.
Qed.

Section Order.

Variable iter : gmap Z LRUKNode -> list (Z * LRUKNode).
Hypothesis iter_perm : forall m, iter m ≡ₚ map_to_list m.

Lemma elem_of_iter (m : gmap Z LRUKNode) f n :
  (f, n) ∈ iter m <-> m !! f = Some n.
Proof. rewrite iter_perm. apply elem_of_map_to_list. Qed.

Lemma Evict_scan_inv r :
  wf r -> scan_inv r (iter (node_store_ r)) (Evict_scan iter r).
Proof.
  intros H. unfold Evict_scan.
  apply (Evict_fold_inv r (iter (node_store_ r))) with (seen := []).
  - apply (wf_k r H).
  - apply (wf_now r H).
  - intros [f n] Hin. simpl in Hin. apply elem_of_iter in Hin.
    by apply (wf_nodes r H f).
  - left. split; [|done]. intros it Hin. by apply elem_of_nil in Hin.
Qed.

(** What [Evict] returns in a well-formed state, in one statement. *)
Lemma Evict_cases r :
  wf r ->
  (Evict iter r = (None, r) /\
   forall f n, node_store_ r !! f = Some n -> is_evictable_ n = false) \/
  (exists v nv,
      Evict iter r =
        (Some v,
         {| node_store_ := delete v (node_store_ r);
            current_timestamp_ := current_timestamp_ r;
            curr_size_ := curr_size_ r - 1;
            replacer_size_ := replacer_size_ r;
            replacer_k_ := replacer_k_ r |}) /\
      node_store_ r !! v = Some nv /\ is_evictable_ nv = true /\
      forall f n, node_store_ r !! f = Some n -> is_evictable_ n = true ->
                  outranks (current_timestamp_ r) (replacer_k_ r) nv n).
Proof.
  intros H. pose proof (Evict_scan_inv r H) as Hinv.
  pose proof (wf_curr_size_bound r H) as Hb.
  unfold Evict.
  destruct (Z.eqb_spec (curr_size_ r) 0) as [Hz|Hnz].
  { left. split; [done|]. apply evictable_count_zero. by rewrite <- (wf_size r H). }
  destruct Hinv as [[Hnone Hs]|(v & nv & Hin & Hev & Hid & Hmax & Hpos & Hinf & Hbest)].
  - exfalso. apply Hnz. rewrite (wf_size r H). apply evictable_count_zero.
    intros f n Hf. apply (Hnone (f, n)). by apply elem_of_iter.
  - right. exists v, nv. apply elem_of_iter in Hin.
    destruct (Z.eqb_spec (k_dist_max (Evict_scan iter r)) 0) as [?|_]; [lia|].
    rewrite Hid. rewrite to_size_t_small by lia.
    repeat split; try done.
    intros f n Hf Hev'. apply (Hbest (f, n)); [by apply elem_of_iter|done].
Qed.

Lemma Evict_wf r : wf r -> wf (Evict iter r).2.
Proof.
  intros H. destruct (Evict_cases r H) as [[-> _]|(v & nv & -> & Hv & Hev & _)]; [done|].
  split; simpl.
  - apply (wf_k r H).
  - apply (wf_now r H).
  - intros g m [? Hm]%lookup_delete_Some. by apply (wf_nodes r H g).
  - intros g m [? Hm]%lookup_delete_Some. by apply (wf_keys r H g m).
  - rewrite (evictable_count_delete _ v nv) by done.
    rewrite (wf_size r H). unfold flag_weight. rewrite Hev. lia.
Qed.

Lemma reachable_wf r : reachable iter r -> wf r.
Proof.
  induction 1 as [n k Hk|r f r' _ IH Hf Hts E|r f e _ IH|r f _ IH|r _ IH].
  - by apply new_wf.
  - by apply (RecordAccess_wf r f).
  - by apply SetEvictable_wf.
  - by apply Remove_wf.
  - by apply Evict_wf.
Qed.

(** C2.  In a well-formed replacer [Evict] returns no frame exactly when no
    tracked frame is evictable.  Otherwise the frame it returns is tracked and
    evictable, and no evictable frame beats it in the order of the design
    document: a frame with fewer than K accesses (infinite backward
    K-distance) goes before every frame with K accesses; among the former the
    one with the smallest oldest access, among the latter the one with the
    largest distance from the current time to its K-th most recent access.
    Afterwards the returned frame is not tracked any more, and every other
    frame is tracked as before. *)
Theorem Evict_returns_largest_backward_k_distance r :
  wf r ->
  ((Evict iter r).1 = None <->
   forall f n, node_store_ r !! f = Some n -> is_evictable_ n = false) /\
  (forall v, (Evict iter r).1 = Some v ->
     (exists nv,
        node_store_ r !! v = Some nv /\ is_evictable_ nv = true /\
        forall f n, node_store_ r !! f = Some n -> is_evictable_ n = true ->
                    outranks (current_timestamp_ r) (replacer_k_ r) nv n) /\
     node_store_ (Evict iter r).2 !! v = None /\
     forall f, f <> v ->
               node_store_ (Evict iter r).2 !! f = node_store_ r !! f).
Proof.
  intros H.
  destruct (Evict_cases r H) as [[-> Hnone]|(v & nv & -> & Hv & Hev & Hbest)];
    simpl.
  - split; [done|]. intros v [=].
  - split.
    + split; [done|]. intros Hnone. rewrite (Hnone v nv Hv) in Hev. done.
    + intros v' [= <-]. split; [by exists nv|].
      split; [apply lookup_delete_eq|].
      intros f Hf. by apply lookup_delete_ne.
Qed.

End Order.

Lemma Evict_returns_largest_backward_k_distance_witness :
  wf four_warm /\
  ((Evict map_to_list four_warm).1 = None <->
   forall f n, node_store_ four_warm !! f = Some n -> is_evictable_ n = false) /\
  (forall v, (Evict map_to_list four_warm).1 = Some v ->
     (exists nv,
        node_store_ four_warm !! v = Some nv /\ is_evictable_ nv = true /\
        forall f n, node_store_ four_warm !! f = Some n -> is_evictable_ n = true ->
                    outranks (current_timestamp_ four_warm)
                             (replacer_k_ four_warm) nv n) /\
     node_store_ (Evict map_to_list four_warm).2 !! v = None /\
     forall f, f <> v ->
               node_store_ (Evict map_to_list four_warm).2 !! f
               = node_store_ four_warm !! f).
Proof.
  split; [exact four_warm_wf|].
  apply (Evict_returns_largest_backward_k_distance map_to_list).
  - intros m. reflexivity.
  - exact four_warm_wf.
Defined.

(** C4.  [RecordAccess] compares the number of evictable frames with the
    capacity before it looks the frame up.  With capacity 1 and frame 0
    tracked and evictable, a second access to frame 0 stops on the assertion
    although no node would be created; and with frame 0 tracked but not
    evictable, an access to the untracked frame 1 creates a second node
    without any assertion. *)
Theorem RecordAccess_capacity_check_ignores_tracking :
  (exists r,
      RecordAccess (new 1 2) 0 = Done r /\
      is_Some (node_store_ r !! 0) /\
      RecordAccess r 0 = Fatal) /\
  (exists r',
      node_store_ one_pinned !! 1 = None /\
      Z.of_nat (size (node_store_ one_pinned)) = replacer_size_ one_pinned /\
      RecordAccess one_pinned 1 = Done r' /\
      Z.of_nat (size (node_store_ r')) = 2 /\ replacer_size_ r' = 1).
Proof.
  split.
  - eexists. split; [vm_compute; reflexivity|].
    split; [by eexists|]. vm_compute. reflexivity.
  - eexists. split; [done|]. split; [done|].
    split; [vm_compute; reflexivity|]. split; vm_compute; reflexivity.
Qed.

(** C10.  [Remove] on a tracked frame whose evictable flag is off returns
    without touching the replacer: the state is the same, so the node is
    still tracked with its history and [Size] is what it was. *)
Theorem Remove_of_non_evictable_frame_changes_nothing r f n :
  node_store_ r !! f = Some n -> is_evictable_ n = false ->
  Remove r f = r /\
  node_store_ (Remove r f) !! f = Some n /\
  Size (Remove r f) = Size r.
Proof.
  intros Hn He. assert (Remove r f = r) as ->; [|done].
  unfold Remove. by rewrite Hn, He.
Qed.

Lemma Remove_of_non_evictable_frame_changes_nothing_witness :
  Remove one_pinned 0 = one_pinned /\
  node_store_ (Remove one_pinned 0) !! 0 = Some (node_of 0 [0] false) /\
  Size (Remove one_pinned 0) = Size one_pinned.
Proof.
  apply (Remove_of_non_evictable_frame_changes_nothing one_pinned 0
           (node_of 0 [0] false)); reflexivity.
Defined.

End ReplacerFacts.

(** * Properties of the buffer pool manager *)

Module BPMFacts.

Import Replacer ReplacerFacts BPM.

Lemma pool1_NewPage :
  NewPage map_to_list (-1) log_write log_read pool1
  = Done (Some (0, 0), pool1_pinned).
Proof. vm_compute. reflexivity. Qed.

Lemma pool1_UnpinPage :
  UnpinPage pool1_pinned 0 false = Done (true, pool1_unpinned).
Proof. vm_compute. reflexivity. Qed.

Lemma frame_at_Some (pages : list Page) f p :
  frame_at pages f = Some p <-> 0 <= f /\ pages !! Z.to_nat f = Some p.
Proof. unfold frame_at. case_decide; naive_solver. Qed.

Lemma frame_at_set_frame (pages : list Page) f p q :
  frame_at pages f = Some p -> frame_at (set_frame pages f q) f = Some q.
Proof.
  intros [Hf Hp]%frame_at_Some. apply frame_at_Some. split; [done|].
  unfold set_frame. apply list_lookup_insert_eq. by eapply lookup_lt_Some.
Qed.

Lemma frame_at_set_frame_ne (pages : list Page) f g q :
  0 <= f -> f <> g ->
  frame_at (set_frame pages f q) g = frame_at pages g.
Proof.
  intros Hf Hne. unfold frame_at, set_frame. case_decide; [|done].
  apply list_lookup_insert_ne. lia.
Qed.

Lemma is_frame_set_frame (pages : list Page) f q g :
  is_frame (set_frame pages f q) g <-> is_frame pages g.
Proof.
  unfold is_frame, frame_at, set_frame. case_decide; [|done].
  by rewrite !lookup_lt_is_Some, length_insert.
Qed.

Lemma emplace_lookup_Some (k v : Z) (m : gmap Z Z) j w :
  emplace k v m !! j = Some w -> (j = k /\ w = v) \/ m !! j = Some w.
Proof.
  unfold emplace. destruct (m !! k) eqn:E; [by right|].
  intros [[<- <-]|[_ ?]]%lookup_insert_Some; [by left|by right].
Qed.

Lemma to_int_small z : is_int32 z -> to_int z = z.
Proof.
  unfold is_int32, to_int. intros H.
  rewrite Z.mod_small; lia.
Qed.

Section Pool.

Variable iter : gmap Z LRUKNode -> list (Z * LRUKNode).
Hypothesis iter_perm : forall m, iter m ≡ₚ map_to_list m.
Variable INVALID_PAGE_ID : Z.
Variable Disk : Type.
Variable disk_write : Z -> list Byte.byte -> Disk -> Disk * bool.
Variable disk_read : Z -> Disk -> Disk * bool * list Byte.byte.

(** The three ways frame selection can go. *)
Lemma select_frame_cases (b : BufferPoolManager Disk) :
  wf (replacer_ b) ->
  (exists f fl, free_list_ b = f :: fl /\
                select_frame iter b = (Some f, fl, replacer_ b)) \/
  (free_list_ b = [] /\
   select_frame iter b = (None, [], replacer_ b) /\
   forall f n, node_store_ (replacer_ b) !! f = Some n ->
               is_evictable_ n = false) \/
  (exists v nv rep,
      free_list_ b = [] /\
      select_frame iter b = (Some v, [], rep) /\
      Evict iter (replacer_ b) = (Some v, rep) /\
      node_store_ (replacer_ b) !! v = Some nv /\
      node_store_ rep = delete v (node_store_ (replacer_ b))).
Proof.
  intros H. unfold select_frame.
  destruct (free_list_ b) as [|f fl]; [|left; by exists f, fl].
  right.
  destruct (Evict_cases iter iter_perm (replacer_ b) H)
    as [[-> Hnone]|(v & nv & -> & Hv & Hev & _)].
  - by left.
  - right. exists v, nv. by eexists.
Qed.

Lemma select_frame_None (b : BufferPoolManager Disk) fl rep :
  wf (replacer_ b) ->
  select_frame iter b = (None, fl, rep) ->
  free_list_ b = [] /\ fl = [] /\ rep = replacer_ b /\
  forall f n, node_store_ (replacer_ b) !! f = Some n -> is_evictable_ n = false.
Proof.
  intros H Hsel.
  destruct (select_frame_cases b H)
    as [(f & fl' & _ & E)|[(Hfl & E & Hnone)|(v & nv & rep' & _ & E & _)]];
    rewrite E in Hsel; simplify_eq. done.
Qed.

Lemma select_frame_Some (b : BufferPoolManager Disk) f fl rep :
  bpm_inv b ->
  select_frame iter b = (Some f, fl, rep) ->
  wf rep /\ current_timestamp_ rep = current_timestamp_ (replacer_ b) /\
  is_frame (pages_ b) f /\
  (forall g, g ∈ fl -> g ∈ free_list_ b) /\
  (forall g, g <> f -> g ∈ free_list_ b -> g ∈ fl) /\
  (forall g, g <> f ->
             node_store_ rep !! g = node_store_ (replacer_ b) !! g).
Proof.
  intros Hinv Hsel. pose proof (inv_replacer b Hinv) as H.
  destruct (select_frame_cases b H)
    as [(f' & fl' & Hfl & E)
       |[(Hfl & E & Hnone)|(v & nv & rep' & Hfl & E & Hev & Hv & Hst)]];
    rewrite E in Hsel; simplify_eq.
  - split_and!; try done.
    + apply (inv_free b Hinv). rewrite Hfl. set_solver.
    + intros g Hg. rewrite Hfl. set_solver.
    + intros g Hg. rewrite Hfl. set_solver.
  - split_and!.
    + pose proof (Evict_wf iter iter_perm (replacer_ b) H) as Hw.
      by rewrite Hev in Hw.
    + destruct (Evict_cases iter iter_perm (replacer_ b) H)
        as [[E' _]|(v' & nv' & E' & _)]; rewrite E' in Hev; by simplify_eq.
    + by apply (inv_tracked b Hinv f nv).
    + intros g Hg. by apply elem_of_nil in Hg.
    + intros g _ Hg. by rewrite Hfl in Hg.
    + intros g Hg. rewrite Hst. by apply lookup_delete_ne.
Qed.

(** The frame chosen by [select_frame] gets a page with pin count 1, an
    access is recorded for it and it is made non-evictable: the invariant
    holds afterwards, whatever page table entries are dropped and whichever
    is added for this frame. *)
Lemma install_inv (b : BufferPoolManager Disk) f fl rep rep1 p' pt npid
  (d : Disk) :
  bpm_inv b ->
  select_frame iter b = (Some f, fl, rep) ->
  current_timestamp_ (replacer_ b) + 1 < 2 ^ 64 ->
  RecordAccess rep f = Done rep1 ->
  pin_count_ p' = 1 ->
  (forall pid g, pt !! pid = Some g -> g = f \/ page_table_ b !! pid = Some g) ->
  bpm_inv {| pool_size_ := pool_size_ b;
             pages_ := set_frame (pages_ b) f p';
             page_table_ := pt; free_list_ := fl;
             replacer_ := SetEvictable rep1 f false;
             next_page_id_ := npid; disk_scheduler_ := d |}.
Proof.
  intros Hinv Hsel Hts Hacc Hpin Hpt.
  destruct (select_frame_Some b f fl rep Hinv Hsel)
    as (Hwf & Hnow & Hf & Hfl1 & Hfl2 & Hst).
  pose proof Hf as [Hf32 [p [Hf0 Hp]%frame_at_Some]].
  assert (Hother : forall g, g <> f ->
             node_store_ (SetEvictable rep1 f false) !! g
             = node_store_ (replacer_ b) !! g).
  { intros g Hg. rewrite SetEvictable_lookup_ne by done.
    rewrite (RecordAccess_lookup_ne rep f rep1) by done. by apply Hst. }
  assert (Hself : is_Some (node_store_ (SetEvictable rep1 f false) !! f))
    by by apply SetEvictable_tracked, (RecordAccess_tracked rep).
  split; simpl.
  - unfold set_frame. rewrite length_insert. apply (inv_size b Hinv).
  - apply SetEvictable_wf. apply (RecordAccess_wf rep f); try done. lia.
  - intros g Hg. apply is_frame_set_frame, (inv_free b Hinv). by apply Hfl1.
  - intros g n Hg. apply is_frame_set_frame.
    destruct (decide (g = f)) as [->|Hne]; [done|].
    rewrite Hother in Hg by done. by apply (inv_tracked b Hinv g n).
  - intros pid g [->|Hold]%Hpt.
    + split; [by apply is_frame_set_frame|by right].
    + destruct (inv_table b Hinv pid g Hold) as [Hg Hwhere].
      split; [by apply is_frame_set_frame|].
      destruct (decide (g = f)) as [->|Hne]; [by right|].
      destruct Hwhere as [Hfree|Htr]; [left; by apply Hfl2|right].
      by rewrite Hother.
  - intros i q [(_ & <- & _)|[_ Hq]]%list_lookup_insert_Some; [lia|].
    by apply (inv_pins b Hinv i).
  - intros i q [(_ & <- & _)|[Hi Hq]]%list_lookup_insert_Some Hz; [lia|].
    assert (Z.of_nat i <> f) as Hne by lia.
    destruct (inv_unpinned b Hinv i q Hq Hz) as [Hfree|(n & Hn & He)].
    + left. by apply Hfl2.
    + right. exists n. split; [|done]. by rewrite Hother.
Qed.

Lemma same_pool (b : BufferPoolManager Disk) :
  {| pool_size_ := pool_size_ b; pages_ := pages_ b;
     page_table_ := page_table_ b; free_list_ := free_list_ b;
     replacer_ := replacer_ b; next_page_id_ := next_page_id_ b;
     disk_scheduler_ := disk_scheduler_ b |} = b.
Proof. by destruct b. Qed.

Lemma NewPage_inv (b : BufferPoolManager Disk) res b' :
  bpm_inv b -> current_timestamp_ (replacer_ b) + 1 < 2 ^ 64 ->
  NewPage iter INVALID_PAGE_ID disk_write disk_read b = Done (res, b') ->
  bpm_inv b'.
Proof.
  intros Hinv Hts. unfold NewPage.
  destruct (select_frame iter b) as [[[f|] fl] rep] eqn:Hsel.
  - destruct (frame_at (pages_ b) f) as [p|] eqn:Hp; [|done].
    destruct (write_back _ _ p _) as [d| |]; simpl; try done.
    destruct (RecordAccess rep f) as [rep1| |] eqn:Hacc; simpl; try done.
    intros [= <- <-]. eapply install_inv; try done.
    intros pid g [[-> ->]|Hg]%emplace_lookup_Some; [by left|right].
    case_decide; [|done]. by apply lookup_delete_Some in Hg as [_ ?].
  - destruct (select_frame_None b fl rep (inv_replacer b Hinv) Hsel)
      as (Hfl & -> & -> & _).
    intros [= <- <-]. rewrite <- Hfl. by rewrite same_pool.
Qed.

Lemma FetchPage_inv (b : BufferPoolManager Disk) page_id res b' :
  bpm_inv b -> current_timestamp_ (replacer_ b) + 1 < 2 ^ 64 ->
  FetchPage iter INVALID_PAGE_ID disk_write disk_read b page_id
  = Done (res, b') ->
  bpm_inv b'.
Proof.
  intros Hinv Hts. unfold FetchPage.
  destruct (page_table_ b !! page_id) as [f|].
  { destruct (frame_at (pages_ b) f); [by intros [= <- <-]|done]. }
  destruct (select_frame iter b) as [[[f|] fl] rep] eqn:Hsel.
  - destruct (frame_at (pages_ b) f) as [p|] eqn:Hp; [|done].
    destruct (write_back _ _ p _) as [d| |]; simpl; try done.
    destruct (Schedule _ _ _ d) as [[d' ok] buf].
    destruct ok; simpl; [|done].
    destruct (RecordAccess rep f) as [rep1| |] eqn:Hacc; simpl; try done.
    intros [= <- <-]. eapply install_inv; try done.
    intros pid g [[-> ->]|Hg]%emplace_lookup_Some; [by left|right].
    case_decide; [|done]. by apply lookup_delete_Some in Hg as [_ ?].
  - destruct (select_frame_None b fl rep (inv_replacer b Hinv) Hsel)
      as (Hfl & -> & -> & _).
    intros [= <- <-]. rewrite <- Hfl. by rewrite same_pool.
Qed.

Lemma UnpinPage_inv (b : BufferPoolManager Disk) page_id is_dirty res b' :
  bpm_inv b -> UnpinPage b page_id is_dirty = Done (res, b') -> bpm_inv b'.
Proof.
  intros Hinv. unfold UnpinPage.
  destruct (page_table_ b !! page_id) as [f|] eqn:Hpt; [|by intros [= <- <-]].
  destruct (frame_at (pages_ b) f) as [p|] eqn:Hp; [|done].
  apply frame_at_Some in Hp as [Hf0 Hp].
  destruct (inv_table b Hinv page_id f Hpt) as [Hf Hwhere].
  assert (Hpin : pin_count_ (if is_dirty
                    then {| data_ := data_ p; page_id_ := page_id_ p;
                            pin_count_ := pin_count_ p; is_dirty_ := true |}
                    else p) = pin_count_ p) by by destruct is_dirty.
  rewrite !Hpin.
  destruct (Z.ltb_spec 0 (pin_count_ p)) as [Hpos|Hnpos]; intros [= <- <-].
  - split; simpl.
    + unfold set_frame. rewrite length_insert. apply (inv_size b Hinv).
    + destruct (_ =? 0); [apply SetEvictable_wf|]; apply (inv_replacer b Hinv).
    + intros g Hg. by apply is_frame_set_frame, (inv_free b Hinv).
    + intros g n Hg. apply is_frame_set_frame.
      assert (is_Some (node_store_ (replacer_ b) !! g)) as [m Hm].
      { destruct (_ =? 0); [|by eexists].
        apply (SetEvictable_tracked_inv _ f true). by eexists. }
      by apply (inv_tracked b Hinv g m).
    + intros pid g Hg. destruct (inv_table b Hinv pid g Hg) as [? Hw].
      split; [by apply is_frame_set_frame|].
      destruct Hw as [?|?]; [by left|right].
      destruct (_ =? 0); [|done]. by apply SetEvictable_tracked.
    + intros i q [(_ & <- & _)|[_ Hq]]%list_lookup_insert_Some; simpl; [lia|].
      by apply (inv_pins b Hinv i).
    + intros i q [(Hi & <- & _)|[Hi Hq]]%list_lookup_insert_Some Hz; simpl in *.
      * rewrite <- Hi, Z2Nat.id by done.
        destruct Hwhere as [?|[n Hn]]; [by left|right].
        destruct (Z.eqb_spec (pin_count_ p - 1) 0); [|lia].
        eexists. split; [by apply SetEvictable_lookup|done].
      * destruct (inv_unpinned b Hinv i q Hq Hz) as [?|(n & Hn & He)]; [by left|].
        right. exists n. split; [|done].
        destruct (_ =? 0); [|done]. rewrite SetEvictable_lookup_ne; [done|lia].
  - split; simpl.
    + unfold set_frame. rewrite length_insert. apply (inv_size b Hinv).
    + apply (inv_replacer b Hinv).
    + intros g Hg. by apply is_frame_set_frame, (inv_free b Hinv).
    + intros g n Hg. by apply is_frame_set_frame, (inv_tracked b Hinv g n).
    + intros pid g Hg. destruct (inv_table b Hinv pid g Hg) as [? Hw].
      split; [by apply is_frame_set_frame|done].
    + intros i q [(_ & <- & _)|[_ Hq]]%list_lookup_insert_Some.
      * rewrite Hpin. by apply (inv_pins b Hinv (Z.to_nat f)).
      * by apply (inv_pins b Hinv i).
    + intros i q [(Hi & <- & _)|[Hi Hq]]%list_lookup_insert_Some Hz.
      * rewrite Hpin in Hz. rewrite <- Hi.
        by apply (inv_unpinned b Hinv (Z.to_nat f) p).
      * by apply (inv_unpinned b Hinv i q).
Qed.

Lemma flush_frame_inv (b : BufferPoolManager Disk) f b' :
  bpm_inv b -> flush_frame disk_write disk_read b f = Done b' -> bpm_inv b'.
Proof.
  intros Hinv. unfold flush_frame.
  destruct (frame_at (pages_ b) f) as [p|] eqn:Hp; [|done].
  apply frame_at_Some in Hp as [Hf0 Hp].
  destruct (Schedule _ _ _ _) as [[d ok] buf]. destruct ok; simpl; [|done].
  intros [= <-]. split; simpl.
  - unfold set_frame. rewrite length_insert. apply (inv_size b Hinv).
  - apply (inv_replacer b Hinv).
  - intros g Hg. by apply is_frame_set_frame, (inv_free b Hinv).
  - intros g n Hg. by apply is_frame_set_frame, (inv_tracked b Hinv g n).
  - intros pid g Hg. destruct (inv_table b Hinv pid g Hg) as [? Hw].
    split; [by apply is_frame_set_frame|done].
  - intros i q [(_ & <- & _)|[_ Hq]]%list_lookup_insert_Some; simpl.
    + by apply (inv_pins b Hinv (Z.to_nat f)).
    + by apply (inv_pins b Hinv i).
  - intros i q [(Hi & <- & _)|[Hi Hq]]%list_lookup_insert_Some Hz; simpl in *.
    + rewrite <- Hi. by apply (inv_unpinned b Hinv (Z.to_nat f) p).
    + by apply (inv_unpinned b Hinv i q).
Qed.

Lemma FlushPage_inv (b : BufferPoolManager Disk) page_id res b' :
  bpm_inv b ->
  FlushPage disk_write disk_read b page_id = Done (res, b') -> bpm_inv b'.
Proof.
  intros Hinv. unfold FlushPage.
  destruct (page_table_ b !! page_id) as [f|]; [|by intros [= <- <-]].
  destruct (flush_frame _ _ b f) as [b1| |] eqn:E; simpl; try done.
  intros [= <- <-]. by eapply flush_frame_inv.
Qed.

Lemma FlushAllPages_inv (b : BufferPoolManager Disk) b' :
  bpm_inv b -> FlushAllPages disk_write disk_read b = Done b' -> bpm_inv b'.
Proof.
  unfold FlushAllPages. generalize (seqZ 0 (pool_size_ b)). intros l.
  revert b. induction l as [|i l IH]; intros b Hinv; simpl.
  - by intros [= <-].
  - destruct (flush_frame disk_write disk_read b i) as [b1| |] eqn:E.
    + apply IH. by eapply flush_frame_inv.
    + clear. induction l; simpl; [done|]. done.
    + clear. induction l; simpl; [done|]. done.
Qed.

Lemma DeletePage_inv (b : BufferPoolManager Disk) page_id res b' :
  bpm_inv b ->
  DeletePage INVALID_PAGE_ID b page_id = Done (res, b') -> bpm_inv b'.
Proof.
  intros Hinv. unfold DeletePage.
  destruct (page_table_ b !! page_id) as [f|] eqn:Hpt; [|by intros [= <- <-]].
  destruct (frame_at (pages_ b) f) as [p|] eqn:Hp; [|done].
  apply frame_at_Some in Hp as [Hf0 Hp].
  destruct (inv_table b Hinv page_id f Hpt) as [Hf Hwhere].
  destruct (0 <? pin_count_ p); intros [= <- <-]; [done|].
  split; simpl.
  - unfold set_frame. rewrite length_insert. apply (inv_size b Hinv).
  - apply Remove_wf, (inv_replacer b Hinv).
  - intros g [Hg| ->%list_elem_of_singleton]%elem_of_app;
      apply is_frame_set_frame; [|done].
    by apply (inv_free b Hinv).
  - intros g n Hg. apply is_frame_set_frame.
    assert (is_Some (node_store_ (replacer_ b) !! g)) as [m Hm]
      by (apply (Remove_tracked_inv _ f); by eexists).
    by apply (inv_tracked b Hinv g m).
  - intros pid g [_ Hg]%lookup_delete_Some.
    destruct (inv_table b Hinv pid g Hg) as [? Hw].
    split; [by apply is_frame_set_frame|].
    destruct Hw as [?|?].
    + left. set_solver.
    + destruct (decide (g = f)) as [->|Hne]; [left; set_solver|right].
      by rewrite Remove_lookup_ne.
  - intros i q [(_ & <- & _)|[_ Hq]]%list_lookup_insert_Some; simpl.
    + by apply (inv_pins b Hinv (Z.to_nat f)).
    + by apply (inv_pins b Hinv i).
  - intros i q [(Hi & <- & _)|[Hi Hq]]%list_lookup_insert_Some Hz; simpl in *.
    + left. rewrite <- Hi, Z2Nat.id by done. set_solver.
    + destruct (inv_unpinned b Hinv i q Hq Hz) as [?|(n & Hn & He)].
      * left. set_solver.
      * right. exists n. split; [|done]. rewrite Remove_lookup_ne; [done|lia].
Qed.

Lemma new_inv pool_size replacer_k blank (d : Disk) :
  0 <= pool_size < 2 ^ 31 -> 1 <= replacer_k < 2 ^ 64 ->
  bpm_inv (new INVALID_PAGE_ID pool_size replacer_k blank d).
Proof.
  intros Hn Hk. split; simpl.
  - rewrite length_replicate. lia.
  - by apply new_wf.
  - intros f (z & -> & Hz%elem_of_seqZ)%list_elem_of_fmap.
    rewrite to_int_small by (unfold is_int32; lia).
    split; [unfold is_int32; lia|].
    unfold frame_at. rewrite decide_True by lia.
    apply lookup_lt_is_Some. rewrite length_replicate. lia.
  - intros f n. by rewrite lookup_empty.
  - intros pid f. by rewrite lookup_empty.
  - intros i p [-> _]%lookup_replicate. done.
  - intros i p [-> Hi]%lookup_replicate _. left.
    apply list_elem_of_fmap. exists (Z.of_nat i). split.
    + rewrite to_int_small; [done|]. unfold is_int32. lia.
    + apply elem_of_seqZ. lia.
Qed.

(** *** No operation leaves the frame array

    In a state that satisfies the invariant no operation indexes [pages_]
    out of its bounds. *)

Lemma write_back_defined p (d : Disk) :
  write_back disk_write disk_read p d <> Undefined.
Proof.
  unfold write_back. destruct (is_dirty_ p); [|done].
  destruct (Schedule _ _ _ _) as [[d' ok] buf]. by destruct ok.
Qed.

Lemma NewPage_defined (b : BufferPoolManager Disk) :
  bpm_inv b ->
  NewPage iter INVALID_PAGE_ID disk_write disk_read b <> Undefined.
Proof.
  intros Hinv. unfold NewPage.
  destruct (select_frame iter b) as [[[f|] fl] rep] eqn:Hsel; [|done].
  destruct (select_frame_Some b f fl rep Hinv Hsel) as (_ & _ & [_ [p Hp]] & _).
  rewrite Hp.
  pose proof (write_back_defined p (disk_scheduler_ b)).
  destruct (write_back _ _ p _); simpl; try done.
  pose proof (RecordAccess_defined rep f).
  by destruct (RecordAccess rep f).
Qed.

Lemma FetchPage_defined (b : BufferPoolManager Disk) page_id :
  bpm_inv b ->
  FetchPage iter INVALID_PAGE_ID disk_write disk_read b page_id <> Undefined.
Proof.
  intros Hinv. unfold FetchPage.
  destruct (page_table_ b !! page_id) as [f0|] eqn:Hpt.
  { destruct (inv_table b Hinv page_id f0 Hpt) as [[_ [p0 Hp0]] _].
    by rewrite Hp0. }
  destruct (select_frame iter b) as [[[f|] fl] rep] eqn:Hsel; [|done].
  destruct (select_frame_Some b f fl rep Hinv Hsel) as (_ & _ & [_ [p Hp]] & _).
  rewrite Hp.
  pose proof (write_back_defined p (disk_scheduler_ b)).
  destruct (write_back _ _ p _) as [d| |]; simpl; try done.
  destruct (Schedule _ _ _ d) as [[d' ok] buf]. destruct ok; simpl; [|done].
  pose proof (RecordAccess_defined rep f).
  by destruct (RecordAccess rep f).
Qed.

Lemma UnpinPage_defined (b : BufferPoolManager Disk) page_id is_dirty :
  bpm_inv b -> UnpinPage b page_id is_dirty <> Undefined.
Proof.
  intros Hinv. unfold UnpinPage.
  destruct (page_table_ b !! page_id) as [f|] eqn:Hpt; [|done].
  destruct (inv_table b Hinv page_id f Hpt) as [[_ [p Hp]] _]. rewrite Hp.
  by destruct (0 <? _).
Qed.

Lemma flush_frame_defined (b : BufferPoolManager Disk) f :
  is_Some (frame_at (pages_ b) f) ->
  flush_frame disk_write disk_read b f <> Undefined.
Proof.
  intros [p Hp]. unfold flush_frame. rewrite Hp.
  destruct (Schedule _ _ _ _) as [[d ok] buf]. by destruct ok.
Qed.

Lemma FlushPage_defined (b : BufferPoolManager Disk) page_id :
  bpm_inv b -> FlushPage disk_write disk_read b page_id <> Undefined.
Proof.
  intros Hinv. unfold FlushPage.
  destruct (page_table_ b !! page_id) as [f|] eqn:Hpt; [|done].
  destruct (inv_table b Hinv page_id f Hpt) as [[_ Hf] _].
  pose proof (flush_frame_defined b f Hf).
  by destruct (flush_frame _ _ b f).
Qed.

Lemma flush_frame_frames (b : BufferPoolManager Disk) f b' i :
  flush_frame disk_write disk_read b f = Done b' ->
  is_Some (frame_at (pages_ b) i) -> is_Some (frame_at (pages_ b') i).
Proof.
  unfold flush_frame. destruct (frame_at (pages_ b) f); [|done].
  destruct (Schedule _ _ _ _) as [[d ok] buf]. destruct ok; simpl; [|done].
  intros [= <-]. simpl. unfold frame_at, set_frame. case_decide; [|done].
  by rewrite !lookup_lt_is_Some, length_insert.
Qed.

Lemma flush_fold_defined l : forall b : BufferPoolManager Disk,
  (forall i, i ∈ l -> is_Some (frame_at (pages_ b) i)) ->
  fold_left (fun acc i => let! b' := acc in
                          flush_frame disk_write disk_read b' i)
            l (Done b) <> Undefined.
Proof.
  induction l as [|i l IH]; intros b Hl; simpl; [done|].
  pose proof (flush_frame_defined b i ltac:(apply Hl; set_solver)).
  destruct (flush_frame disk_write disk_read b i) as [b1| |] eqn:E; [| |done].
  - apply IH. intros j Hj. eapply flush_frame_frames; [exact E|].
    apply Hl. set_solver.
  - clear. induction l; simpl; done.
Qed.

Lemma FlushAllPages_defined (b : BufferPoolManager Disk) :
  bpm_inv b -> FlushAllPages disk_write disk_read b <> Undefined.
Proof.
  intros Hinv. unfold FlushAllPages. apply flush_fold_defined.
  intros i Hi%elem_of_seqZ. unfold frame_at.
  rewrite decide_True by lia. apply lookup_lt_is_Some.
  pose proof (inv_size b Hinv). lia.
Qed.

Lemma DeletePage_defined (b : BufferPoolManager Disk) page_id :
  bpm_inv b -> DeletePage INVALID_PAGE_ID b page_id <> Undefined.
Proof.
  intros Hinv. unfold DeletePage.
  destruct (page_table_ b !! page_id) as [f|] eqn:Hpt; [|done].
  destruct (inv_table b Hinv page_id f Hpt) as [[_ [p Hp]] _]. rewrite Hp.
  by destruct (0 <? _).
Qed.

Lemma reachable_pool_inv (b : BufferPoolManager Disk) :
  reachable_pool iter INVALID_PAGE_ID disk_write disk_read b -> bpm_inv b.
Proof.
  induction 1.
  - by apply new_inv.
  - by eapply NewPage_inv.
  - by eapply FetchPage_inv.
  - by eapply UnpinPage_inv.
  - by eapply FlushPage_inv.
  - by eapply FlushAllPages_inv.
  - by eapply DeletePage_inv.
Qed.

(** *** Pinned frames are tracked

    A frame gets a positive pin count only where [NewPage] or [FetchPage]
    installs a page in it, which records an access and clears the evictable
    flag; the node stays until the pin count is back at 0. *)

Lemma install_pinned (b : BufferPoolManager Disk) f fl rep rep1 q pt npid
  (d : Disk) :
  bpm_inv b -> pinned_tracked b ->
  select_frame iter b = (Some f, fl, rep) ->
  RecordAccess rep f = Done rep1 ->
  pinned_tracked
    {| pool_size_ := pool_size_ b; pages_ := set_frame (pages_ b) f q;
       page_table_ := pt; free_list_ := fl;
       replacer_ := SetEvictable rep1 f false;
       next_page_id_ := npid; disk_scheduler_ := d |}.
Proof.
  intros Hinv Hpt Hsel Hacc g pg Hg Hpos. cbn [pages_ replacer_] in *.
  destruct (select_frame_Some b f fl rep Hinv Hsel)
    as (_ & _ & [_ [p0 [Hf0 _]%frame_at_Some]] & _ & _ & Hst).
  destruct (decide (g = f)) as [->|Hne].
  - destruct (RecordAccess_tracked rep f rep1 Hacc) as [n Hn].
    eexists. split; [by apply SetEvictable_lookup|done].
  - rewrite frame_at_set_frame_ne in Hg by done.
    destruct (Hpt g pg Hg Hpos) as (n & Hn & He). exists n. split; [|done].
    rewrite SetEvictable_lookup_ne by done.
    rewrite (RecordAccess_lookup_ne rep f rep1) by done. by rewrite Hst.
Qed.

Lemma NewPage_pinned (b : BufferPoolManager Disk) res b' :
  bpm_inv b -> pinned_tracked b ->
  NewPage iter INVALID_PAGE_ID disk_write disk_read b = Done (res, b') ->
  pinned_tracked b'.
Proof.
  intros Hinv Hpt. unfold NewPage.
  destruct (select_frame iter b) as [[[f|] fl] rep] eqn:Hsel.
  - destruct (frame_at (pages_ b) f) as [p|] eqn:Hp; [|done].
    destruct (write_back _ _ p _) as [d| |]; simpl; try done.
    destruct (RecordAccess rep f) as [rep1| |] eqn:Hacc; simpl; try done.
    intros [= <- <-]. by eapply install_pinned.
  - destruct (select_frame_None b fl rep (inv_replacer b Hinv) Hsel)
      as (Hfl & -> & -> & _).
    intros [= <- <-]. rewrite <- Hfl. by rewrite same_pool.
Qed.

Lemma FetchPage_pinned (b : BufferPoolManager Disk) page_id res b' :
  bpm_inv b -> pinned_tracked b ->
  FetchPage iter INVALID_PAGE_ID disk_write disk_read b page_id
  = Done (res, b') ->
  pinned_tracked b'.
Proof.
  intros Hinv Hpt. unfold FetchPage.
  destruct (page_table_ b !! page_id) as [f|].
  { destruct (frame_at (pages_ b) f); [by intros [= <- <-]|done]. }
  destruct (select_frame iter b) as [[[f|] fl] rep] eqn:Hsel.
  - destruct (frame_at (pages_ b) f) as [p|] eqn:Hp; [|done].
    destruct (write_back _ _ p _) as [d| |]; simpl; try done.
    destruct (Schedule _ _ _ d) as [[d' ok] buf].
    destruct ok; simpl; [|done].
    destruct (RecordAccess rep f) as [rep1| |] eqn:Hacc; simpl; try done.
    intros [= <- <-]. by eapply install_pinned.
  - destruct (select_frame_None b fl rep (inv_replacer b Hinv) Hsel)
      as (Hfl & -> & -> & _).
    intros [= <- <-]. rewrite <- Hfl. by rewrite same_pool.
Qed.

Lemma UnpinPage_pinned (b : BufferPoolManager Disk) page_id is_dirty res b' :
  pinned_tracked b ->
  UnpinPage b page_id is_dirty = Done (res, b') -> pinned_tracked b'.
Proof.
  intros Hpt. unfold UnpinPage.
  destruct (page_table_ b !! page_id) as [f|]; [|by intros [= <- <-]].
  destruct (frame_at (pages_ b) f) as [p|] eqn:Hp; [|done].
  pose proof Hp as [Hf0 _]%frame_at_Some.
  assert (Hpin : pin_count_ (if is_dirty
                    then {| data_ := data_ p; page_id_ := page_id_ p;
                            pin_count_ := pin_count_ p; is_dirty_ := true |}
                    else p) = pin_count_ p) by by destruct is_dirty.
  rewrite !Hpin.
  destruct (Z.ltb_spec 0 (pin_count_ p)) as [Hpos|Hnpos]; intros [= <- <-];
    intros g pg Hg Hgpos; cbn [pages_ replacer_] in *.
  - destruct (decide (g = f)) as [->|Hne].
    + rewrite (frame_at_set_frame _ _ p) in Hg by done.
      injection Hg as <-. cbn [pin_count_] in *.
      destruct (Z.eqb_spec (pin_count_ p - 1) 0) as [?|Hnz]; [lia|].
      by apply (Hpt f p).
    + rewrite frame_at_set_frame_ne in Hg by done.
      destruct (Hpt g pg Hg Hgpos) as (n & Hn & He). exists n. split; [|done].
      destruct (_ =? 0); [|done]. by rewrite SetEvictable_lookup_ne.
  - destruct (decide (g = f)) as [->|Hne].
    + rewrite (frame_at_set_frame _ _ p) in Hg by done.
      injection Hg as <-. lia.
    + rewrite frame_at_set_frame_ne in Hg by done. by apply (Hpt g pg).
Qed.

Lemma flush_frame_pinned (b : BufferPoolManager Disk) f b' :
  pinned_tracked b ->
  flush_frame disk_write disk_read b f = Done b' -> pinned_tracked b'.
Proof.
  intros Hpt. unfold flush_frame.
  destruct (frame_at (pages_ b) f) as [p|] eqn:Hp; [|done].
  pose proof Hp as [Hf0 _]%frame_at_Some.
  destruct (Schedule _ _ _ _) as [[d ok] buf]. destruct ok; simpl; [|done].
  intros [= <-] g pg Hg Hgpos. cbn [pages_ replacer_] in *.
  destruct (decide (g = f)) as [->|Hne].
  - rewrite (frame_at_set_frame _ _ p) in Hg by done.
    injection Hg as <-. by apply (Hpt f p).
  - rewrite frame_at_set_frame_ne in Hg by done. by apply (Hpt g pg).
Qed.

Lemma FlushAllPages_pinned (b : BufferPoolManager Disk) b' :
  pinned_tracked b ->
  FlushAllPages disk_write disk_read b = Done b' -> pinned_tracked b'.
Proof.
  unfold FlushAllPages. generalize (seqZ 0 (pool_size_ b)). intros l.
  revert b. induction l as [|i l IH]; intros b Hpt; simpl.
  - by intros [= <-].
  - destruct (flush_frame disk_write disk_read b i) as [b1| |] eqn:E.
    + apply IH. by eapply flush_frame_pinned.
    + clear. induction l; simpl; [done|]. done.
    + clear. induction l; simpl; [done|]. done.
Qed.

Lemma DeletePage_pinned (b : BufferPoolManager Disk) page_id res b' :
  pinned_tracked b ->
  DeletePage INVALID_PAGE_ID b page_id = Done (res, b') -> pinned_tracked b'.
Proof.
  intros Hpt. unfold DeletePage.
  destruct (page_table_ b !! page_id) as [f|]; [|by intros [= <- <-]].
  destruct (frame_at (pages_ b) f) as [p|] eqn:Hp; [|done].
  pose proof Hp as [Hf0 _]%frame_at_Some.
  destruct (Z.ltb_spec 0 (pin_count_ p)); intros [= <- <-]; [done|].
  intros g pg Hg Hgpos. cbn [pages_ replacer_] in *.
  destruct (decide (g = f)) as [->|Hne].
  - rewrite (frame_at_set_frame _ _ p) in Hg by done.
    injection Hg as <-. cbn [pin_count_] in *. lia.
  - rewrite frame_at_set_frame_ne in Hg by done.
    destruct (Hpt g pg Hg Hgpos) as (n & Hn & He). exists n. split; [|done].
    by rewrite Remove_lookup_ne.
Qed.

(** In every state a client can bring the pool into, a frame with a
    positive pin count is tracked by the replacer and not evictable. *)
Lemma reachable_pool_pinned_tracked (b : BufferPoolManager Disk) :
  reachable_pool iter INVALID_PAGE_ID disk_write disk_read b ->
  pinned_tracked b.
Proof.
  induction 1 as [pool_size replacer_k blank d| | | | | |].
  - intros f p [_ [-> _]%lookup_replicate]%frame_at_Some. simpl. lia.
  - eapply NewPage_pinned; [|done..]. by apply reachable_pool_inv.
  - eapply FetchPage_pinned; [|done..]. by apply reachable_pool_inv.
  - by eapply UnpinPage_pinned.
  - unfold FlushPage in *. destruct (page_table_ b !! page_id); [|by simplify_eq].
    destruct (flush_frame _ _ b z) as [b1| |] eqn:E; simpl in *; try done.
    simplify_eq. by eapply flush_frame_pinned.
  - by eapply FlushAllPages_pinned.
  - by eapply DeletePage_pinned.
Qed.

(** A page-table hit of [FetchPage], in general: when the page table names
    a frame of the frame array, the frame is returned and the pool is left
    exactly as it was. *)
Lemma FetchPage_hit (b : BufferPoolManager Disk) page_id f :
  page_table_ b !! page_id = Some f ->
  is_Some (frame_at (pages_ b) f) ->
  FetchPage iter INVALID_PAGE_ID disk_write disk_read b page_id
  = Done (Some f, b).
Proof. intros H [p Hp]. unfold FetchPage. by rewrite H, Hp. Qed.

(** C5.  When [NewPage] returns null, the free list was empty, no frame
    tracked by the replacer was evictable and every frame of the pool had a
    positive pin count; no page identifier has been allocated, and the pool
    (page table, free list, frames, replacer, disk) is what it was. *)
Theorem NewPage_null_only_when_all_frames_pinned (b b' : BufferPoolManager Disk) :
  bpm_inv b ->
  NewPage iter INVALID_PAGE_ID disk_write disk_read b = Done (None, b') ->
  free_list_ b = [] /\
  (forall f n, node_store_ (replacer_ b) !! f = Some n ->
               is_evictable_ n = false) /\
  (forall i p, pages_ b !! i = Some p -> 0 < pin_count_ p) /\
  next_page_id_ b' = next_page_id_ b /\
  b' = b.
Proof.
  intros Hinv. unfold NewPage.
  destruct (select_frame iter b) as [[[f|] fl] rep] eqn:Hsel.
  { destruct (frame_at (pages_ b) f); [|done].
    destruct (write_back _ _ _ _); simpl; try done.
    destruct (RecordAccess rep f); simpl; done. }
  destruct (select_frame_None b fl rep (inv_replacer b Hinv) Hsel)
    as (Hfl & -> & -> & Hnone).
  intros [= <-]. rewrite <- Hfl, same_pool.
  split_and!; try done.
  intros i p Hp. pose proof (inv_pins b Hinv i p Hp) as Hge.
  destruct (decide (pin_count_ p = 0)) as [Hz|]; [|lia]. exfalso.
  destruct (inv_unpinned b Hinv i p Hp Hz) as [Hin|(n & Hn & He)].
  - rewrite Hfl in Hin. by apply elem_of_nil in Hin.
  - rewrite (Hnone _ n Hn) in He. done.
Qed.

(** C7.  [UnpinPage] on a page that is not resident returns false and
    changes nothing.  On a resident page the frame's dirty flag becomes
    [is_dirty || old flag] (set when asked, never cleared); with a pin count
    of 0 the call returns false; otherwise the pin count goes down by one,
    the frame is made evictable in the replacer exactly when the count was 1,
    and the call returns true.  Nothing else changes.  In the replacer, the
    node of the frame has its evictable flag set when the count was 1 and
    is as before otherwise, and no other node changes; where pinned frames
    are tracked and not evictable, as in every pool a client can reach, the
    node of the frame is evictable afterwards exactly when the count was
    1. *)
Theorem UnpinPage_behaviour (b : BufferPoolManager Disk) page_id is_dirty :
  (page_table_ b !! page_id = None ->
   UnpinPage b page_id is_dirty = Done (false, b)) /\
  (forall f p,
     page_table_ b !! page_id = Some f ->
     frame_at (pages_ b) f = Some p ->
     exists b',
       UnpinPage b page_id is_dirty = Done (0 <? pin_count_ p, b') /\
       frame_at (pages_ b') f
       = Some {| data_ := data_ p; page_id_ := page_id_ p;
                 pin_count_ := if 0 <? pin_count_ p then pin_count_ p - 1
                               else pin_count_ p;
                 is_dirty_ := is_dirty || is_dirty_ p |} /\
       (forall g, g <> f -> frame_at (pages_ b') g = frame_at (pages_ b) g) /\
       replacer_ b' = (if pin_count_ p =? 1
                       then SetEvictable (replacer_ b) f true
                       else replacer_ b) /\
       page_table_ b' = page_table_ b /\
       free_list_ b' = free_list_ b /\
       next_page_id_ b' = next_page_id_ b /\
       disk_scheduler_ b' = disk_scheduler_ b /\
       (forall g, g <> f ->
          node_store_ (replacer_ b') !! g = node_store_ (replacer_ b) !! g) /\
       (forall n, node_store_ (replacer_ b) !! f = Some n ->
          node_store_ (replacer_ b') !! f
          = Some {| history_ := history_ n; k_ := k_ n; fid_ := fid_ n;
                    is_evictable_ :=
                      (pin_count_ p =? 1) || is_evictable_ n |}) /\
       (pinned_tracked b -> 0 < pin_count_ p ->
        exists n, node_store_ (replacer_ b') !! f = Some n /\
                  is_evictable_ n = (pin_count_ p =? 1))).
Proof.
  split.
  - intros H. unfold UnpinPage. by rewrite H.
  - intros f p Hpt Hp.
    assert (Hnode : forall n, node_store_ (replacer_ b) !! f = Some n ->
              node_store_ (if pin_count_ p =? 1
                           then SetEvictable (replacer_ b) f true
                           else replacer_ b) !! f
              = Some {| history_ := history_ n; k_ := k_ n; fid_ := fid_ n;
                        is_evictable_ :=
                          (pin_count_ p =? 1) || is_evictable_ n |}).
    { intros n Hn. destruct (pin_count_ p =? 1); simpl.
      - by apply SetEvictable_lookup.
      - rewrite Hn. by destruct n. }
    assert (Hrest : forall g, g <> f ->
              node_store_ (if pin_count_ p =? 1
                           then SetEvictable (replacer_ b) f true
                           else replacer_ b) !! g
              = node_store_ (replacer_ b) !! g).
    { intros g Hg. destruct (pin_count_ p =? 1); [|done].
      by apply SetEvictable_lookup_ne. }
    assert (Hafter : pinned_tracked b -> 0 < pin_count_ p ->
              exists n,
                node_store_ (if pin_count_ p =? 1
                             then SetEvictable (replacer_ b) f true
                             else replacer_ b) !! f = Some n /\
                is_evictable_ n = (pin_count_ p =? 1)).
    { intros Htr Hpos. destruct (Htr f p Hp Hpos) as (n & Hn & He).
      eexists. split; [by apply Hnode|]. simpl. rewrite He.
      by destruct (pin_count_ p =? 1). }
    unfold UnpinPage. rewrite Hpt, Hp.
    pose proof Hp as [Hf0 _]%frame_at_Some.
    assert (Hpin : pin_count_ (if is_dirty
                      then {| data_ := data_ p; page_id_ := page_id_ p;
                              pin_count_ := pin_count_ p; is_dirty_ := true |}
                      else p) = pin_count_ p) by by destruct is_dirty.
    rewrite !Hpin.
    destruct (Z.ltb_spec 0 (pin_count_ p)) as [Hpos|Hnpos];
      eexists; (split; [reflexivity|]); simpl.
    + assert (Hrep : (if pin_count_ p - 1 =? 0
                      then SetEvictable (replacer_ b) f true
                      else replacer_ b)
                     = (if pin_count_ p =? 1
                        then SetEvictable (replacer_ b) f true
                        else replacer_ b)).
      { destruct (Z.eqb_spec (pin_count_ p - 1) 0),
          (Z.eqb_spec (pin_count_ p) 1); (done || lia). }
      rewrite Hrep. split_and!; try done.
      * rewrite (frame_at_set_frame _ _ p) by done. by destruct is_dirty, p.
      * intros g Hg. by apply frame_at_set_frame_ne.
    + assert (Hone : (pin_count_ p =? 1) = false) by (apply Z.eqb_neq; lia).
      rewrite Hone in *. split_and!; try done.
      * rewrite (frame_at_set_frame _ _ p) by done. by destruct is_dirty, p.
      * intros g Hg. by apply frame_at_set_frame_ne.
Qed.

(** C9.  [FlushPage] on a page that is not resident returns false and
    changes nothing.  On a resident page it writes the frame's bytes under
    the frame's page identifier to the disk, whatever the dirty flag is; when
    the write completes the flag is cleared and the call returns true (a
    failed write stops the process).  Nothing else changes. *)
Theorem FlushPage_behaviour (b : BufferPoolManager Disk) page_id :
  (page_table_ b !! page_id = None ->
   FlushPage disk_write disk_read b page_id = Done (false, b)) /\
  (forall f p d ok,
     page_table_ b !! page_id = Some f ->
     frame_at (pages_ b) f = Some p ->
     disk_write (page_id_ p) (data_ p) (disk_scheduler_ b) = (d, ok) ->
     if ok then
       exists b',
         FlushPage disk_write disk_read b page_id = Done (true, b') /\
         disk_scheduler_ b' = d /\
         frame_at (pages_ b') f
         = Some {| data_ := data_ p; page_id_ := page_id_ p;
                   pin_count_ := pin_count_ p; is_dirty_ := false |} /\
         (forall g, g <> f -> frame_at (pages_ b') g = frame_at (pages_ b) g) /\
         replacer_ b' = replacer_ b /\
         page_table_ b' = page_table_ b /\
         free_list_ b' = free_list_ b /\
         next_page_id_ b' = next_page_id_ b
     else FlushPage disk_write disk_read b page_id = Fatal).
Proof.
  split.
  - intros H. unfold FlushPage. by rewrite H.
  - intros f p d ok Hpt Hp Hw. unfold FlushPage, flush_frame, Schedule.
    rewrite Hpt, Hp. simpl. rewrite Hw.
    pose proof Hp as [Hf0 _]%frame_at_Some.
    destruct ok; simpl; [|done].
    eexists. split; [reflexivity|]. simpl. split_and!; try done.
    + by rewrite (frame_at_set_frame _ _ p).
    + intros g Hg. by apply frame_at_set_frame_ne.
Qed.

End Pool.

Lemma pool1_pinned_inv : bpm_inv pool1_pinned.
Proof.
  apply (NewPage_inv map_to_list (fun m => reflexivity _) (-1)
           (list Request.t) log_write log_read pool1 (Some (0, 0))).
  - apply new_inv; lia.
  - simpl. lia.
  - apply pool1_NewPage.
Qed.

Lemma pool1_pinned_full :
  NewPage map_to_list (-1) log_write log_read pool1_pinned
  = Done (None, pool1_pinned).
Proof. vm_compute. reflexivity. Qed.

Lemma NewPage_null_only_when_all_frames_pinned_witness :
  free_list_ pool1_pinned = [] /\
  (forall f n, node_store_ (replacer_ pool1_pinned) !! f = Some n ->
               is_evictable_ n = false) /\
  (forall i p, pages_ pool1_pinned !! i = Some p -> 0 < pin_count_ p) /\
  next_page_id_ pool1_pinned = next_page_id_ pool1_pinned /\
  pool1_pinned = pool1_pinned.
Proof.
  apply (NewPage_null_only_when_all_frames_pinned map_to_list
           (fun m => reflexivity _) (-1) (list Request.t) log_write log_read
           pool1_pinned pool1_pinned).
  - exact pool1_pinned_inv.
  - vm_compute. reflexivity.
Defined.

Lemma pool1_pinned_reachable :
  reachable_pool map_to_list (-1) log_write log_read pool1_pinned.
Proof.
  apply (pool_NewPage map_to_list (-1) (list Request.t) log_write log_read
           pool1 (Some (0, 0))); [|simpl; lia|exact pool1_NewPage].
  unfold pool1. apply pool_new; lia.
Qed.

Lemma UnpinPage_behaviour_witness :
  exists b',
    UnpinPage pool1_pinned 0 true = Done (true, b') /\
    frame_at (pages_ b') 0
    = Some {| data_ := []; page_id_ := 0; pin_count_ := 0;
              is_dirty_ := true |} /\
    replacer_ b' = SetEvictable one_pinned 0 true /\
    exists n, node_store_ (replacer_ b') !! 0 = Some n /\
              is_evictable_ n = true.
Proof.
  destruct (proj2 (UnpinPage_behaviour (list Request.t) pool1_pinned 0 true) 0
              {| data_ := []; page_id_ := 0; pin_count_ := 1;
                 is_dirty_ := false |})
    as (b' & E & Hframe & _ & Hrep & _ & _ & _ & _ & _ & _ & Hafter);
    [reflexivity|reflexivity|].
  exists b'. split; [exact E|]. split; [exact Hframe|]. split; [exact Hrep|].
  apply Hafter.
  - exact (reachable_pool_pinned_tracked map_to_list (fun m => reflexivity _)
             (-1) (list Request.t) log_write log_read pool1_pinned
             pool1_pinned_reachable).
  - simpl. lia.
Defined.

Lemma FlushPage_behaviour_witness :
  exists b',
    FlushPage log_write log_read pool1_pinned 0 = Done (true, b') /\
    disk_scheduler_ b'
    = [{| Request.is_write_ := true; Request.data_ := [];
          Request.page_id_ := 0 |}] /\
    frame_at (pages_ b') 0
    = Some {| data_ := []; page_id_ := 0; pin_count_ := 1;
              is_dirty_ := false |}.
Proof.
  destruct (proj2 (FlushPage_behaviour (list Request.t) log_write log_read
                     pool1_pinned 0) 0
              {| data_ := []; page_id_ := 0; pin_count_ := 1;
                 is_dirty_ := false |}
              [{| Request.is_write_ := true; Request.data_ := [];
                  Request.page_id_ := 0 |}] true)
    as (b' & E & Hd & Hframe & _); [reflexivity|reflexivity|reflexivity|].
  exists b'. split; [exact E|]. split; [exact Hd|exact Hframe].
Defined.

(** C1.  A page-table hit of [FetchPage] returns the frame and does nothing
    else.  In a pool of one frame, after [NewPage] and [UnpinPage] of page 0,
    [FetchPage(0)] hands out frame 0 and leaves the pool as it was: the pin
    count is still 0, the only recorded access is the one of [NewPage], and
    the frame is still evictable, so that the next [NewPage] takes frame 0
    for page 1. *)
Theorem FetchPage_hit_neither_pins_nor_records :
  NewPage map_to_list (-1) log_write log_read pool1
  = Done (Some (0, 0), pool1_pinned) /\
  UnpinPage pool1_pinned 0 false = Done (true, pool1_unpinned) /\
  FetchPage map_to_list (-1) log_write log_read pool1_unpinned 0
  = Done (Some 0, pool1_unpinned) /\
  pin_count_ <$> frame_at (pages_ pool1_unpinned) 0 = Some 0 /\
  node_store_ (replacer_ pool1_unpinned) !! 0 = Some (node_of 0 [0] true) /\
  exists b,
    NewPage map_to_list (-1) log_write log_read pool1_unpinned
    = Done (Some (1, 0), b).
Proof.
  split; [exact pool1_NewPage|]. split; [exact pool1_UnpinPage|].
  split; [by apply FetchPage_hit; [|eexists]|]. split; [done|]. split; [done|].
  eexists. vm_compute. reflexivity.
Qed.

End BPMFacts.

(** * Properties of the immutable trie *)

Module TrieFacts.

Import Trie.

Local Open Scope nat_scope.

(** *** The heap primitives *)

Lemma children_set_children ch n : children_ (set_children ch n) = ch.
Proof. by destruct n. Qed.

Lemma is_value_node_set_children ch n :
  is_value_node_ (set_children ch n) = is_value_node_ n.
Proof. by destruct n. Qed.

Lemma length_assign_children h p ch :
  length (assign_children h p ch) = length h.
Proof. unfold assign_children. apply length_insert. Qed.

Lemma assign_children_total_eq h p ch :
  p < length h ->
  assign_children h p ch !!! p = set_children ch (h !!! p).
Proof. intros. unfold assign_children. by apply list_lookup_total_insert_eq. Qed.

Lemma assign_children_total_ne h p ch q :
  p <> q -> assign_children h p ch !!! q = h !!! q.
Proof. intros. unfold assign_children. by apply list_lookup_total_insert_ne. Qed.

Lemma assign_children_lookup_ne h p ch q :
  p <> q -> assign_children h p ch !! q = h !! q.
Proof. intros. unfold assign_children. by apply list_lookup_insert_ne. Qed.

Lemma alloc_total_new (h : list TrieNode) n : (h ++ [n]) !!! length h = n.
Proof. by apply list_lookup_total_middle. Qed.

Lemma alloc_total_old (h : list TrieNode) n p :
  p < length h -> (h ++ [n]) !!! p = h !!! p.
Proof. intros. by apply lookup_total_app_l. Qed.

Lemma alloc_lookup_old (h : list TrieNode) n p :
  p < length h -> (h ++ [n]) !! p = h !! p.
Proof. intros. by apply lookup_app_l. Qed.

Lemma set_child_total_eq h p c q :
  p < length h ->
  set_child h p c q !!! p
  = set_children (<[c := q]> (children_ (h !!! p))) (h !!! p).
Proof. intros. unfold set_child. by apply assign_children_total_eq. Qed.

Lemma erase_child_total_eq h p c :
  p < length h ->
  erase_child h p c !!! p
  = set_children (delete c (children_ (h !!! p))) (h !!! p).
Proof. intros. unfold erase_child. by apply assign_children_total_eq. Qed.

(** *** Heaps that keep their old nodes *)

Lemma unchanged_refl k h : unchanged_below k h h.
Proof. by split. Qed.

Lemma unchanged_trans k h1 h2 h3 :
  unchanged_below k h1 h2 -> unchanged_below k h2 h3 -> unchanged_below k h1 h3.
Proof.
  intros [L1 H1] [L2 H2]. split; [lia|].
  intros p Hp. by rewrite H2, H1.
Qed.

Lemma unchanged_alloc k (h : list TrieNode) n :
  k <= length h -> unchanged_below k h (h ++ [n]).
Proof.
  intros Hk. split; [rewrite length_app; simpl; lia|].
  intros p Hp. apply alloc_lookup_old. lia.
Qed.

Lemma unchanged_assign k h p ch :
  k <= p -> unchanged_below k h (assign_children h p ch).
Proof.
  intros Hk. split; [by rewrite length_assign_children|].
  intros q Hq. apply assign_children_lookup_ne. lia.
Qed.

Lemma unchanged_weaken k k' h h' :
  k' <= k -> unchanged_below k h h' -> unchanged_below k' h h'.
Proof. intros Hk [L H]. split; [done|]. intros p Hp. apply H. lia. Qed.

Lemma unchanged_total k h h' p :
  unchanged_below k h h' -> p < k -> h' !!! p = h !!! p.
Proof.
  intros [_ H] Hp. by rewrite !list_lookup_total_alt, H.
Qed.

(** *** [Get] *)

Lemma Get_walk_None h key : Get_walk h None key = None.
Proof. by destruct key. Qed.

Lemma Get_walk_app h key1 : forall curr key2,
  Get_walk h curr (key1 ++ key2) = Get_walk h (Get_walk h curr key1) key2.
Proof.
  induction key1 as [|c key1 IH]; intros curr key2; simpl; [done|].
  destruct curr as [p|]; [apply IH|]. by rewrite Get_walk_None.
Qed.

(** *** [Put] *)

(** The node a step of the loop of [Put] allocates for byte [c]. *)
Lemma Put_loop_step h curr c c' key v :
  Put_loop h curr (c :: c' :: key) v
  = Put_loop
      (set_child
         (h ++ [match children_ (h !!! curr) !! c with
                | Some n => Clone (h !!! n)
                | None => Node ∅
                end]) curr c (length h))
      (length h) (c' :: key) v.
Proof. simpl. by destruct (children_ (h !!! curr) !! c). Qed.

Lemma Put_loop_last h curr c v :
  Put_loop h curr [c] v
  = let h1 := h ++ [NodeWithValue (type_of v) ∅ (Some (moved v))] in
    let nv := length h in
    match children_ (h1 !!! curr) !! c with
    | Some n =>
        set_child (if decide (children_ (h1 !!! n) = ∅) then h1
                   else assign_children h1 nv (children_ (h1 !!! n)))
                  curr c nv
    | None => set_child h1 curr c nv
    end.
Proof. reflexivity. Qed.

(** The loop of [Put], started on the node allocated last: older nodes are
    left alone, and the path of the key from [curr] ends in a node that
    holds [v]. *)
Lemma Put_loop_spec key v : key <> [] -> forall h curr,
  length h = S curr ->
  unchanged_below curr h (Put_loop h curr key v) /\
  exists l ch,
    Get_walk (Put_loop h curr key v) (Some curr) key = Some l /\
    Put_loop h curr key v !!! l
    = NodeWithValue (type_of v) ch (Some (moved v)).
Proof.
  induction key as [|c key IH]; [done|]. intros _ h curr Hlen.
  destruct key as [|c' key].
  - rewrite Put_loop_last. cbv zeta.
    set (h1 := h ++ [NodeWithValue (type_of v) ∅ (Some (moved v))]).
    assert (Hl1 : length h1 = S (length h))
      by (unfold h1; rewrite length_app; simpl; lia).
    assert (U1 : unchanged_below curr h h1) by (apply unchanged_alloc; lia).
    assert (Hnv : h1 !!! length h
                  = NodeWithValue (type_of v) ∅ (Some (moved v)))
      by apply alloc_total_new.
    destruct (children_ (h1 !!! curr) !! c) as [n|].
    + set (h2 := if decide (children_ (h1 !!! n) = ∅) then h1
                 else assign_children h1 (length h) (children_ (h1 !!! n))).
      assert (Hl2 : length h2 = length h1)
        by (unfold h2; case_decide; [done|apply length_assign_children]).
      assert (U2 : unchanged_below curr h1 h2).
      { unfold h2. case_decide; [apply unchanged_refl|].
        apply unchanged_assign. lia. }
      assert (exists ch, h2 !!! length h
                         = NodeWithValue (type_of v) ch (Some (moved v)))
        as [ch Hnv2].
      { unfold h2. case_decide; [by eexists|].
        rewrite assign_children_total_eq by lia. rewrite Hnv. by eexists. }
      split.
      * eapply unchanged_trans; [exact U1|].
        eapply unchanged_trans; [exact U2|]. by apply unchanged_assign.
      * exists (length h), ch. simpl.
        rewrite set_child_total_eq by lia.
        rewrite children_set_children, lookup_insert_eq. split; [done|].
        unfold set_child. rewrite assign_children_total_ne by lia. done.
    + split.
      * eapply unchanged_trans; [exact U1|]. by apply unchanged_assign.
      * exists (length h), ∅. simpl.
        rewrite set_child_total_eq by lia.
        rewrite children_set_children, lookup_insert_eq. split; [done|].
        unfold set_child. rewrite assign_children_total_ne by lia. done.
  - rewrite Put_loop_step.
    set (x := match children_ (h !!! curr) !! c with
              | Some n => Clone (h !!! n)
              | None => Node ∅
              end).
    set (h2 := set_child (h ++ [x]) curr c (length h)).
    assert (Hl2 : length h2 = S (length h)).
    { unfold h2, set_child. rewrite length_assign_children, length_app.
      simpl. lia. }
    assert (U2 : unchanged_below curr h h2).
    { eapply unchanged_trans; [apply (unchanged_alloc curr h x); lia|].
      by apply unchanged_assign. }
    destruct (IH ltac:(done) h2 (length h) Hl2) as (U & l & ch & Hwalk & Hl).
    split.
    + eapply unchanged_trans; [exact U2|].
      eapply unchanged_weaken; [|exact U]. lia.
    + exists l, ch. split; [|done].
      change (Get_walk ?h (Some curr) (c :: ?k))
        with (Get_walk h (children_ (h !!! curr) !! c) k).
      rewrite (unchanged_total (length h) h2) by (done || lia).
      assert (children_ (h2 !!! curr) !! c = Some (length h)) as ->; [|done].
      unfold h2. rewrite set_child_total_eq
        by (rewrite length_app; simpl; lia).
      by rewrite children_set_children, lookup_insert_eq.
Qed.

Lemma Put_unchanged h root_ key v :
  unchanged_below (length h) h (Put h root_ key v).1.
Proof.
  unfold Put. destruct key as [|c key].
  - simpl. destruct root_ as [r|]; simpl.
    + eapply unchanged_trans; [by apply unchanged_alloc|].
      by apply unchanged_assign.
    + by apply unchanged_alloc.
  - set (x := match root_ with
              | Some r => Clone (h !!! r)
              | None => Node ∅
              end).
    assert ((match root_ with
             | Some r => alloc h (Clone (h !!! r))
             | None => alloc h (Node ∅)
             end) = (h ++ [x], length h)) as -> by by destruct root_.
    simpl fst.
    destruct (Put_loop_spec (c :: key) v ltac:(done) (h ++ [x]) (length h))
      as [U _]; [rewrite length_app; simpl; lia|].
    eapply unchanged_trans; [|exact U]. by apply unchanged_alloc.
Qed.

Lemma Get_Put h root_ key v :
  Get (Put h root_ key v).1 (Put h root_ key v).2 key (type_of v)
  = Some (moved v).
Proof.
  unfold Put, Get. destruct key as [|c key].
  - simpl. destruct root_ as [r|]; simpl.
    + rewrite assign_children_total_eq by (rewrite length_app; simpl; lia).
      rewrite alloc_total_new. simpl. by rewrite decide_True.
    + rewrite alloc_total_new. by rewrite decide_True.
  - set (x := match root_ with
              | Some r => Clone (h !!! r)
              | None => Node ∅
              end).
    assert ((match root_ with
             | Some r => alloc h (Clone (h !!! r))
             | None => alloc h (Node ∅)
             end) = (h ++ [x], length h)) as -> by by destruct root_.
    cbn [fst snd].
    destruct (Put_loop_spec (c :: key) v ltac:(done) (h ++ [x]) (length h))
      as (_ & l & ch & Hw & Hn); [rewrite length_app; simpl; lia|].
    rewrite Hw, Hn. by rewrite decide_True.
Qed.

(** *** [Remove] *)

Lemma Remove_walk_None h key : forall curr path,
  Remove_walk h curr key path = None -> Get_walk h (Some curr) key = None.
Proof.
  induction key as [|c key IH]; intros curr path; simpl; [done|].
  destruct (children_ (h !!! curr) !! c) as [n|]; [apply IH|].
  by rewrite Get_walk_None.
Qed.

Lemma Remove_walk_Some h key : forall curr path res,
  Remove_walk h curr key (curr :: path) = Some res ->
  exists back rest,
    res = back :: rest /\
    length rest = length key + length path /\
    Get_walk h (Some curr) key = Some back.
Proof.
  induction key as [|c key IH]; intros curr path res; simpl.
  - intros [= <-]. by exists curr, path.
  - destruct (children_ (h !!! curr) !! c) as [n|]; [|done].
    intros (back & rest & -> & Hlen & Hw)%IH.
    exists back, rest. simpl in Hlen. split_and!; [done|lia|done].
Qed.

Lemma Remove_prune_spec h path : forall rk path2 rk2,
  Remove_prune h path rk = (path2, rk2) ->
  length path = length rk ->
  length path2 = length rk2 /\ exists dropped, rk = dropped ++ rk2.
Proof.
  induction path as [|p path IH]; intros rk path2 rk2; simpl.
  - intros [= <- <-] Hlen. split; [done|]. by exists [].
  - destruct (_ && _).
    + intros Hp Hlen. destruct rk as [|c rk]; [done|]. simpl in *.
      destruct (IH rk path2 rk2 Hp) as [? [dropped ->]]; [lia|].
      split; [done|]. by exists (c :: dropped).
    + intros [= <- <-] Hlen. split; [done|]. by exists [].
Qed.

(** The third loop of [Remove]: older nodes are left alone, and in the heap
    it produces the bytes it has consumed lead from the new root to [node]
    (nowhere, when there is no [node]). *)
Lemma Remove_rebuild_spec path : forall h rk node,
  length path = length rk ->
  match node with Some nd => nd < length h | None => True end ->
  unchanged_below (length h) h (Remove_rebuild h path rk node).1 /\
  Get_walk (Remove_rebuild h path rk node).1
           (Remove_rebuild h path rk node).2 (rev rk) = node /\
  match (Remove_rebuild h path rk node).2 with
  | Some r => r < length (Remove_rebuild h path rk node).1
  | None => True
  end.
Proof.
  induction path as [|p path IH]; intros h rk node Hlen Hnode.
  - destruct rk; [|done]. simpl. split; [apply unchanged_refl|done].
  - destruct rk as [|c rk]; [done|].
    cbn [Remove_rebuild alloc hd tl].
    set (h1 := h ++ [Clone (h !!! p)]).
    set (h2 := match node with
               | Some nd => set_child h1 (length h) c nd
               | None => erase_child h1 (length h) c
               end).
    assert (Hl1 : length h1 = S (length h))
      by (unfold h1; rewrite length_app; simpl; lia).
    assert (Hl2 : length h2 = length h1)
      by (unfold h2; destruct node; apply length_assign_children).
    assert (U2 : unchanged_below (length h) h h2).
    { eapply unchanged_trans; [by apply unchanged_alloc|].
      unfold h2. destruct node; by apply unchanged_assign. }
    assert (Hc : children_ (h2 !!! length h) !! c = node).
    { unfold h2. destruct node.
      - rewrite set_child_total_eq by lia.
        by rewrite children_set_children, lookup_insert_eq.
      - rewrite erase_child_total_eq by lia.
        by rewrite children_set_children, lookup_delete_eq. }
    destruct (IH h2 rk (Some (length h))) as (U & Hw & Hr);
      [simpl in Hlen; lia|lia|].
    split_and!.
    + eapply unchanged_trans; [exact U2|].
      eapply unchanged_weaken; [|exact U]. lia.
    + simpl rev. rewrite Get_walk_app, Hw. simpl.
      rewrite (unchanged_total (length h2) h2) by (done || lia). done.
    + done.
Qed.

Lemma Remove_unchanged h root_ key :
  unchanged_below (length h) h (Remove h root_ key).1.
Proof.
  unfold Remove. destruct root_ as [r|]; [|apply unchanged_refl].
  destruct (Remove_walk h r key [r]) as [res|] eqn:Hwalk; [|apply unchanged_refl].
  apply Remove_walk_Some in Hwalk as (back & path & -> & Hlen & _).
  simpl in Hlen.
  case_decide.
  - destruct (Remove_prune h path (rev key)) as [path2 rk2] eqn:Hpr.
    apply Remove_prune_spec in Hpr as [Hlen2 _];
      [|rewrite length_rev; lia].
    by apply Remove_rebuild_spec.
  - destruct (is_value_node_ (h !!! back)); [|apply unchanged_refl].
    cbn [alloc].
    eapply unchanged_trans; [by apply unchanged_alloc|].
    eapply unchanged_weaken;
      [|apply Remove_rebuild_spec;
        [rewrite length_rev; lia|rewrite length_app; simpl; lia]].
    rewrite length_app. lia.
Qed.

(** After [Remove] the key is not bound, whatever the trie was. *)
Lemma Get_Remove h root_ key T :
  Get (Remove h root_ key).1 (Remove h root_ key).2 key T = None.
Proof.
  unfold Remove. destruct root_ as [r|]; [|unfold Get; by rewrite Get_walk_None].
  destruct (Remove_walk h r key [r]) as [res|] eqn:Hwalk.
  2:{ unfold Get. simpl. by rewrite (Remove_walk_None _ _ _ _ Hwalk). }
  apply Remove_walk_Some in Hwalk as (back & path & -> & Hlen & Hw).
  simpl in Hlen.
  case_decide as Hleaf.
  - destruct (Remove_prune h path (rev key)) as [path2 rk2] eqn:Hpr.
    apply Remove_prune_spec in Hpr as [Hlen2 [dropped Hrk]];
      [|rewrite length_rev; lia].
    destruct (Remove_rebuild_spec path2 h rk2 None Hlen2 I) as (_ & Hnone & _).
    unfold Get.
    assert (key = rev rk2 ++ rev dropped) as Hkey.
    { rewrite <- (rev_involutive key), Hrk. apply rev_app_distr. }
    rewrite Hkey, Get_walk_app, Hnone.
    by rewrite Get_walk_None.
  - destruct (is_value_node_ (h !!! back)) eqn:Hval.
    + cbn [alloc].
      set (h1 := h ++ [Node (children_ (h !!! back))]).
      destruct (Remove_rebuild_spec path h1 (rev key) (Some (length h)))
        as (U & Hsome & _);
        [rewrite length_rev; lia|unfold h1; rewrite length_app; simpl; lia|].
      rewrite rev_involutive in Hsome.
      unfold Get. rewrite Hsome.
      rewrite (unchanged_total (length h1) h1)
        by (done || unfold h1; rewrite length_app; simpl; lia).
      unfold h1. by rewrite alloc_total_new.
    + unfold Get. simpl. rewrite Hw.
      by destruct (h !!! back).
Qed.

(** *** Observations through old handles *)

Lemma closed_children_total h p c q :
  closed h -> children_ (h !!! p) !! c = Some q -> q < length h.
Proof.
  intros Hcl. rewrite list_lookup_total_alt.
  destruct (h !! p) as [n|] eqn:Hp; simpl; [by apply (Hcl p n c q)|].
  by rewrite lookup_empty.
Qed.

Lemma Get_walk_stable h h' key : forall curr,
  closed h -> unchanged_below (length h) h h' -> handle h curr ->
  Get_walk h' curr key = Get_walk h curr key /\
  handle h (Get_walk h curr key).
Proof.
  induction key as [|c key IH]; intros curr Hcl U Hcurr; simpl; [done|].
  destruct curr as [p|]; [|done]. simpl in Hcurr.
  rewrite (unchanged_total (length h) h h') by done.
  apply IH; try done.
  destruct (children_ (h !!! p) !! c) as [q|] eqn:Hq; [|done].
  simpl. by eapply closed_children_total.
Qed.

Lemma Get_stable h h' root_ key T :
  closed h -> unchanged_below (length h) h h' -> handle h root_ ->
  Get h' root_ key T = Get h root_ key T.
Proof.
  intros Hcl U Hroot. unfold Get.
  destruct (Get_walk_stable h h' key root_ Hcl U Hroot) as [-> Hend].
  destruct (Get_walk h root_ key) as [p|]; [|done]. simpl in Hend.
  by rewrite (unchanged_total (length h) h h').
Qed.

(** *** Closed heaps *)

Lemma closed_nil : closed [].
Proof. intros p n c q Hp. by rewrite lookup_nil in Hp. Qed.

Lemma closed_alloc h n :
  closed h ->
  (forall c q, children_ n !! c = Some q -> q < length h) ->
  closed (h ++ [n]).
Proof.
  intros Hcl Hn p m c q Hp Hq. rewrite length_app. simpl.
  apply lookup_snoc_Some in Hp as [[_ Hp]|[_ <-]].
  - pose proof (Hcl p m c q Hp Hq). lia.
  - pose proof (Hn c q Hq). lia.
Qed.

Lemma closed_assign h p ch :
  closed h ->
  (forall c q, ch !! c = Some q -> q < length h) ->
  closed (assign_children h p ch).
Proof.
  intros Hcl Hch p' m c q Hp Hq. rewrite length_assign_children.
  unfold assign_children in Hp.
  apply list_lookup_insert_Some in Hp as [(_ & <- & _)|[_ Hp]].
  - rewrite children_set_children in Hq. by apply (Hch c).
  - by apply (Hcl p' m c).
Qed.

Lemma closed_set_child h p c q :
  closed h -> q < length h -> closed (set_child h p c q).
Proof.
  intros Hcl Hq. apply closed_assign; [done|].
  intros c' q' [[_ <-]|[_ H]]%lookup_insert_Some; [done|].
  by eapply closed_children_total.
Qed.

Lemma closed_erase_child h p c : closed h -> closed (erase_child h p c).
Proof.
  intros Hcl. apply closed_assign; [done|].
  intros c' q' [_ H]%lookup_delete_Some. by eapply closed_children_total.
Qed.

Lemma closed_alloc_copy h p :
  closed h -> closed (h ++ [Clone (h !!! p)]).
Proof.
  intros Hcl. apply closed_alloc; [done|]. intros c q.
  by apply closed_children_total.
Qed.

Lemma closed_alloc_leaf h n :
  closed h -> children_ n = ∅ -> closed (h ++ [n]).
Proof.
  intros Hcl Hn. apply closed_alloc; [done|].
  intros c q. by rewrite Hn, lookup_empty.
Qed.

Lemma Put_loop_closed key v : forall h curr,
  closed h -> closed (Put_loop h curr key v).
Proof.
  induction key as [|c key IH]; intros h curr Hcl; [done|].
  destruct key as [|c' key].
  - rewrite Put_loop_last. cbv zeta.
    set (h1 := h ++ [NodeWithValue (type_of v) ∅ (Some (moved v))]).
    assert (Hl1 : length h1 = S (length h))
      by (unfold h1; rewrite length_app; simpl; lia).
    assert (Hcl1 : closed h1) by by apply closed_alloc_leaf.
    destruct (children_ (h1 !!! curr) !! c) as [n|].
    + apply closed_set_child.
      * case_decide; [done|]. apply closed_assign; [done|].
        intros c' q. by apply closed_children_total.
      * case_decide; [|rewrite length_assign_children]; lia.
    + apply closed_set_child; [done|lia].
  - rewrite Put_loop_step. apply IH. apply closed_set_child.
    + destruct (children_ (h !!! curr) !! c).
      * by apply closed_alloc_copy.
      * by apply closed_alloc_leaf.
    + rewrite length_app. simpl. lia.
Qed.

Lemma Put_root h root_ key v : (Put h root_ key v).2 = Some (length h).
Proof. unfold Put. by destruct key, root_. Qed.

Lemma Put_length h root_ key v : length h < length (Put h root_ key v).1.
Proof.
  unfold Put. destruct key as [|c key].
  - destruct root_; simpl; rewrite ?length_assign_children, length_app;
      simpl; lia.
  - set (x := match root_ with
              | Some r => Clone (h !!! r)
              | None => Node ∅
              end).
    assert ((match root_ with
             | Some r => alloc h (Clone (h !!! r))
             | None => alloc h (Node ∅)
             end) = (h ++ [x], length h)) as -> by by destruct root_.
    cbn [fst].
    destruct (Put_loop_spec (c :: key) v ltac:(done) (h ++ [x]) (length h))
      as [[Hlen _] _]; [rewrite length_app; simpl; lia|].
    rewrite length_app in Hlen. cbn [length] in Hlen. lia.
Qed.

Lemma Put_closed h root_ key v :
  closed h ->
  closed (Put h root_ key v).1 /\
  handle (Put h root_ key v).1 (Put h root_ key v).2.
Proof.
  intros Hcl. split.
  - unfold Put. destruct key as [|c key].
    + simpl. destruct root_ as [r|]; simpl.
      * apply closed_assign; [by apply closed_alloc_leaf|].
        intros c q Hq. apply closed_children_total in Hq; [done|].
        by apply closed_alloc_leaf.
      * by apply closed_alloc_leaf.
    + destruct root_ as [r|]; cbn [alloc fst]; apply Put_loop_closed.
      * by apply closed_alloc_copy.
      * by apply closed_alloc_leaf.
  - rewrite Put_root. simpl. apply Put_length.
Qed.

Lemma Remove_rebuild_closed path : forall h rk node,
  closed h ->
  match node with Some nd => nd < length h | None => True end ->
  closed (Remove_rebuild h path rk node).1.
Proof.
  induction path as [|p path IH]; intros h rk node Hcl Hnode; [done|].
  cbn [Remove_rebuild alloc]. apply IH.
  - destruct node as [nd|].
    + apply closed_set_child; [by apply closed_alloc_copy|].
      rewrite length_app. simpl. lia.
    + by apply closed_erase_child, closed_alloc_copy.
  - destruct node; unfold set_child, erase_child;
      rewrite length_assign_children, length_app; simpl; lia.
Qed.

Lemma Remove_closed h root_ key :
  closed h -> handle h root_ ->
  closed (Remove h root_ key).1 /\
  handle (Remove h root_ key).1 (Remove h root_ key).2.
Proof.
  intros Hcl Hroot. unfold Remove. destruct root_ as [r|]; [|done].
  destruct (Remove_walk h r key [r]) as [res|] eqn:Hwalk; [|done].
  apply Remove_walk_Some in Hwalk as (back & path & -> & Hlen & _).
  simpl in Hlen. case_decide.
  - destruct (Remove_prune h path (rev key)) as [path2 rk2] eqn:Hpr.
    apply Remove_prune_spec in Hpr as [Hlen2 _];
      [|rewrite length_rev; lia].
    split; [by apply Remove_rebuild_closed|].
    destruct (Remove_rebuild_spec path2 h rk2 None Hlen2 I) as (_ & _ & Hr).
    by destruct (Remove_rebuild h path2 rk2 None).2.
  - destruct (is_value_node_ (h !!! back)); [|done].
    cbn [alloc].
    assert (length h < length (h ++ [Node (children_ (h !!! back))]))
      by (rewrite length_app; simpl; lia).
    split.
    + apply Remove_rebuild_closed; [|done].
      apply closed_alloc; [done|]. intros c q.
      by apply closed_children_total.
    + destruct (Remove_rebuild_spec path
                  (h ++ [Node (children_ (h !!! back))]) (rev key)
                  (Some (length h))) as (_ & _ & Hr);
        [rewrite length_rev; lia|done|].
      by destruct (Remove_rebuild _ path (rev key) (Some (length h))).2.
Qed.

Lemma built_closed h : built h -> closed h.
Proof.
  induction 1 as [|h root_ key v _ IH Hroot|h root_ key _ IH Hroot].
  - apply closed_nil.
  - by apply Put_closed.
  - by apply Remove_closed.
Qed.

(** *** A trie with a single key *)

Lemma Put_loop_chain key v : key <> [] -> forall h curr,
  length h = S curr -> h !!! curr = Node ∅ ->
  chain (Put_loop h curr key v) curr key v.
Proof.
  induction key as [|c key IH]; [done|]. intros _ h curr Hlen Hcurr.
  destruct key as [|c' key].
  - rewrite Put_loop_last. cbv zeta.
    rewrite alloc_total_old, Hcurr by lia. simpl. rewrite lookup_empty.
    exists (length h). split.
    + rewrite set_child_total_eq by (rewrite length_app; simpl; lia).
      rewrite alloc_total_old, Hcurr by lia. simpl. by rewrite insert_empty.
    + simpl. unfold set_child. rewrite assign_children_total_ne by lia.
      apply alloc_total_new.
  - rewrite Put_loop_step, Hcurr. simpl children_. rewrite lookup_empty.
    set (h2 := set_child (h ++ [Node ∅]) curr c (length h)).
    assert (Hl2 : length h2 = S (length h)).
    { unfold h2, set_child. rewrite length_assign_children, length_app.
      simpl. lia. }
    assert (Hc : h2 !!! curr = Node {[c := length h]}).
    { unfold h2. rewrite set_child_total_eq by (rewrite length_app; simpl; lia).
      rewrite alloc_total_old, Hcurr by lia. simpl. by rewrite insert_empty. }
    assert (Hn : h2 !!! length h = Node ∅).
    { unfold h2, set_child. rewrite assign_children_total_ne by lia.
      apply alloc_total_new. }
    destruct (Put_loop_spec (c' :: key) v ltac:(done) h2 (length h) Hl2)
      as [U _].
    exists (length h). split.
    + rewrite (unchanged_total (length h) h2) by (done || lia). done.
    + by apply IH.
Qed.

Lemma chain_walk key : forall h a v path,
  chain h a key v -> Forall (prunable h) path ->
  exists back rest,
    Remove_walk h a key (a :: path) = Some (back :: rest) /\
    children_ (h !!! back) = ∅ /\
    Forall (prunable h) rest.
Proof.
  induction key as [|c key IH]; intros h a v path; simpl.
  - intros Ha Hpath. exists a, path. by rewrite Ha.
  - intros (a' & Ha & Hch) Hpath. rewrite Ha. simpl.
    rewrite lookup_singleton_eq. apply (IH h a' v (a :: path) Hch).
    apply Forall_cons. split; [|done].
    unfold prunable. rewrite Ha. simpl. rewrite map_size_singleton.
    split; [lia|done].
Qed.

Lemma prune_all h path : forall rk,
  Forall (prunable h) path -> (Remove_prune h path rk).1 = [].
Proof.
  induction path as [|p path IH]; intros rk Hall; simpl; [done|].
  apply Forall_cons in Hall as [[Hsize Hval] Hall].
  rewrite bool_decide_eq_true_2, Hval by done. simpl. by apply IH.
Qed.

Lemma Remove_chain h a key v :
  chain h a key v -> Remove h (Some a) key = (h, None).
Proof.
  intros Hch. unfold Remove.
  destruct (chain_walk key h a v [] Hch) as (back & rest & -> & Hleaf & Hrest);
    [done|].
  rewrite decide_True by done.
  pose proof (prune_all h rest (rev key) Hrest) as Hnil.
  destruct (Remove_prune h rest (rev key)) as [path2 rk2].
  simpl in Hnil. by subst path2.
Qed.

(** Removing the only key of a trie: the result is the null trie, and no
    node is allocated. *)
Lemma Remove_only_key h key v :
  Remove (Put h None key v).1 (Put h None key v).2 key
  = ((Put h None key v).1, None).
Proof.
  rewrite Put_root. apply (Remove_chain _ _ _ v).
  unfold Put. destruct key as [|c key].
  - simpl. apply alloc_total_new.
  - cbn [alloc fst]. apply Put_loop_chain; [done| |apply alloc_total_new].
    rewrite length_app. simpl. lia.
Qed.

(** *** Laws of the design document *)

(** C3, as stated, fails: the trie that binds "a" to 1, after [Put] of 2 at
    "a" and [Remove] of "a", no longer binds "a", while the prior trie
    does. *)
Lemma Get_Remove_Put_is_not_prior_Get :
  ~ (forall h root_ key v T,
       Get (Put h root_ key v).1 (Put h root_ key v).2 key (type_of v)
       = Some v /\
       Get (Remove (Put h root_ key v).1 (Put h root_ key v).2 key).1
           (Remove (Put h root_ key v).1 (Put h root_ key v).2 key).2 key T
       = Get h root_ key T).
Proof.
  intros H.
  destruct (H trie_a.1 trie_a.2 (key_of "a") (V_uint32 2) T_uint32) as [_ E].
  vm_compute in E. discriminate E.
Qed.

(** C3, amended.  For every prior trie, key and value: [Get] of the key on
    the trie returned by [Put] returns the object [Put] constructed from the
    value by a move, which is equal to the value for the integer types, the
    strings and [Integer], and is a [MoveBlocked] with [waited_] set for a
    [MoveBlocked]; [Get] of the key on the trie returned by [Remove] after
    that [Put] returns null, which is the result of [Get] on the prior trie
    whenever the prior trie does not bind the key. *)
Theorem Get_after_Put_and_after_Remove_of_Put h root_ key v :
  Get (Put h root_ key v).1 (Put h root_ key v).2 key (type_of v)
  = Some (moved v) /\
  (type_of v <> T_MoveBlocked ->
   Get (Put h root_ key v).1 (Put h root_ key v).2 key (type_of v)
   = Some v) /\
  (type_of v = T_MoveBlocked ->
   Get (Put h root_ key v).1 (Put h root_ key v).2 key (type_of v)
   = Some (V_MoveBlocked true)) /\
  forall T,
    Get (Remove (Put h root_ key v).1 (Put h root_ key v).2 key).1
        (Remove (Put h root_ key v).1 (Put h root_ key v).2 key).2 key T
    = None /\
    (Get h root_ key T = None ->
     Get (Remove (Put h root_ key v).1 (Put h root_ key v).2 key).1
         (Remove (Put h root_ key v).1 (Put h root_ key v).2 key).2 key T
     = Get h root_ key T).
Proof.
  split; [apply Get_Put|].
  split; [intros Hv; rewrite Get_Put; by destruct v|].
  split; [intros Hv; rewrite Get_Put; by destruct v|]. intros T.
  split; [apply Get_Remove|]. intros ->. apply Get_Remove.
Qed.

Lemma Get_after_Put_and_after_Remove_of_Put_witness :
  Get (Put [] None (key_of "k") (V_MoveBlocked false)).1
      (Put [] None (key_of "k") (V_MoveBlocked false)).2 (key_of "k")
      T_MoveBlocked
  = Some (V_MoveBlocked true) /\
  Get (Put trie_a.1 trie_a.2 (key_of "a") (V_uint32 2)).1
      (Put trie_a.1 trie_a.2 (key_of "a") (V_uint32 2)).2 (key_of "a")
      T_uint32
  = Some (V_uint32 2) /\
  Get (Remove (Put [] None (key_of "k") (V_uint32 2)).1
              (Put [] None (key_of "k") (V_uint32 2)).2 (key_of "k")).1
      (Remove (Put [] None (key_of "k") (V_uint32 2)).1
              (Put [] None (key_of "k") (V_uint32 2)).2 (key_of "k")).2
      (key_of "k") T_uint32
  = Get [] None (key_of "k") T_uint32.
Proof.
  split; [|split].
  - destruct (Get_after_Put_and_after_Remove_of_Put [] None (key_of "k")
                (V_MoveBlocked false)) as (_ & _ & H & _).
    apply H. reflexivity.
  - destruct (Get_after_Put_and_after_Remove_of_Put trie_a.1 trie_a.2
                (key_of "a") (V_uint32 2)) as (_ & H & _).
    apply H. discriminate.
  - destruct (Get_after_Put_and_after_Remove_of_Put [] None (key_of "k")
                (V_uint32 2)) as (_ & _ & _ & H).
    destruct (H T_uint32) as [_ H']. apply H'. reflexivity.
Defined.

(** C6.  In a closed heap, [Put] and [Remove] leave every node that was
    there as it is, and so [Get] through any handle that existed before
    returns, for every key and type, what it returned before. *)
Theorem Put_and_Remove_preserve_old_handles h root_ key v :
  closed h ->
  (forall p n, h !! p = Some n ->
               (Put h root_ key v).1 !! p = Some n /\
               (Remove h root_ key).1 !! p = Some n) /\
  (forall r0 key' T, handle h r0 ->
     Get (Put h root_ key v).1 r0 key' T = Get h r0 key' T /\
     Get (Remove h root_ key).1 r0 key' T = Get h r0 key' T).
Proof.
  intros Hcl.
  pose proof (Put_unchanged h root_ key v) as UP.
  pose proof (Remove_unchanged h root_ key) as UR.
  split.
  - intros p n Hp. pose proof (lookup_lt_Some _ _ _ Hp) as Hlt.
    destruct UP as [_ UP], UR as [_ UR]. by rewrite UP, UR.
  - intros r0 key' T Hr0. split; by apply Get_stable.
Qed.

Lemma trie_a_closed : closed trie_a.1.
Proof. apply Put_closed, closed_nil. Qed.

Lemma Put_and_Remove_preserve_old_handles_witness :
  closed trie_a.1 /\
  (forall p n, trie_a.1 !! p = Some n ->
               (Put trie_a.1 trie_a.2 (key_of "ab") (V_uint32 2)).1 !! p = Some n /\
               (Remove trie_a.1 trie_a.2 (key_of "ab")).1 !! p = Some n) /\
  (forall r0 key' T, handle trie_a.1 r0 ->
     Get (Put trie_a.1 trie_a.2 (key_of "ab") (V_uint32 2)).1 r0 key' T
     = Get trie_a.1 r0 key' T /\
     Get (Remove trie_a.1 trie_a.2 (key_of "ab")).1 r0 key' T
     = Get trie_a.1 r0 key' T).
Proof.
  split; [exact trie_a_closed|].
  apply (Put_and_Remove_preserve_old_handles trie_a.1 trie_a.2 (key_of "ab")
           (V_uint32 2)).
  exact trie_a_closed.
Defined.

(** C8.  For [T = Put(empty, "hello", v)], whatever the heap and the value,
    [Remove(T, "hello")] has a null root; it allocates no node. *)
Theorem Remove_only_key_hello_gives_null_root h v :
  (Remove (Put h None (key_of "hello") v).1 (Put h None (key_of "hello") v).2
          (key_of "hello")).2 = None /\
  (Remove (Put h None (key_of "hello") v).1 (Put h None (key_of "hello") v).2
          (key_of "hello")).1 = (Put h None (key_of "hello") v).1.
Proof. by rewrite Remove_only_key. Qed.

End TrieFacts.

(** * More on the LRU-K replacer *)

Module ReplacerMore.

Import Replacer ReplacerFacts.

Lemma to_int_int32 z : is_int32 z -> to_int z = z.
Proof. unfold is_int32, to_int. intros H. rewrite Z.mod_small; lia. Qed.

Lemma evictable_count_ge_weight (m : gmap Z LRUKNode) f n :
  m !! f = Some n -> flag_weight n <= evictable_count m.
Proof.
  intros Hn. rewrite <- (insert_id m f n) by done.
  rewrite <- insert_delete_eq.
  rewrite evictable_count_insert_fresh by apply lookup_delete_eq.
  pose proof (evictable_count_nonneg (delete f m)). lia.
Qed.

Lemma front_in_history h : h <> [] -> front h ∈ h.
Proof. destruct h; [done|]. intros _. simpl. set_solver. Qed.

(** X1.  [Size] returns the number of tracked frames whose evictable flag
    is set, as long as that number fits the [int] local it goes through. *)
Theorem Size_counts_evictable_frames r :
  wf r -> evictable_count (node_store_ r) < 2 ^ 31 ->
  Size r = evictable_count (node_store_ r).
Proof.
  intros H Hsmall. unfold Size. rewrite (wf_size r H).
  pose proof (evictable_count_nonneg (node_store_ r)).
  rewrite to_int_int32 by (unfold is_int32; lia).
  apply to_size_t_small. lia.
Qed.

Lemma Size_counts_evictable_frames_witness :
  Size four_warm = evictable_count (node_store_ four_warm).
Proof.
  apply (Size_counts_evictable_frames four_warm four_warm_wf).
  rewrite <- (wf_size four_warm four_warm_wf). simpl. lia.
Defined.

(** *** The history of a frame *)

Lemma last_k_short k (l : list Z) :
  Z.of_nat (length l) <= k -> last_k k l = l.
Proof.
  intros H. unfold last_k.
  replace (length l - Z.to_nat k)%nat with 0%nat by lia. done.
Qed.

Lemma last_k_absorb k (a b : list Z) :
  last_k k (last_k k a ++ b) = last_k k (a ++ b).
Proof.
  unfold last_k.
  destruct (decide (length a <= Z.to_nat k)%nat) as [Hle|Hgt].
  - replace (length a - Z.to_nat k)%nat with 0%nat by lia. done.
  - rewrite !length_app, length_drop.
    replace (length a + length b - Z.to_nat k)%nat
      with ((length a - Z.to_nat k) + length b)%nat by lia.
    replace (length a - (length a - Z.to_nat k) + length b - Z.to_nat k)%nat
      with (length b) by lia.
    rewrite <- drop_drop. f_equal.
    rewrite skipn_app.
    replace (length a - Z.to_nat k - length a)%nat with 0%nat by lia. done.
Qed.

Lemma RecordAccess_history_of r f r' g :
  wf r -> RecordAccess r f = Done r' ->
  history_of r' g
  = if decide (g = f)
    then last_k (replacer_k_ r) (history_of r g ++ [current_timestamp_ r])
    else history_of r g.
Proof.
  intros H. pose proof (wf_k r H) as Hk. unfold RecordAccess, history_of.
  destruct (replacer_size_ r <=? curr_size_ r); [done|].
  destruct (node_store_ r !! f) as [n|] eqn:Hn; intros [= <-]; simpl.
  - case_decide as Hg.
    + subst g. rewrite lookup_insert_eq, Hn. simpl.
      destruct (wf_nodes r H f n Hn) as (Hne & Hlen & Hle & _).
      destruct (Z.ltb_spec (k_ n) (replacer_k_ r)); simpl.
      * rewrite last_k_short; [done|]. rewrite length_app. simpl. lia.
      * unfold last_k, pop_front. rewrite length_app. simpl.
        replace (length (history_ n) + 1 - Z.to_nat (replacer_k_ r))%nat
          with 1%nat by lia.
        by destruct (history_ n).
    + by rewrite lookup_insert_ne.
  - case_decide as Hg.
    + subst g. rewrite lookup_insert_eq, Hn. simpl.
      rewrite last_k_short; [done|]. simpl. lia.
    + by rewrite lookup_insert_ne.
Qed.

Lemma history_of_bound r f :
  wf r -> Z.of_nat (length (history_of r f)) <= replacer_k_ r.
Proof.
  intros H. unfold history_of.
  destruct (node_store_ r !! f) as [n|] eqn:Hn; simpl.
  - destruct (wf_nodes r H f n Hn) as (_ & Hlen & Hle & _). lia.
  - pose proof (wf_k r H). lia.
Qed.

Lemma accesses_history frames : forall r r',
  wf r -> Forall is_int32 frames ->
  current_timestamp_ r + Z.of_nat (length frames) < 2 ^ 64 ->
  accesses r frames = Done r' ->
  replacer_k_ r' = replacer_k_ r /\
  forall f,
    history_of r' f
    = last_k (replacer_k_ r)
             (history_of r f ++ stamps_of f frames (current_timestamp_ r)).
Proof.
  induction frames as [|g frames IH]; intros r r' H Hfs Hts; simpl.
  - intros [= <-]. split; [done|]. intros f. rewrite app_nil_r.
    symmetry. by apply last_k_short, history_of_bound.
  - apply Forall_cons in Hfs as [Hg Hfs]. simpl in Hts.
    destruct (RecordAccess r g) as [r1| |] eqn:E; simpl; try done.
    intros Hrest.
    assert (Hwf1 : wf r1) by (eapply RecordAccess_wf; [exact H|done|lia|exact E]).
    assert (Hnow1 : current_timestamp_ r1 = current_timestamp_ r + 1)
      by (apply (RecordAccess_timestamp r g); [done|lia|done]).
    assert (Hk1 : replacer_k_ r1 = replacer_k_ r).
    { revert E. unfold RecordAccess.
      destruct (replacer_size_ r <=? curr_size_ r); [done|].
      by destruct (node_store_ r !! g); intros [= <-]. }
    destruct (IH r1 r' Hwf1 Hfs ltac:(lia) Hrest) as [Hk' Hh].
    split; [congruence|]. intros f.
    rewrite Hh, Hk1, Hnow1, (RecordAccess_history_of r g r1 f H E).
    case_decide as Hf.
    + subst f. rewrite decide_True by done.
      by rewrite last_k_absorb, <- app_assoc.
    + rewrite decide_False by congruence. done.
Qed.

(** X2.  After any sequence of accesses to a new replacer that ran without
    an assertion failure, the history recorded for a frame is the list of the
    last K timestamps at which that frame was accessed, oldest first (the
    i-th access has timestamp i, from 0); a frame that was never accessed has
    none. *)
Theorem history_is_the_K_most_recent_accesses num_frames k frames r f :
  1 <= k < 2 ^ 64 -> Forall is_int32 frames ->
  Z.of_nat (length frames) < 2 ^ 64 ->
  accesses (new num_frames k) frames = Done r ->
  history_of r f = last_k k (stamps_of f frames 0).
Proof.
  intros Hk Hfs Hlen E.
  destruct (accesses_history frames (new num_frames k) r) as [_ Hh];
    [by apply new_wf|done|simpl; lia|done|].
  by rewrite Hh.
Qed.

Lemma history_is_the_K_most_recent_accesses_witness :
  history_of four_warm 3 = last_k 2 (stamps_of 3 [1; 2; 3; 4; 1; 2; 3; 4] 0).
Proof.
  apply (history_is_the_K_most_recent_accesses 7 2 [1; 2; 3; 4; 1; 2; 3; 4]).
  - lia.
  - repeat constructor; unfold is_int32; lia.
  - simpl. lia.
  - exact four_warm_reached.
Defined.

(** *** Every access has a timestamp of its own *)

Lemma RecordAccess_stamp_origin r f r' g m t :
  RecordAccess r f = Done r' ->
  node_store_ r' !! g = Some m -> t ∈ history_ m ->
  (g = f /\ t = current_timestamp_ r) \/
  (exists m0, node_store_ r !! g = Some m0 /\ t ∈ history_ m0).
Proof.
  unfold RecordAccess. destruct (replacer_size_ r <=? curr_size_ r); [done|].
  destruct (node_store_ r !! f) as [n|] eqn:Hn; intros [= <-]; simpl;
    intros Hm Ht; apply lookup_insert_Some in Hm as [[<- <-]|[Hg Hm]];
    simpl in Ht; try (right; by eauto).
  - apply elem_of_app in Ht as [Ht|Ht%list_elem_of_singleton]; [right|by left].
    exists n. split; [done|].
    destruct (k_ n <? replacer_k_ r); simpl in Ht; [done|].
    unfold pop_front in Ht. destruct (history_ n); [done|]. set_solver.
  - apply list_elem_of_singleton in Ht. by left.
Qed.

Lemma RecordAccess_distinct r f r' :
  wf r -> distinct_stamps r -> RecordAccess r f = Done r' ->
  distinct_stamps r'.
Proof.
  intros H Hd E f1 g1 n1 m1 t Hne Hn1 Hm1 Ht1 Ht2.
  assert (Hold : forall g m0, node_store_ r !! g = Some m0 ->
                 t ∈ history_ m0 -> t < current_timestamp_ r).
  { intros g m0 Hm0 Ht. destruct (wf_nodes r H g m0 Hm0) as (_ & _ & _ & Hall).
    rewrite Forall_forall in Hall. apply Hall in Ht. lia. }
  destruct (RecordAccess_stamp_origin r f r' f1 n1 t E Hn1 Ht1)
    as [[Hf1 Hnow1]|(n0 & Hn0 & Ht0)];
    destruct (RecordAccess_stamp_origin r f r' g1 m1 t E Hm1 Ht2)
    as [[Hg1 Hnow2]|(m0 & Hm0 & Ht0')].
  - congruence.
  - pose proof (Hold g1 m0 Hm0 Ht0'). lia.
  - pose proof (Hold f1 n0 Hn0 Ht0). lia.
  - by apply (Hd f1 g1 n0 m0 t).
Qed.

Lemma SetEvictable_history r f e g m :
  node_store_ (SetEvictable r f e) !! g = Some m ->
  exists m0, node_store_ r !! g = Some m0 /\ history_ m0 = history_ m.
Proof.
  unfold SetEvictable. destruct (node_store_ r !! f) as [n|] eqn:Hn; [|by eauto].
  destruct (Bool.eqb _ _); [by eauto|]. simpl.
  intros [[<- <-]|[_ Hm]]%lookup_insert_Some; by eauto.
Qed.

Lemma SetEvictable_distinct r f e :
  distinct_stamps r -> distinct_stamps (SetEvictable r f e).
Proof.
  intros Hd f1 g1 n1 m1 t Hne
    (n0 & Hn0 & <-)%SetEvictable_history (m0 & Hm0 & <-)%SetEvictable_history.
  by apply (Hd f1 g1).
Qed.

Lemma Remove_lookup_Some r f g m :
  node_store_ (Remove r f) !! g = Some m -> node_store_ r !! g = Some m.
Proof.
  unfold Remove. destruct (node_store_ r !! f) as [n|]; [|done].
  destruct (negb _); [done|]. simpl. by intros [_ ?]%lookup_delete_Some.
Qed.

Lemma Remove_distinct r f : distinct_stamps r -> distinct_stamps (Remove r f).
Proof.
  intros Hd f1 g1 n1 m1 t Hne Hn%Remove_lookup_Some Hm%Remove_lookup_Some.
  by apply (Hd f1 g1).
Qed.

Lemma Evict_lookup_Some iter r g m :
  node_store_ (Evict iter r).2 !! g = Some m -> node_store_ r !! g = Some m.
Proof.
  unfold Evict. destruct (curr_size_ r =? 0); [done|].
  destruct (k_dist_max _ =? 0); [done|].
  destruct (evict_frame_id _); [|done]. simpl.
  by intros [_ ?]%lookup_delete_Some.
Qed.

Lemma Evict_distinct iter r :
  distinct_stamps r -> distinct_stamps (Evict iter r).2.
Proof.
  intros Hd f1 g1 n1 m1 t Hne Hn%Evict_lookup_Some Hm%Evict_lookup_Some.
  by apply (Hd f1 g1).
Qed.

Lemma accesses_reachable iter frames : forall r r',
  reachable iter r -> wf r -> Forall is_int32 frames ->
  current_timestamp_ r + Z.of_nat (length frames) < 2 ^ 64 ->
  accesses r frames = Done r' -> reachable iter r'.
Proof.
  induction frames as [|g frames IH]; intros r r' Hr H Hfs Hts; simpl.
  - by intros [= <-].
  - apply Forall_cons in Hfs as [Hg Hfs]. simpl in Hts.
    destruct (RecordAccess r g) as [r1| |] eqn:E; simpl; try done.
    apply IH; try done.
    + apply (reach_RecordAccess iter r g r1); try done. lia.
    + eapply RecordAccess_wf; [exact H|done|lia|exact E].
    + rewrite (RecordAccess_timestamp r g r1) by (done || lia). lia.
Qed.

Lemma four_warm_reachable iter : reachable iter four_warm.
Proof.
  apply (accesses_reachable iter [1; 2; 3; 4; 1; 2; 3; 4] (new 7 2)).
  - apply reach_new. lia.
  - apply new_wf. lia.
  - repeat constructor; unfold is_int32; lia.
  - simpl. lia.
  - exact four_warm_reached.
Qed.

Section Order.

Variable iter : gmap Z LRUKNode -> list (Z * LRUKNode).
Hypothesis iter_perm : forall m, iter m ≡ₚ map_to_list m.

Lemma reachable_distinct r : reachable iter r -> distinct_stamps r.
Proof.
  induction 1 as [n k Hk|r f r' Hr IH Hf Hts E|r f e _ IH|r f _ IH|r _ IH].
  - intros f g n' m t _ Hn. simpl in Hn. by rewrite lookup_empty in Hn.
  - apply (RecordAccess_distinct r f); try done.
    by apply (reachable_wf iter).
  - by apply SetEvictable_distinct.
  - by apply Remove_distinct.
  - by apply Evict_distinct.
Qed.

(** X3.  In every state a client can bring the replacer into, [curr_size_]
    is the number of tracked frames whose evictable flag is set, no tracked
    frame has an empty history or one longer than K, every recorded
    timestamp is before the current time, and no timestamp is recorded for
    two frames. *)
Theorem reachable_replacer_invariants r :
  reachable iter r ->
  curr_size_ r = evictable_count (node_store_ r) /\
  (forall f n, node_store_ r !! f = Some n ->
     history_ n <> [] /\
     Z.of_nat (length (history_ n)) <= replacer_k_ r /\
     forall t, t ∈ history_ n -> 0 <= t < current_timestamp_ r) /\
  distinct_stamps r.
Proof.
  intros Hr. pose proof (reachable_wf iter iter_perm r Hr) as H.
  split; [apply (wf_size r H)|]. split; [|by apply reachable_distinct].
  intros f n Hn. destruct (wf_nodes r H f n Hn) as (Hne & Hlen & Hle & Hall).
  split; [done|]. split; [lia|]. by apply Forall_forall.
Qed.

End Order.

Lemma reachable_replacer_invariants_witness :
  curr_size_ four_warm = evictable_count (node_store_ four_warm) /\
  (forall f n, node_store_ four_warm !! f = Some n ->
     history_ n <> [] /\
     Z.of_nat (length (history_ n)) <= replacer_k_ four_warm /\
     forall t, t ∈ history_ n -> 0 <= t < current_timestamp_ four_warm) /\
  distinct_stamps four_warm.
Proof.
  apply (reachable_replacer_invariants map_to_list).
  - intros m. reflexivity.
  - apply four_warm_reachable.
Defined.

(** X4.  The frame [Evict] returns does not depend on the order in which the
    node store is walked: in a well-formed state where every access has a
    timestamp of its own, any two enumerations of the nodes give the same
    result and the same state. *)
Theorem Evict_does_not_depend_on_iteration_order
  (iter1 iter2 : gmap Z LRUKNode -> list (Z * LRUKNode)) r :
  (forall m, iter1 m ≡ₚ map_to_list m) ->
  (forall m, iter2 m ≡ₚ map_to_list m) ->
  wf r -> distinct_stamps r ->
  Evict iter1 r = Evict iter2 r.
Proof.
  intros P1 P2 H Hd.
  destruct (Evict_cases iter1 P1 r H) as [[-> N1]|(v1 & n1 & -> & Hv1 & He1 & B1)];
    destruct (Evict_cases iter2 P2 r H) as [[-> N2]|(v2 & n2 & -> & Hv2 & He2 & B2)].
  - done.
  - rewrite (N1 v2 n2 Hv2) in He2. done.
  - rewrite (N2 v1 n1 Hv1) in He1. done.
  - assert (v1 = v2) as ->; [|done].
    destruct (decide (v1 = v2)) as [|Hne]; [done|]. exfalso.
    pose proof (wf_k r H) as Hk.
    pose proof (wf_nodes r H v1 n1 Hv1) as Hok1.
    pose proof (wf_nodes r H v2 n2 Hv2) as Hok2.
    pose proof (B1 v2 n2 Hv2 He2) as O12.
    pose proof (B2 v1 n1 Hv1 He1) as O21.
    apply outranks_char in O12; [|done|done|lia].
    apply outranks_char in O21; [|done|done|lia].
    assert (front (history_ n1) = front (history_ n2)) as Heq by lia.
    apply (Hd v1 v2 n1 n2 (front (history_ n1)) Hne Hv1 Hv2).
    + apply front_in_history, Hok1.
    + rewrite Heq. apply front_in_history, Hok2.
Qed.

Lemma Evict_does_not_depend_on_iteration_order_witness :
  Evict map_to_list four_warm
  = Evict (fun m => reverse (map_to_list m)) four_warm.
Proof.
  apply (Evict_does_not_depend_on_iteration_order
           map_to_list (fun m => reverse (map_to_list m))).
  - intros m. reflexivity.
  - intros m. apply reverse_Permutation.
  - exact four_warm_wf.
  - apply (reachable_distinct map_to_list (fun m => reflexivity _)).
    apply four_warm_reachable.
Defined.

(** *** [SetEvictable], [Remove] and the capacity check *)

(** X5.  [SetEvictable] is idempotent, and it ignores a frame that is not
    tracked. *)
Theorem SetEvictable_is_idempotent r f e :
  SetEvictable (SetEvictable r f e) f e = SetEvictable r f e /\
  (node_store_ r !! f = None -> SetEvictable r f e = r).
Proof.
  split.
  - destruct (node_store_ r !! f) as [n|] eqn:Hn.
    + pose proof (SetEvictable_lookup r f e n Hn) as Hl.
      unfold SetEvictable at 1. rewrite Hl. simpl.
      by rewrite Bool.eqb_reflx.
    + assert (SetEvictable r f e = r) as -> by (unfold SetEvictable; by rewrite Hn).
      unfold SetEvictable. by rewrite Hn.
  - intros Hn. unfold SetEvictable. by rewrite Hn.
Qed.

(** X6.  Flipping the evictable flag of a tracked frame and flipping it back
    gives the state one started from, count of evictable frames included. *)
Theorem SetEvictable_there_and_back r f n :
  wf r -> node_store_ r !! f = Some n ->
  SetEvictable (SetEvictable r f (negb (is_evictable_ n))) f (is_evictable_ n)
  = r.
Proof.
  intros H Hn. pose proof (wf_curr_size_bound r H) as Hb.
  pose proof (evictable_count_ge_weight _ f n Hn) as Hw.
  rewrite <- (wf_size r H) in Hw. unfold flag_weight in Hw.
  pose proof (SetEvictable_lookup r f (negb (is_evictable_ n)) n Hn) as Hl.
  unfold SetEvictable at 1. rewrite Hl. simpl.
  unfold SetEvictable. rewrite Hn.
  destruct n as [h k fid e]. simpl in *.
  destruct e; simpl in *.
  - rewrite insert_insert_eq, (insert_id _ _ _ Hn).
    rewrite (to_size_t_small (curr_size_ r - 1)) by lia.
    rewrite to_size_t_small by lia.
    destruct r; simpl; f_equal; lia.
  - rewrite insert_insert_eq, (insert_id _ _ _ Hn).
    rewrite (to_size_t_small (curr_size_ r + 1)) by lia.
    rewrite to_size_t_small by lia.
    destruct r; simpl; f_equal; lia.
Qed.

Lemma SetEvictable_there_and_back_witness :
  SetEvictable (SetEvictable four_warm 2 false) 2 true = four_warm.
Proof.
  apply (SetEvictable_there_and_back four_warm 2 (node_of 2 [1; 5] true)).
  - exact four_warm_wf.
  - reflexivity.
Defined.

(** X7.  [Remove] on a frame that is not tracked changes nothing.  On a
    tracked frame whose evictable flag is set it drops the node, history and
    all: the frame is not tracked afterwards, every other frame is as
    before, there is one evictable frame less, and the state is still well
    formed. *)
Theorem Remove_drops_an_evictable_frame r f :
  wf r ->
  (node_store_ r !! f = None -> Remove r f = r) /\
  (forall n, node_store_ r !! f = Some n -> is_evictable_ n = true ->
     node_store_ (Remove r f) !! f = None /\
     (forall g, g <> f ->
        node_store_ (Remove r f) !! g = node_store_ r !! g) /\
     evictable_count (node_store_ (Remove r f))
     = evictable_count (node_store_ r) - 1 /\
     curr_size_ (Remove r f) = curr_size_ r - 1 /\
     current_timestamp_ (Remove r f) = current_timestamp_ r /\
     wf (Remove r f)).
Proof.
  intros H. split.
  - intros Hn. unfold Remove. by rewrite Hn.
  - intros n Hn He.
    pose proof (Remove_wf r f H) as Hwf.
    assert (node_store_ (Remove r f) = delete f (node_store_ r) /\
            current_timestamp_ (Remove r f) = current_timestamp_ r) as [Hs Ht].
    { unfold Remove. by rewrite Hn, He. }
    assert (Hc : evictable_count (node_store_ (Remove r f))
                 = evictable_count (node_store_ r) - 1).
    { rewrite Hs, (evictable_count_delete _ f n Hn). unfold flag_weight.
      by rewrite He. }
    split_and!; try done.
    + rewrite Hs. apply lookup_delete_eq.
    + intros g Hg. rewrite Hs. by apply lookup_delete_ne.
    + rewrite (wf_size _ Hwf), (wf_size r H). done.
Qed.

Lemma Remove_drops_an_evictable_frame_witness :
  node_store_ (Remove four_warm 2) !! 2 = None /\
  evictable_count (node_store_ (Remove four_warm 2))
  = evictable_count (node_store_ four_warm) - 1.
Proof.
  destruct (proj2 (Remove_drops_an_evictable_frame four_warm 2 four_warm_wf)
              (node_of 2 [1; 5] true)) as (H1 & _ & H2 & _);
    [reflexivity|reflexivity|].
  split; [exact H1|exact H2].
Defined.

(** X8.  In a well-formed state [RecordAccess] stops on its assertion
    exactly when the number of evictable frames has reached the capacity,
    whichever frame is accessed; otherwise it returns. *)
Theorem RecordAccess_asserts_iff_evictable_frames_fill_capacity r f :
  wf r ->
  (RecordAccess r f = Fatal <->
   replacer_size_ r <= evictable_count (node_store_ r)) /\
  (replacer_size_ r > evictable_count (node_store_ r) ->
   exists r', RecordAccess r f = Done r').
Proof.
  intros H. rewrite <- (wf_size r H). split.
  - apply RecordAccess_fatal_iff.
  - intros Hlt. pose proof (RecordAccess_defined r f) as Hd.
    destruct (RecordAccess r f) as [r'| |] eqn:E; [by eexists| |done].
    apply RecordAccess_fatal_iff in E. lia.
Qed.

Lemma RecordAccess_asserts_iff_evictable_frames_fill_capacity_witness :
  exists r', RecordAccess four_warm 9 = Done r'.
Proof.
  apply (RecordAccess_asserts_iff_evictable_frames_fill_capacity
           four_warm 9 four_warm_wf).
  rewrite <- (wf_size four_warm four_warm_wf). simpl. lia.
Defined.

End ReplacerMore.

(** * More on the buffer pool manager *)

Module BPMMore.

Import Replacer ReplacerFacts BPM BPMFacts.

Section Pool.

Variable iter : gmap Z LRUKNode -> list (Z * LRUKNode).
Hypothesis iter_perm : forall m, iter m ≡ₚ map_to_list m.
Variable INVALID_PAGE_ID : Z.
Variable Disk : Type.
Variable disk_write : Z -> list Byte.byte -> Disk -> Disk * bool.
Variable disk_read : Z -> Disk -> Disk * bool * list Byte.byte.

(** *** What a successful call consists of *)

Lemma write_back_Done p (d d' : Disk) :
  write_back disk_write disk_read p d = Done d' ->
  d' = (if is_dirty_ p then (disk_write (page_id_ p) (data_ p) d).1 else d) /\
  (is_dirty_ p = true -> (disk_write (page_id_ p) (data_ p) d).2 = true).
Proof.
  unfold write_back, Schedule. destruct (is_dirty_ p); simpl.
  - destruct (disk_write _ _ d) as [d1 ok]. destruct ok; [|done].
    by intros [= <-].
  - by intros [= <-].
Qed.

Lemma NewPage_Some (b : BufferPoolManager Disk) pid f b' :
  NewPage iter INVALID_PAGE_ID disk_write disk_read b
  = Done (Some (pid, f), b') ->
  exists fl rep p d rep1,
    select_frame iter b = (Some f, fl, rep) /\
    frame_at (pages_ b) f = Some p /\
    write_back disk_write disk_read p (disk_scheduler_ b) = Done d /\
    RecordAccess rep f = Done rep1 /\
    pid = next_page_id_ b /\
    b' = {| pool_size_ := pool_size_ b;
            pages_ := set_frame (pages_ b) f
                        {| data_ := data_ p; page_id_ := pid;
                           pin_count_ := 1; is_dirty_ := false |};
            page_table_ :=
              emplace pid f
                (if decide (page_id_ p <> INVALID_PAGE_ID)
                 then delete (page_id_ p) (page_table_ b)
                 else page_table_ b);
            free_list_ := fl;
            replacer_ := SetEvictable rep1 f false;
            next_page_id_ := to_int (next_page_id_ b + 1);
            disk_scheduler_ := d |}.
Proof.
  unfold NewPage.
  destruct (select_frame iter b) as [[[f0|] fl] rep] eqn:Hsel; [|done].
  destruct (frame_at (pages_ b) f0) as [p|] eqn:Hp; [|done].
  destruct (write_back _ _ p _) as [d| |] eqn:Hw; simpl; try done.
  destruct (RecordAccess rep f0) as [rep1| |] eqn:Hacc; simpl; try done.
  intros [= <- <- <-]. by exists fl, rep, p, d, rep1.
Qed.

Lemma FetchPage_miss (b : BufferPoolManager Disk) page_id f b' :
  page_table_ b !! page_id = None ->
  FetchPage iter INVALID_PAGE_ID disk_write disk_read b page_id
  = Done (Some f, b') ->
  exists fl rep p d d' buf rep1,
    select_frame iter b = (Some f, fl, rep) /\
    frame_at (pages_ b) f = Some p /\
    write_back disk_write disk_read p (disk_scheduler_ b) = Done d /\
    disk_read page_id d = (d', true, buf) /\
    RecordAccess rep f = Done rep1 /\
    b' = {| pool_size_ := pool_size_ b;
            pages_ := set_frame (pages_ b) f
                        {| data_ := buf; page_id_ := page_id;
                           pin_count_ := 1; is_dirty_ := false |};
            page_table_ :=
              emplace page_id f
                (if decide (page_id_ p <> INVALID_PAGE_ID)
                 then delete (page_id_ p) (page_table_ b)
                 else page_table_ b);
            free_list_ := fl;
            replacer_ := SetEvictable rep1 f false;
            next_page_id_ := next_page_id_ b;
            disk_scheduler_ := d' |}.
Proof.
  intros Hmiss. unfold FetchPage. rewrite Hmiss.
  destruct (select_frame iter b) as [[[f0|] fl] rep] eqn:Hsel; [|done].
  destruct (frame_at (pages_ b) f0) as [p|] eqn:Hp; [|done].
  destruct (write_back _ _ p _) as [d| |] eqn:Hw; simpl; try done.
  unfold Schedule. simpl.
  destruct (disk_read page_id d) as [[d' ok] buf] eqn:Hr.
  destruct ok; simpl; [|done].
  destruct (RecordAccess rep f0) as [rep1| |] eqn:Hacc; simpl; try done.
  intros [= <- <-]. by exists fl, rep, p, d, d', buf, rep1.
Qed.

Lemma emplace_fresh (m : gmap Z Z) k v old (c : bool) :
  m !! k = None ->
  emplace k v (if c then delete old m else m) !! k = Some v.
Proof.
  intros Hk. unfold emplace.
  assert ((if c then delete old m else m) !! k = None) as ->.
  { destruct c; [|done]. apply lookup_delete_None. by right. }
  apply lookup_insert_eq.
Qed.

Lemma installed_frame (b : BufferPoolManager Disk) f rep rep1 p q :
  frame_at (pages_ b) f = Some p ->
  RecordAccess rep f = Done rep1 ->
  frame_at (set_frame (pages_ b) f q) f = Some q /\
  (forall g, g <> f ->
     frame_at (set_frame (pages_ b) f q) g = frame_at (pages_ b) g) /\
  exists n, node_store_ (SetEvictable rep1 f false) !! f = Some n /\
            is_evictable_ n = false.
Proof.
  intros Hp Hacc. pose proof Hp as [Hf0 _]%frame_at_Some.
  split; [by apply (frame_at_set_frame _ _ p)|].
  split; [intros g Hg; by apply frame_at_set_frame_ne|].
  destruct (RecordAccess_tracked rep f rep1 Hacc) as [n Hn].
  eexists. split; [by apply SetEvictable_lookup|done].
Qed.

(** *** [NewPage] and [FetchPage] *)

(** X9.  When [NewPage] returns a page, its identifier is the value of the
    allocator's counter, and the counter moves on by one.  The frame that is
    returned holds that identifier with pin count 1 and a clear dirty flag;
    its bytes are NOT reset, they are those the frame held before.  The frame
    is tracked by the replacer and not evictable, no other frame changes,
    and the page table maps the identifier to the frame unless it already
    had an entry for that identifier. *)
Theorem NewPage_installs_a_pinned_clean_page
  (b : BufferPoolManager Disk) pid f b' :
  NewPage iter INVALID_PAGE_ID disk_write disk_read b
  = Done (Some (pid, f), b') ->
  pid = next_page_id_ b /\
  next_page_id_ b' = to_int (next_page_id_ b + 1) /\
  (exists p,
     frame_at (pages_ b) f = Some p /\
     frame_at (pages_ b') f
     = Some {| data_ := data_ p; page_id_ := pid; pin_count_ := 1;
               is_dirty_ := false |}) /\
  (forall g, g <> f -> frame_at (pages_ b') g = frame_at (pages_ b) g) /\
  (exists n, node_store_ (replacer_ b') !! f = Some n /\
             is_evictable_ n = false) /\
  (page_table_ b !! pid = None -> page_table_ b' !! pid = Some f).
Proof.
  intros (fl & rep & p & d & rep1 & Hsel & Hp & Hw & Hacc & -> & ->)%NewPage_Some.
  simpl.
  destruct (installed_frame b f rep rep1 p
              {| data_ := data_ p; page_id_ := next_page_id_ b;
                 pin_count_ := 1; is_dirty_ := false |} Hp Hacc)
    as (Hf & Hother & Hrep).
  split_and!; try done.
  - by exists p.
  - intros Hfresh. case_decide.
    + by apply (emplace_fresh _ _ _ _ true).
    + by apply (emplace_fresh _ _ _ 0 false).
Qed.

(** X10.  A frame that is reused is written back first when it is dirty:
    after a successful [NewPage] the disk is what the write of the frame's
    old bytes under its old page identifier made of it, and that write
    completed; a clean frame is reused without any disk request.  On a miss
    of [FetchPage] the same write-back comes first, and the read of the
    requested page follows it. *)
Theorem reused_frame_is_written_back_when_dirty
  (b : BufferPoolManager Disk) :
  (forall pid f b',
     NewPage iter INVALID_PAGE_ID disk_write disk_read b
     = Done (Some (pid, f), b') ->
     exists p,
       frame_at (pages_ b) f = Some p /\
       disk_scheduler_ b'
       = (if is_dirty_ p
          then (disk_write (page_id_ p) (data_ p) (disk_scheduler_ b)).1
          else disk_scheduler_ b) /\
       (is_dirty_ p = true ->
        (disk_write (page_id_ p) (data_ p) (disk_scheduler_ b)).2 = true)) /\
  (forall page_id f b',
     page_table_ b !! page_id = None ->
     FetchPage iter INVALID_PAGE_ID disk_write disk_read b page_id
     = Done (Some f, b') ->
     exists p,
       frame_at (pages_ b) f = Some p /\
       disk_scheduler_ b'
       = (disk_read page_id
            (if is_dirty_ p
             then (disk_write (page_id_ p) (data_ p) (disk_scheduler_ b)).1
             else disk_scheduler_ b)).1.1 /\
       (is_dirty_ p = true ->
        (disk_write (page_id_ p) (data_ p) (disk_scheduler_ b)).2 = true)).
Proof.
  split.
  - intros pid f b'
      (fl & rep & p & d & rep1 & Hsel & Hp & Hw & Hacc & -> & ->)%NewPage_Some.
    apply write_back_Done in Hw as [-> Hok]. by exists p.
  - intros page_id f b' Hmiss E.
    destruct (FetchPage_miss b page_id f b' Hmiss E)
      as (fl & rep & p & d & d' & buf & rep1 & Hsel & Hp & Hw & Hr & Hacc & ->).
    apply write_back_Done in Hw as [-> Hok]. exists p. simpl.
    by rewrite Hr.
Qed.

(** X11.  On a miss [FetchPage] reads the page from the disk into the frame
    it selected: afterwards the frame holds the bytes the read delivered and
    the requested page identifier, with pin count 1 and a clear dirty flag;
    the page table maps the page to the frame; the frame is tracked and not
    evictable; no other frame changes and no page identifier is allocated. *)
Theorem FetchPage_miss_reads_the_page_from_disk
  (b : BufferPoolManager Disk) page_id f b' :
  page_table_ b !! page_id = None ->
  FetchPage iter INVALID_PAGE_ID disk_write disk_read b page_id
  = Done (Some f, b') ->
  (exists p d,
     frame_at (pages_ b) f = Some p /\
     write_back disk_write disk_read p (disk_scheduler_ b) = Done d /\
     (disk_read page_id d).1.2 = true /\
     frame_at (pages_ b') f
     = Some {| data_ := (disk_read page_id d).2; page_id_ := page_id;
               pin_count_ := 1; is_dirty_ := false |}) /\
  (forall g, g <> f -> frame_at (pages_ b') g = frame_at (pages_ b) g) /\
  page_table_ b' !! page_id = Some f /\
  (exists n, node_store_ (replacer_ b') !! f = Some n /\
             is_evictable_ n = false) /\
  next_page_id_ b' = next_page_id_ b.
Proof.
  intros Hmiss E.
  destruct (FetchPage_miss b page_id f b' Hmiss E)
    as (fl & rep & p & d & d' & buf & rep1 & Hsel & Hp & Hw & Hr & Hacc & ->).
  simpl.
  destruct (installed_frame b f rep rep1 p
              {| data_ := buf; page_id_ := page_id;
                 pin_count_ := 1; is_dirty_ := false |} Hp Hacc)
    as (Hf & Hother & Hrep).
  split_and!; try done.
  - exists p, d. rewrite Hr. by split_and!.
  - case_decide.
    + by apply (emplace_fresh _ _ _ _ true).
    + by apply (emplace_fresh _ _ _ 0 false).
Qed.

(** X12.  [NewPage] and a miss of [FetchPage] return null only when they
    must: with a frame in the free list, or an evictable frame in the
    replacer, neither returns null. *)
Theorem no_null_while_a_frame_is_available
  (b : BufferPoolManager Disk) :
  bpm_inv b ->
  (free_list_ b <> [] \/
   exists f n, node_store_ (replacer_ b) !! f = Some n /\
               is_evictable_ n = true) ->
  (forall b', NewPage iter INVALID_PAGE_ID disk_write disk_read b
              <> Done (None, b')) /\
  (forall page_id b',
     page_table_ b !! page_id = None ->
     FetchPage iter INVALID_PAGE_ID disk_write disk_read b page_id
     <> Done (None, b')).
Proof.
  intros Hinv Havail.
  assert (Hsel : forall fl rep, select_frame iter b <> (None, fl, rep)).
  { intros fl rep Hsel.
    destruct (select_frame_None iter iter_perm Disk b fl rep
                (inv_replacer b Hinv) Hsel) as (Hfl & _ & _ & Hnone).
    destruct Havail as [?|(f & n & Hn & He)]; [done|].
    rewrite (Hnone f n Hn) in He. done. }
  split.
  - intros b'. unfold NewPage.
    destruct (select_frame iter b) as [[[f|] fl] rep] eqn:E;
      [|by destruct (Hsel fl rep)].
    destruct (frame_at (pages_ b) f); [|done].
    destruct (write_back _ _ _ _); simpl; try done.
    by destruct (RecordAccess rep f).
  - intros page_id b' Hmiss. unfold FetchPage. rewrite Hmiss.
    destruct (select_frame iter b) as [[[f|] fl] rep] eqn:E;
      [|by destruct (Hsel fl rep)].
    destruct (frame_at (pages_ b) f); [|done].
    destruct (write_back _ _ _ _); simpl; try done.
    destruct (Schedule _ _ _ _) as [[d' ok] buf]. destruct ok; simpl; [|done].
    by destruct (RecordAccess rep f).
Qed.

(** *** Evictable frames are not pinned *)

Lemma install_unpinned (b : BufferPoolManager Disk) f fl rep rep1 p q pt npid
  (d : Disk) :
  bpm_inv b -> evictable_unpinned b ->
  select_frame iter b = (Some f, fl, rep) ->
  frame_at (pages_ b) f = Some p ->
  RecordAccess rep f = Done rep1 ->
  evictable_unpinned
    {| pool_size_ := pool_size_ b; pages_ := set_frame (pages_ b) f q;
       page_table_ := pt; free_list_ := fl;
       replacer_ := SetEvictable rep1 f false;
       next_page_id_ := npid; disk_scheduler_ := d |}.
Proof.
  intros Hinv Hun Hsel Hp Hacc g n Hn He. simpl in *.
  destruct (select_frame_Some iter iter_perm Disk disk_write disk_read b f fl rep Hinv Hsel)
    as (_ & _ & _ & _ & _ & Hst).
  destruct (installed_frame b f rep rep1 p q Hp Hacc)
    as (_ & Hother & nf & Hnf & Hef).
  destruct (decide (g = f)) as [->|Hne]; [congruence|].
  rewrite Hother by done. apply (Hun g n); [|done].
  rewrite SetEvictable_lookup_ne in Hn by done.
  rewrite (RecordAccess_lookup_ne rep f rep1) in Hn by done.
  by rewrite Hst in Hn.
Qed.

Lemma NewPage_unpinned (b : BufferPoolManager Disk) res b' :
  bpm_inv b -> evictable_unpinned b ->
  NewPage iter INVALID_PAGE_ID disk_write disk_read b = Done (res, b') ->
  evictable_unpinned b'.
Proof.
  intros Hinv Hun E. destruct res as [[pid f]|].
  - apply NewPage_Some in E
      as (fl & rep & p & d & rep1 & Hsel & Hp & Hw & Hacc & -> & ->).
    by eapply install_unpinned.
  - revert E. unfold NewPage.
    destruct (select_frame iter b) as [[[f|] fl] rep] eqn:Hsel.
    + destruct (frame_at (pages_ b) f); [|done].
      destruct (write_back _ _ _ _); simpl; try done.
      by destruct (RecordAccess rep f).
    + destruct (select_frame_None iter iter_perm Disk b fl rep
                  (inv_replacer b Hinv) Hsel) as (Hfl & -> & -> & _).
      intros [= <-]. by rewrite <- Hfl, same_pool.
Qed.

Lemma FetchPage_unpinned (b : BufferPoolManager Disk) page_id res b' :
  bpm_inv b -> evictable_unpinned b ->
  FetchPage iter INVALID_PAGE_ID disk_write disk_read b page_id
  = Done (res, b') ->
  evictable_unpinned b'.
Proof.
  intros Hinv Hun E.
  destruct (page_table_ b !! page_id) as [f0|] eqn:Hpt.
  { unfold FetchPage in E. rewrite Hpt in E.
    destruct (frame_at (pages_ b) f0); [|done]. by injection E as <- <-. }
  destruct res as [f|].
  - destruct (FetchPage_miss b page_id f b' Hpt E)
      as (fl & rep & p & d & d' & buf & rep1 & Hsel & Hp & Hw & Hr & Hacc & ->).
    by eapply install_unpinned.
  - revert E. unfold FetchPage. rewrite Hpt.
    destruct (select_frame iter b) as [[[f|] fl] rep] eqn:Hsel.
    + destruct (frame_at (pages_ b) f); [|done].
      destruct (write_back _ _ _ _); simpl; try done.
      destruct (Schedule _ _ _ _) as [[d' ok] buf].
      destruct ok; simpl; [|done].
      by destruct (RecordAccess rep f).
    + destruct (select_frame_None iter iter_perm Disk b fl rep
                  (inv_replacer b Hinv) Hsel) as (Hfl & -> & -> & _).
      intros [= <-]. by rewrite <- Hfl, same_pool.
Qed.

Lemma UnpinPage_unpinned (b : BufferPoolManager Disk) page_id is_dirty res b' :
  evictable_unpinned b ->
  UnpinPage b page_id is_dirty = Done (res, b') -> evictable_unpinned b'.
Proof.
  intros Hun. unfold UnpinPage.
  destruct (page_table_ b !! page_id) as [f|] eqn:Hpt; [|by intros [= <- <-]].
  destruct (frame_at (pages_ b) f) as [p|] eqn:Hp; [|done].
  pose proof Hp as [Hf0 _]%frame_at_Some.
  assert (Hpin : pin_count_ (if is_dirty
                    then {| data_ := data_ p; page_id_ := page_id_ p;
                            pin_count_ := pin_count_ p; is_dirty_ := true |}
                    else p) = pin_count_ p) by by destruct is_dirty.
  rewrite !Hpin.
  destruct (Z.ltb_spec 0 (pin_count_ p)) as [Hpos|Hnpos]; intros [= <- <-];
    intros g n Hn He; simpl in *.
  - destruct (decide (g = f)) as [->|Hne].
    + rewrite (frame_at_set_frame _ _ p) by done. eexists. split; [done|].
      simpl. destruct (Z.eqb_spec (pin_count_ p - 1) 0) as [?|Hnz]; [done|].
      destruct (Hun f n Hn He) as (p' & Hp' & Hz). rewrite Hp in Hp'.
      injection Hp' as <-. lia.
    + rewrite frame_at_set_frame_ne by done. apply (Hun g n); [|done].
      destruct (_ =? 0); [|done]. by rewrite SetEvictable_lookup_ne in Hn.
  - destruct (decide (g = f)) as [->|Hne].
    + rewrite (frame_at_set_frame _ _ p) by done. eexists. split; [done|].
      rewrite Hpin. destruct (Hun f n Hn He) as (p' & Hp' & Hz).
      rewrite Hp in Hp'. by injection Hp' as <-.
    + rewrite frame_at_set_frame_ne by done. by apply (Hun g n).
Qed.

Lemma flush_frame_unpinned (b : BufferPoolManager Disk) f b' :
  evictable_unpinned b ->
  flush_frame disk_write disk_read b f = Done b' -> evictable_unpinned b'.
Proof.
  intros Hun. unfold flush_frame.
  destruct (frame_at (pages_ b) f) as [p|] eqn:Hp; [|done].
  pose proof Hp as [Hf0 _]%frame_at_Some.
  destruct (Schedule _ _ _ _) as [[d ok] buf]. destruct ok; simpl; [|done].
  intros [= <-] g n Hn He. simpl in *.
  destruct (Hun g n Hn He) as (p' & Hp' & Hz).
  destruct (decide (g = f)) as [->|Hne].
  - rewrite (frame_at_set_frame _ _ p) by done. eexists. split; [done|].
    simpl. rewrite Hp in Hp'. by injection Hp' as <-.
  - rewrite frame_at_set_frame_ne by done. by exists p'.
Qed.

Lemma FlushAllPages_unpinned (b : BufferPoolManager Disk) b' :
  evictable_unpinned b ->
  FlushAllPages disk_write disk_read b = Done b' -> evictable_unpinned b'.
Proof.
  unfold FlushAllPages. generalize (seqZ 0 (pool_size_ b)). intros l.
  revert b. induction l as [|i l IH]; intros b Hun; simpl.
  - by intros [= <-].
  - destruct (flush_frame disk_write disk_read b i) as [b1| |] eqn:E.
    + apply IH. by eapply flush_frame_unpinned.
    + clear. induction l; simpl; done.
    + clear. induction l; simpl; done.
Qed.

Lemma DeletePage_unpinned (b : BufferPoolManager Disk) page_id res b' :
  evictable_unpinned b ->
  DeletePage INVALID_PAGE_ID b page_id = Done (res, b') ->
  evictable_unpinned b'.
Proof.
  intros Hun. unfold DeletePage.
  destruct (page_table_ b !! page_id) as [f|] eqn:Hpt; [|by intros [= <- <-]].
  destruct (frame_at (pages_ b) f) as [p|] eqn:Hp; [|done].
  pose proof Hp as [Hf0 _]%frame_at_Some.
  destruct (0 <? pin_count_ p); intros [= <- <-]; [done|].
  intros g n Hn He. simpl in *.
  apply ReplacerMore.Remove_lookup_Some in Hn.
  destruct (Hun g n Hn He) as (p' & Hp' & Hz).
  destruct (decide (g = f)) as [->|Hne].
  - rewrite (frame_at_set_frame _ _ p) by done. eexists. split; [done|].
    simpl. rewrite Hp in Hp'. by injection Hp' as <-.
  - rewrite frame_at_set_frame_ne by done. by exists p'.
Qed.

Lemma reachable_pool_unpinned (b : BufferPoolManager Disk) :
  reachable_pool iter INVALID_PAGE_ID disk_write disk_read b ->
  evictable_unpinned b.
Proof.
  induction 1 as [| b res b' Hr | b pid res b' Hr | | | |].
  - intros f n Hn. simpl in Hn. by rewrite lookup_empty in Hn.
  - eapply NewPage_unpinned; [|done..].
    by apply (reachable_pool_inv iter iter_perm INVALID_PAGE_ID Disk
                disk_write disk_read).
  - eapply FetchPage_unpinned; [|done..].
    by apply (reachable_pool_inv iter iter_perm INVALID_PAGE_ID Disk
                disk_write disk_read).
  - by eapply UnpinPage_unpinned.
  - unfold FlushPage in *. destruct (page_table_ b !! page_id); [|by simplify_eq].
    destruct (flush_frame _ _ b z) as [b1| |] eqn:E; simpl in *; try done.
    simplify_eq. by eapply flush_frame_unpinned.
  - by eapply FlushAllPages_unpinned.
  - by eapply DeletePage_unpinned.
Qed.

(** X13.  A pinned frame is never chosen for eviction.  In every state a
    client can bring the pool into, a frame whose node in the replacer is
    evictable has pin count 0; so when the free list is empty, the frame
    that [NewPage] or a miss of [FetchPage] takes over had pin count 0. *)
Theorem eviction_never_takes_a_pinned_frame (b : BufferPoolManager Disk) :
  reachable_pool iter INVALID_PAGE_ID disk_write disk_read b ->
  (forall f n, node_store_ (replacer_ b) !! f = Some n ->
               is_evictable_ n = true ->
               exists p, frame_at (pages_ b) f = Some p /\ pin_count_ p = 0) /\
  (free_list_ b = [] ->
   (forall pid f b',
      NewPage iter INVALID_PAGE_ID disk_write disk_read b
      = Done (Some (pid, f), b') ->
      exists p, frame_at (pages_ b) f = Some p /\ pin_count_ p = 0) /\
   (forall page_id f b',
      page_table_ b !! page_id = None ->
      FetchPage iter INVALID_PAGE_ID disk_write disk_read b page_id
      = Done (Some f, b') ->
      exists p, frame_at (pages_ b) f = Some p /\ pin_count_ p = 0)).
Proof.
  intros Hr. pose proof (reachable_pool_unpinned b Hr) as Hun.
  pose proof (reachable_pool_inv iter iter_perm INVALID_PAGE_ID Disk
                disk_write disk_read b Hr) as Hinv.
  split; [exact Hun|]. intros Hfl.
  assert (Hvictim : forall f fl rep,
             select_frame iter b = (Some f, fl, rep) ->
             exists p, frame_at (pages_ b) f = Some p /\ pin_count_ p = 0).
  { intros f fl rep. unfold select_frame. rewrite Hfl.
    destruct (Evict_cases iter iter_perm (replacer_ b) (inv_replacer b Hinv))
      as [[-> _]|(v & nv & -> & Hv & Hev & _)]; [done|].
    intros [= <- <- <-]. by apply (Hun v nv). }
  split.
  - intros pid f b'
      (fl & rep & p & d & rep1 & Hsel & _)%NewPage_Some. by eapply Hvictim.
  - intros page_id f b' Hmiss E.
    destruct (FetchPage_miss b page_id f b' Hmiss E)
      as (fl & rep & p & d & d' & buf & rep1 & Hsel & _).
    by eapply Hvictim.
Qed.

(** *** Reachable pools *)

(** X14.  No operation of the pool indexes the frame array out of bounds:
    in every state a client can bring the pool into, each of the six
    operations either completes or stops at one of its assertions; the frame
    index it takes from the free list, the replacer or the page table (on a
    hit of [FetchPage] as well) is an index of the array. *)
Theorem frame_indices_stay_in_bounds (b : BufferPoolManager Disk) :
  reachable_pool iter INVALID_PAGE_ID disk_write disk_read b ->
  NewPage iter INVALID_PAGE_ID disk_write disk_read b <> Undefined /\
  (forall page_id,
     FetchPage iter INVALID_PAGE_ID disk_write disk_read b page_id
     <> Undefined) /\
  (forall page_id is_dirty, UnpinPage b page_id is_dirty <> Undefined) /\
  (forall page_id, FlushPage disk_write disk_read b page_id <> Undefined) /\
  FlushAllPages disk_write disk_read b <> Undefined /\
  (forall page_id, DeletePage INVALID_PAGE_ID b page_id <> Undefined).
Proof.
  intros Hr.
  pose proof (reachable_pool_inv iter iter_perm INVALID_PAGE_ID Disk
                disk_write disk_read b Hr) as Hinv.
  split_and!; intros.
  - by apply NewPage_defined.
  - by apply FetchPage_defined.
  - by apply UnpinPage_defined.
  - by apply FlushPage_defined.
  - by apply (FlushAllPages_defined iter iter_perm).
  - by apply DeletePage_defined.
Qed.

(** X15.  The bookkeeping of a pool a client can reach: the frame array
    keeps its [pool_size_] entries; the frames named by the free list, the
    page table and the replacer are indices of the array; no pin count is
    negative; a frame with pin count 0 is in the free list or evictable in
    the replacer, so it can be reused; and the replacer's count of evictable
    frames is what [Size] returns. *)
Theorem reachable_pool_bookkeeping (b : BufferPoolManager Disk) :
  reachable_pool iter INVALID_PAGE_ID disk_write disk_read b ->
  Z.of_nat (length (pages_ b)) = pool_size_ b /\
  (forall f, f ∈ free_list_ b -> 0 <= f < pool_size_ b) /\
  (forall pid f, page_table_ b !! pid = Some f -> 0 <= f < pool_size_ b) /\
  (forall f n, node_store_ (replacer_ b) !! f = Some n ->
               0 <= f < pool_size_ b) /\
  (forall i p, pages_ b !! i = Some p -> 0 <= pin_count_ p) /\
  (forall i p, pages_ b !! i = Some p -> pin_count_ p = 0 ->
     Z.of_nat i ∈ free_list_ b \/
     exists n, node_store_ (replacer_ b) !! Z.of_nat i = Some n /\
               is_evictable_ n = true) /\
  curr_size_ (replacer_ b) = evictable_count (node_store_ (replacer_ b)).
Proof.
  intros Hr.
  pose proof (reachable_pool_inv iter iter_perm INVALID_PAGE_ID Disk
                disk_write disk_read b Hr) as Hinv.
  assert (Hrange : forall f, is_frame (pages_ b) f -> 0 <= f < pool_size_ b).
  { intros f [_ [p [Hf0 Hp%lookup_lt_Some]%frame_at_Some]].
    rewrite <- (inv_size b Hinv). lia. }
  split_and!.
  - apply (inv_size b Hinv).
  - intros f Hf. by apply Hrange, (inv_free b Hinv).
  - intros pid f Hpt. by apply Hrange, (inv_table b Hinv pid).
  - intros f n Hn. by apply Hrange, (inv_tracked b Hinv f n).
  - apply (inv_pins b Hinv).
  - apply (inv_unpinned b Hinv).
  - apply (wf_size _ (inv_replacer b Hinv)).
Qed.

(** *** [DeletePage] *)

(** X16.  [DeletePage] on a page that is not resident returns true and
    changes nothing; on a pinned page it returns false and changes nothing.
    On a resident page with pin count 0 it returns true: the page has no
    entry in the page table any more, its frame is appended to the free list
    and is not evictable in the replacer any more, and the frame's page
    identifier becomes [INVALID_PAGE_ID].  The frame's bytes and its dirty
    flag stay: nothing is written to the disk, whether the page was dirty
    or not.  No other frame, page-table entry or replacer node changes. *)
Theorem DeletePage_behaviour (b : BufferPoolManager Disk) page_id :
  bpm_inv b ->
  (page_table_ b !! page_id = None ->
   DeletePage INVALID_PAGE_ID b page_id = Done (true, b)) /\
  (forall f,
     page_table_ b !! page_id = Some f ->
     exists p,
       frame_at (pages_ b) f = Some p /\
       (0 < pin_count_ p ->
        DeletePage INVALID_PAGE_ID b page_id = Done (false, b)) /\
       (pin_count_ p = 0 ->
        exists b',
          DeletePage INVALID_PAGE_ID b page_id = Done (true, b') /\
          page_table_ b' !! page_id = None /\
          (forall q, q <> page_id ->
             page_table_ b' !! q = page_table_ b !! q) /\
          frame_at (pages_ b') f
          = Some {| data_ := data_ p; page_id_ := INVALID_PAGE_ID;
                    pin_count_ := 0; is_dirty_ := is_dirty_ p |} /\
          (forall g, g <> f ->
             frame_at (pages_ b') g = frame_at (pages_ b) g) /\
          free_list_ b' = free_list_ b ++ [f] /\
          (forall n, node_store_ (replacer_ b') !! f = Some n ->
                     is_evictable_ n = false) /\
          (forall g, g <> f ->
             node_store_ (replacer_ b') !! g
             = node_store_ (replacer_ b) !! g) /\
          next_page_id_ b' = next_page_id_ b /\
          disk_scheduler_ b' = disk_scheduler_ b)).
Proof.
  intros Hinv. split.
  - intros H. unfold DeletePage. by rewrite H.
  - intros f Hpt.
    destruct (inv_table b Hinv page_id f Hpt) as [[_ [p Hp]] _].
    pose proof Hp as [Hf0 _]%frame_at_Some.
    exists p. split; [done|]. unfold DeletePage. rewrite Hpt, Hp. split.
    + intros Hpos. by destruct (Z.ltb_spec 0 (pin_count_ p)); [|lia].
    + intros Hz. destruct (Z.ltb_spec 0 (pin_count_ p)); [lia|].
      eexists. split; [reflexivity|]. simpl. split_and!; try done.
      * apply lookup_delete_eq.
      * intros q Hq. by apply lookup_delete_ne.
      * rewrite (frame_at_set_frame _ _ p) by done. by rewrite Hz.
      * intros g Hg. by apply frame_at_set_frame_ne.
      * intros n. unfold Remove.
        destruct (node_store_ (replacer_ b) !! f) as [m|] eqn:Hm.
        -- destruct (is_evictable_ m) eqn:Hem; simpl.
           ++ by rewrite lookup_delete_eq.
           ++ rewrite Hm. by intros [= <-].
        -- by rewrite Hm.
      * intros g Hg. by apply Remove_lookup_ne.
Qed.

(** *** [FlushAllPages] *)

Lemma flush_fold_Fatal (l : list Z) :
  fold_left (fun acc i => let! b' := acc in
                          flush_frame disk_write disk_read b' i)
            l (Fatal : outcome (BufferPoolManager Disk)) = Fatal.
Proof. induction l; simpl; done. Qed.

Lemma flush_frame_at (b : BufferPoolManager Disk) pre p rest :
  pages_ b = pre ++ p :: rest ->
  flush_frame disk_write disk_read b (Z.of_nat (length pre))
  = if (disk_write (page_id_ p) (data_ p) (disk_scheduler_ b)).2
    then Done {| pool_size_ := pool_size_ b;
                 pages_ := pre ++ clean p :: rest;
                 page_table_ := page_table_ b; free_list_ := free_list_ b;
                 replacer_ := replacer_ b; next_page_id_ := next_page_id_ b;
                 disk_scheduler_ :=
                   (disk_write (page_id_ p) (data_ p) (disk_scheduler_ b)).1 |}
    else Fatal.
Proof.
  intros H. unfold flush_frame, frame_at, set_frame, Schedule. simpl.
  rewrite decide_True by lia. rewrite Nat2Z.id, H.
  rewrite list_lookup_middle by done.
  destruct (disk_write _ _ _) as [d ok]. destruct ok; simpl; [|done].
  rewrite insert_app_r_alt by done. by rewrite Nat.sub_diag.
Qed.

Lemma flush_fold (rest : list Page) :
  forall (pre : list Page) (b : BufferPoolManager Disk),
  pages_ b = pre ++ rest ->
  fold_left (fun acc i => let! b' := acc in
                          flush_frame disk_write disk_read b' i)
            (seqZ (Z.of_nat (length pre)) (Z.of_nat (length rest))) (Done b)
  = if writes_succeed disk_write rest (disk_scheduler_ b)
    then Done {| pool_size_ := pool_size_ b;
                 pages_ := pre ++ (clean <$> rest);
                 page_table_ := page_table_ b; free_list_ := free_list_ b;
                 replacer_ := replacer_ b; next_page_id_ := next_page_id_ b;
                 disk_scheduler_ :=
                   write_all disk_write rest (disk_scheduler_ b) |}
    else Fatal.
Proof.
  induction rest as [|p rest IH]; intros pre b H.
  - simpl. rewrite app_nil_r in *. rewrite <- H. by rewrite same_pool.
  - rewrite seqZ_cons by (simpl; lia). cbn [fold_left obind].
    rewrite (flush_frame_at b pre p rest H). cbn [writes_succeed].
    destruct (disk_write (page_id_ p) (data_ p) (disk_scheduler_ b))
      as [d ok] eqn:Ew.
    destruct ok; cbn [fst snd andb]; [|apply flush_fold_Fatal].
    replace (Z.succ (Z.of_nat (length pre)))
      with (Z.of_nat (length (pre ++ [clean p])))
      by (rewrite length_app; simpl; lia).
    replace (Z.pred (Z.of_nat (length (p :: rest))))
      with (Z.of_nat (length rest)) by (simpl; lia).
    rewrite (IH (pre ++ [clean p])); cbn [pages_ disk_scheduler_ pool_size_
      page_table_ free_list_ replacer_ next_page_id_].
    + unfold write_all at 2. cbn [fold_left]. rewrite Ew. cbn [fst].
      by rewrite <- app_assoc.
    + by rewrite <- app_assoc.
Qed.

(** X17.  [FlushAllPages] writes every frame of the pool to the disk, in
    the order of the frame array and each under the page identifier the
    frame holds, whether the frame is dirty or not and whether it holds a
    page or not.  When every write completes, all dirty flags are cleared
    and nothing else changes; when a write fails, the call stops at its
    assertion. *)
Theorem FlushAllPages_writes_every_frame (b : BufferPoolManager Disk) :
  Z.of_nat (length (pages_ b)) = pool_size_ b ->
  FlushAllPages disk_write disk_read b
  = if writes_succeed disk_write (pages_ b) (disk_scheduler_ b)
    then Done {| pool_size_ := pool_size_ b;
                 pages_ := clean <$> pages_ b;
                 page_table_ := page_table_ b; free_list_ := free_list_ b;
                 replacer_ := replacer_ b; next_page_id_ := next_page_id_ b;
                 disk_scheduler_ :=
                   write_all disk_write (pages_ b) (disk_scheduler_ b) |}
    else Fatal.
Proof.
  intros Hsize. unfold FlushAllPages.
  pose proof (flush_fold (pages_ b) [] b eq_refl) as H.
  cbn [length app] in H. change (Z.of_nat 0) with 0 in H.
  by rewrite Hsize in H.
Qed.

(** *** The life of a page *)

(** X18.  A page that [NewPage] has just created under an identifier the
    page table did not know: [DeletePage] refuses it while it is pinned;
    [UnpinPage] succeeds, takes the pin count to 0, records the dirty flag
    it is given and makes the frame evictable; a second [UnpinPage] returns
    false; and [DeletePage] then succeeds, after which the page is not in
    the page table, and its frame is in the free list and not tracked by
    the replacer. *)
Theorem life_of_a_new_page (b : BufferPoolManager Disk) pid f b1 :
  NewPage iter INVALID_PAGE_ID disk_write disk_read b
  = Done (Some (pid, f), b1) ->
  page_table_ b !! pid = None ->
  DeletePage INVALID_PAGE_ID b1 pid = Done (false, b1) /\
  forall is_dirty,
    exists b2,
      UnpinPage b1 pid is_dirty = Done (true, b2) /\
      (exists p, frame_at (pages_ b2) f = Some p /\ page_id_ p = pid /\
                 pin_count_ p = 0 /\ is_dirty_ p = is_dirty) /\
      (exists n, node_store_ (replacer_ b2) !! f = Some n /\
                 is_evictable_ n = true) /\
      (forall d, exists b3, UnpinPage b2 pid d = Done (false, b3)) /\
      exists b3,
        DeletePage INVALID_PAGE_ID b2 pid = Done (true, b3) /\
        page_table_ b3 !! pid = None /\
        f ∈ free_list_ b3 /\
        node_store_ (replacer_ b3) !! f = None.
Proof.
  intros E Hfresh.
  pose proof E as
    (fl & rep & p & d & rep1 & Hsel & Hp & Hw & Hacc & -> & ->)%NewPage_Some.
  pose proof Hp as [Hf0 _]%frame_at_Some.
  destruct (installed_frame b f rep rep1 p
              {| data_ := data_ p; page_id_ := next_page_id_ b;
                 pin_count_ := 1; is_dirty_ := false |} Hp Hacc)
    as (Hf & _ & n & Hn & He).
  set (pt := emplace _ _ _).
  assert (Hpt : pt !! next_page_id_ b = Some f).
  { subst pt. case_decide.
    - by apply (emplace_fresh _ _ _ _ true).
    - by apply (emplace_fresh _ _ _ 0 false). }
  split.
  - unfold DeletePage. cbn [page_table_ pages_]. by rewrite Hpt, Hf.
  - intros is_dirty. unfold UnpinPage at 1. cbn [page_table_ pages_].
    rewrite Hpt, Hf.
    replace (0 <? pin_count_ _) with true by by destruct is_dirty.
    eexists. split; [reflexivity|].
    cbn [pages_ replacer_ page_table_ free_list_].
    assert (Hf2 : forall q,
               frame_at (set_frame (set_frame (pages_ b) f
                 {| data_ := data_ p; page_id_ := next_page_id_ b;
                    pin_count_ := 1; is_dirty_ := false |}) f q) f = Some q).
    { intros q. by eapply frame_at_set_frame. }
    replace (pin_count_ _ =? 0) with true by by destruct is_dirty.
    pose proof (SetEvictable_lookup (SetEvictable rep1 f false) f true n Hn)
      as Hn2.
    split_and!.
    + eexists. split; [apply Hf2|]. by destruct is_dirty.
    + eexists. by split; [apply Hn2|].
    + intros d0. unfold UnpinPage. cbn [page_table_ pages_].
      rewrite Hpt, Hf2. eexists.
      replace (0 <? pin_count_ _) with false by by destruct d0, is_dirty.
      reflexivity.
    + unfold DeletePage. cbn [page_table_ pages_]. rewrite Hpt, Hf2.
      replace (0 <? pin_count_ _) with false by by destruct is_dirty.
      eexists. split; [reflexivity|]. simpl. split_and!.
      * apply lookup_delete_eq.
      * set_solver.
      * unfold Remove. rewrite Hn2. simpl. apply lookup_delete_eq.
Qed.

End Pool.

Lemma NewPage_installs_a_pinned_clean_page_witness :
  frame_at (pages_ pool1_pinned) 0
  = Some {| data_ := []; page_id_ := 0; pin_count_ := 1; is_dirty_ := false |}
  /\ next_page_id_ pool1_pinned = to_int (next_page_id_ pool1 + 1).
Proof.
  destruct (NewPage_installs_a_pinned_clean_page map_to_list (-1)
              (list Request.t) log_write log_read pool1 0 0 pool1_pinned
              pool1_NewPage)
    as (_ & Hnext & (p & Hp & Hf) & _).
  split; [|exact Hnext].
  rewrite Hf. injection Hp as <-. reflexivity.
Defined.

Lemma FetchPage_miss_reads_the_page_from_disk_witness :
  exists b',
    FetchPage map_to_list (-1) log_write log_read pool1 7 = Done (Some 0, b') /\
    page_table_ b' !! 7 = Some 0 /\
    next_page_id_ b' = next_page_id_ pool1.
Proof.
  destruct (FetchPage map_to_list (-1) log_write log_read pool1 7)
    as [[[f|] b']| |] eqn:E; try (vm_compute in E; discriminate E).
  assert (f = 0) as -> by (vm_compute in E; congruence).
  destruct (FetchPage_miss_reads_the_page_from_disk map_to_list (-1)
              (list Request.t) log_write log_read pool1 7 0 b' eq_refl E)
    as (_ & _ & Hpt & _ & Hnext).
  exists b'. split; [reflexivity|]. split; [exact Hpt|exact Hnext].
Defined.

Lemma pool1_unpinned_inv : bpm_inv pool1_unpinned.
Proof.
  apply (UnpinPage_inv (list Request.t) pool1_pinned 0 false true).
  - exact pool1_pinned_inv.
  - exact pool1_UnpinPage.
Qed.

Lemma no_null_while_a_frame_is_available_witness :
  (forall b', NewPage map_to_list (-1) log_write log_read pool1_unpinned
              <> Done (None, b')) /\
  (forall page_id b',
     page_table_ pool1_unpinned !! page_id = None ->
     FetchPage map_to_list (-1) log_write log_read pool1_unpinned page_id
     <> Done (None, b')).
Proof.
  apply (no_null_while_a_frame_is_available map_to_list
           (fun m => reflexivity _) (-1) (list Request.t) log_write log_read
           pool1_unpinned).
  - exact pool1_unpinned_inv.
  - right. exists 0, (node_of 0 [0] true). split; reflexivity.
Defined.

Lemma pool1_unpinned_reachable :
  reachable_pool map_to_list (-1) log_write log_read pool1_unpinned.
Proof.
  apply (pool_UnpinPage map_to_list (-1) (list Request.t) log_write log_read
           pool1_pinned 0 false true); [|exact pool1_UnpinPage].
  apply (pool_NewPage map_to_list (-1) (list Request.t) log_write log_read
           pool1 (Some (0, 0))); [|simpl; lia|exact pool1_NewPage].
  unfold pool1. apply pool_new; lia.
Qed.

Lemma pool1_dirty_UnpinPage :
  UnpinPage pool1_pinned 0 true = Done (true, pool1_dirty).
Proof. vm_compute. reflexivity. Qed.

Lemma reused_frame_is_written_back_when_dirty_witness :
  (exists b',
     NewPage map_to_list (-1) log_write log_read pool1_dirty
     = Done (Some (1, 0), b') /\
     disk_scheduler_ b'
     = [{| Request.is_write_ := true; Request.data_ := [];
           Request.page_id_ := 0 |}]) /\
  (exists b',
     FetchPage map_to_list (-1) log_write log_read pool1_dirty 7
     = Done (Some 0, b') /\
     disk_scheduler_ b'
     = [{| Request.is_write_ := true; Request.data_ := [];
           Request.page_id_ := 0 |};
        {| Request.is_write_ := false; Request.data_ := [];
           Request.page_id_ := 7 |}]).
Proof.
  destruct (reused_frame_is_written_back_when_dirty map_to_list (-1)
              (list Request.t) log_write log_read pool1_dirty) as [H1 H2].
  split.
  - destruct (NewPage map_to_list (-1) log_write log_read pool1_dirty)
      as [[[[pid f]|] b']| |] eqn:E; try (vm_compute in E; discriminate E).
    assert (pid = 1 /\ f = 0) as [-> ->]
      by (vm_compute in E; split; congruence).
    destruct (H1 1 0 b' eq_refl) as (p & Hp & Hd & _).
    vm_compute in Hp. injection Hp as <-.
    exists b'. split; [reflexivity|exact Hd].
  - destruct (FetchPage map_to_list (-1) log_write log_read pool1_dirty 7)
      as [[[f|] b']| |] eqn:E; try (vm_compute in E; discriminate E).
    assert (f = 0) as -> by (vm_compute in E; congruence).
    destruct (H2 7 0 b' eq_refl E) as (p & Hp & Hd & _).
    vm_compute in Hp. injection Hp as <-.
    exists b'. split; [reflexivity|exact Hd].
Defined.

Lemma eviction_never_takes_a_pinned_frame_witness :
  exists p, frame_at (pages_ pool1_unpinned) 0 = Some p /\ pin_count_ p = 0.
Proof.
  destruct (eviction_never_takes_a_pinned_frame map_to_list
              (fun m => reflexivity _) (-1) (list Request.t) log_write
              log_read pool1_unpinned pool1_unpinned_reachable) as [H _].
  apply (H 0 (node_of 0 [0] true)); reflexivity.
Defined.

Lemma frame_indices_stay_in_bounds_witness :
  NewPage map_to_list (-1) log_write log_read pool1_unpinned <> Undefined /\
  (forall page_id,
     FetchPage map_to_list (-1) log_write log_read pool1_unpinned page_id
     <> Undefined) /\
  forall page_id, DeletePage (-1) pool1_unpinned page_id <> Undefined.
Proof.
  destruct (frame_indices_stay_in_bounds map_to_list (fun m => reflexivity _)
              (-1) (list Request.t) log_write log_read pool1_unpinned
              pool1_unpinned_reachable) as (H1 & H2 & _ & _ & _ & H6).
  split; [exact H1|]. split; [exact H2|exact H6].
Defined.

Lemma reachable_pool_bookkeeping_witness :
  Z.of_nat (length (pages_ pool1_unpinned)) = 1 /\
  forall i p, pages_ pool1_unpinned !! i = Some p -> 0 <= pin_count_ p.
Proof.
  destruct (reachable_pool_bookkeeping map_to_list (fun m => reflexivity _)
              (-1) (list Request.t) log_write log_read pool1_unpinned
              pool1_unpinned_reachable) as (H1 & _ & _ & _ & H5 & _).
  split; [exact H1|exact H5].
Defined.

Lemma DeletePage_behaviour_witness :
  exists b',
    DeletePage (-1) pool1_unpinned 0 = Done (true, b') /\
    page_table_ b' !! 0 = None /\
    free_list_ b' = [0] /\
    disk_scheduler_ b' = disk_scheduler_ pool1_unpinned.
Proof.
  destruct (DeletePage_behaviour (-1) (list Request.t) pool1_unpinned 0
              pool1_unpinned_inv) as [_ H].
  destruct (H 0 eq_refl) as (p & Hp & _ & Hz).
  vm_compute in Hp. injection Hp as <-.
  destruct (Hz eq_refl) as (b' & E & Hpt & _ & _ & _ & Hfl & _ & _ & _ & Hd).
  exists b'. split; [exact E|]. split; [exact Hpt|].
  split; [exact Hfl|exact Hd].
Defined.

Lemma FlushAllPages_writes_every_frame_witness :
  exists b',
    FlushAllPages log_write log_read pool1_pinned = Done b' /\
    pages_ b' = clean <$> pages_ pool1_pinned /\
    disk_scheduler_ b'
    = [{| Request.is_write_ := true; Request.data_ := [];
          Request.page_id_ := 0 |}].
Proof.
  eexists. split.
  - exact (FlushAllPages_writes_every_frame (list Request.t) log_write
             log_read pool1_pinned eq_refl).
  - split; reflexivity.
Defined.

Lemma life_of_a_new_page_witness :
  DeletePage (-1) pool1_pinned 0 = Done (false, pool1_pinned) /\
  exists b2, UnpinPage pool1_pinned 0 true = Done (true, b2).
Proof.
  destruct (life_of_a_new_page map_to_list (fun m => reflexivity _) (-1)
              (list Request.t) log_write log_read pool1 0 0 pool1_pinned
              pool1_NewPage eq_refl)
    as [H1 H2].
  split; [exact H1|].
  destruct (H2 true) as (b2 & E & _). exists b2. exact E.
Defined.

End BPMMore.

(** * More on the immutable trie *)

Module TrieMore.

Import Trie TrieFacts.

Local Open Scope nat_scope.

(** *** [Get], one byte at a time *)

Lemma Get_value_at h root_ key T :
  Get h root_ key T
  = match Get_walk h root_ key with
    | None => None
    | Some p => value_at (h !!! p) T
    end.
Proof. reflexivity. Qed.

Lemma Get_None h key T : Get h None key T = None.
Proof. unfold Get. by rewrite Get_walk_None. Qed.

Lemma Get_nil h p T : Get h (Some p) [] T = value_at (h !!! p) T.
Proof. reflexivity. Qed.

Lemma Get_cons h p c key T :
  Get h (Some p) (c :: key) T = Get h (children_ (h !!! p) !! c) key T.
Proof. reflexivity. Qed.

Lemma Get_app h key1 key2 root_ T :
  Get h root_ (key1 ++ key2) T = Get h (Get_walk h root_ key1) key2 T.
Proof. unfold Get. by rewrite Get_walk_app. Qed.

Lemma value_at_set_children ch n T :
  value_at (set_children ch n) T = value_at n T.
Proof. by destruct n. Qed.

Lemma handle_child h p c :
  closed h -> handle h (children_ (h !!! p) !! c).
Proof.
  intros Hc. destruct (children_ (h !!! p) !! c) as [q|] eqn:E; [|done].
  by eapply closed_children_total.
Qed.

(** *** [Put] and the other keys *)

Lemma Put_loop_frame h0 key v : closed h0 -> key <> [] ->
  forall h curr o key' T,
  length h0 <= curr -> length h = S curr ->
  unchanged_below (length h0) h0 h ->
  match o with
  | Some p => p < length h0 /\ h !!! curr = h0 !!! p
  | None => h !!! curr = Node ∅
  end ->
  key' <> key ->
  Get (Put_loop h curr key v) (Some curr) key' T = Get h0 o key' T.
Proof.
  intros Hc0. induction key as [|c key IH]; [done|].
  intros _ h curr o key' T HL Hlen U Hm Hne.
  assert (Hval : value_at (h !!! curr) T = Get h0 o [] T).
  { destruct o as [p|]; [by destruct Hm as [_ ->]|by rewrite Hm]. }
  assert (Hch : forall c', Get_walk h0 o [c'] = children_ (h !!! curr) !! c').
  { intros c'. destruct o as [p|]; simpl; [by destruct Hm as [_ ->]|].
    by rewrite Hm. }
  assert (Hstable : forall h' c' k,
             unchanged_below (length h0) h0 h' ->
             Get h' (children_ (h !!! curr) !! c') k T
             = Get h0 o (c' :: k) T).
  { intros h' c' k U'. change (c' :: k) with ([c'] ++ k).
    rewrite Get_app, Hch. apply Get_stable; [done..|].
    rewrite <- Hch. destruct o as [p|]; [|done]. simpl.
    by apply handle_child. }
  destruct key as [|c1 key].
  - (* the last byte *)
    rewrite Put_loop_last. cbv zeta.
    set (h1 := h ++ [NodeWithValue (type_of v) ∅ (Some (moved v))]).
    assert (Hl1 : length h1 = S (length h))
      by (unfold h1; rewrite length_app; simpl; lia).
    assert (U1 : unchanged_below (length h0) h h1)
      by (apply unchanged_alloc; lia).
    assert (Hnv : h1 !!! length h
                  = NodeWithValue (type_of v) ∅ (Some (moved v)))
      by apply alloc_total_new.
    assert (Hcur1 : h1 !!! curr = h !!! curr)
      by (apply alloc_total_old; lia).
    rewrite Hcur1.
    destruct (children_ (h !!! curr) !! c) as [n|] eqn:En.
    + assert (Hn : n < length h0).
      { specialize (Hch c). rewrite En in Hch.
        destruct o as [p|]; [|done]. simpl in Hch.
        by eapply closed_children_total. }
      assert (Hn1 : h1 !!! n = h0 !!! n).
      { unfold h1. rewrite alloc_total_old by lia.
        by apply (unchanged_total (length h0)). }
      rewrite Hn1.
      set (h2 := if decide (children_ (h0 !!! n) = ∅) then h1
                 else assign_children h1 (length h) (children_ (h0 !!! n))).
      assert (Hl2 : length h2 = length h1)
        by (unfold h2; case_decide; [done|apply length_assign_children]).
      assert (U2 : unchanged_below (length h0) h1 h2).
      { unfold h2. case_decide; [apply unchanged_refl|].
        apply unchanged_assign. lia. }
      assert (Hnv2 : children_ (h2 !!! length h) = children_ (h0 !!! n)).
      { unfold h2. case_decide as E.
        - by rewrite Hnv, E.
        - rewrite assign_children_total_eq by lia.
          by rewrite children_set_children. }
      assert (Hcur2 : h2 !!! curr = h !!! curr).
      { unfold h2. case_decide; [done|].
        rewrite assign_children_total_ne by lia. done. }
      set (h3 := set_child h2 curr c (length h)).
      assert (U3 : unchanged_below (length h0) h0 h3).
      { eapply unchanged_trans; [exact U|].
        eapply unchanged_trans; [exact U1|].
        eapply unchanged_trans; [exact U2|]. by apply unchanged_assign. }
      assert (Hcur3 : h3 !!! curr
                      = set_children (<[c := length h]> (children_ (h !!! curr)))
                                     (h !!! curr)).
      { unfold h3. rewrite set_child_total_eq by lia. by rewrite Hcur2. }
      assert (Hnv3 : children_ (h3 !!! length h) = children_ (h0 !!! n)).
      { unfold h3, set_child. rewrite assign_children_total_ne by lia. done. }
      destruct key' as [|c' k].
      * rewrite Get_nil, Hcur3, value_at_set_children. done.
      * rewrite Get_cons, Hcur3, children_set_children.
        destruct (decide (c' = c)) as [->|Hcc].
        -- rewrite lookup_insert_eq. destruct k as [|c2 k]; [done|].
           rewrite Get_cons, Hnv3.
           rewrite (Get_stable h0 h3) by (done || by apply handle_child).
           change (c :: c2 :: k) with ([c] ++ c2 :: k).
           rewrite Get_app, Hch, En. done.
        -- rewrite lookup_insert_ne by done. by apply Hstable.
    + set (h3 := set_child h1 curr c (length h)).
      assert (U3 : unchanged_below (length h0) h0 h3).
      { eapply unchanged_trans; [exact U|].
        eapply unchanged_trans; [exact U1|]. by apply unchanged_assign. }
      assert (Hcur3 : h3 !!! curr
                      = set_children (<[c := length h]> (children_ (h !!! curr)))
                                     (h !!! curr)).
      { unfold h3. rewrite set_child_total_eq by lia. by rewrite Hcur1. }
      assert (Hnv3 : children_ (h3 !!! length h) = ∅).
      { unfold h3, set_child. rewrite assign_children_total_ne by lia.
        by rewrite Hnv. }
      destruct key' as [|c' k].
      * rewrite Get_nil, Hcur3, value_at_set_children. done.
      * rewrite Get_cons, Hcur3, children_set_children.
        destruct (decide (c' = c)) as [->|Hcc].
        -- rewrite lookup_insert_eq. destruct k as [|c2 k]; [done|].
           rewrite Get_cons, Hnv3, lookup_empty, Get_None.
           change (c :: c2 :: k) with ([c] ++ c2 :: k).
           by rewrite Get_app, Hch, En, Get_None.
        -- rewrite lookup_insert_ne by done. by apply Hstable.
  - (* a byte before the last *)
    rewrite Put_loop_step.
    set (x := match children_ (h !!! curr) !! c with
              | Some n => Clone (h !!! n)
              | None => Node ∅
              end).
    set (h2 := set_child (h ++ [x]) curr c (length h)).
    assert (Hl2 : length h2 = S (length h)).
    { unfold h2, set_child. rewrite length_assign_children, length_app.
      simpl. lia. }
    assert (U2 : unchanged_below (length h0) h h2).
    { eapply unchanged_trans; [apply (unchanged_alloc _ h x); lia|].
      by apply unchanged_assign. }
    assert (U02 : unchanged_below (length h0) h0 h2)
      by (eapply unchanged_trans; [exact U|exact U2]).
    destruct (Put_loop_spec (c1 :: key) v ltac:(done) h2 (length h) Hl2)
      as [U3 _].
    set (h3 := Put_loop h2 (length h) (c1 :: key) v) in *.
    assert (U03 : unchanged_below (length h0) h0 h3).
    { eapply unchanged_trans; [exact U02|].
      eapply unchanged_weaken; [|exact U3]. lia. }
    assert (Hcur3 : h3 !!! curr
                    = set_children (<[c := length h]> (children_ (h !!! curr)))
                                   (h !!! curr)).
    { rewrite (unchanged_total (length h) h2 h3) by (done || lia).
      unfold h2. rewrite set_child_total_eq
        by (rewrite length_app; simpl; lia).
      rewrite alloc_total_old by lia. done. }
    destruct key' as [|c' k].
    + rewrite Get_nil, Hcur3, value_at_set_children. done.
    + rewrite Get_cons, Hcur3, children_set_children.
      destruct (decide (c' = c)) as [->|Hcc].
      * rewrite lookup_insert_eq.
        unfold h3. rewrite (IH ltac:(done) h2 (length h)
                              (children_ (h !!! curr) !! c) k T);
          try done; try lia.
        -- change (c :: k) with ([c] ++ k). by rewrite Get_app, Hch.
        -- assert (Hx : h2 !!! length h = x).
           { unfold h2, set_child. rewrite assign_children_total_ne by lia.
             apply alloc_total_new. }
           rewrite Hx. unfold x.
           destruct (children_ (h !!! curr) !! c) as [n|] eqn:En; [|done].
           assert (Hn : n < length h0).
           { specialize (Hch c). rewrite En in Hch.
             destruct o as [p|]; [|done]. simpl in Hch.
             by eapply closed_children_total. }
           split; [done|]. unfold Clone.
           by apply (unchanged_total (length h0)).
        -- congruence.
      * rewrite lookup_insert_ne by done. by apply Hstable.
Qed.

Lemma Put_same_key h root_ key v T :
  Get (Put h root_ key v).1 (Put h root_ key v).2 key T
  = if decide (type_of v = T) then Some (moved v) else None.
Proof.
  rewrite Get_value_at.
  assert (exists l ch,
             Get_walk (Put h root_ key v).1 (Put h root_ key v).2 key = Some l /\
             (Put h root_ key v).1 !!! l
             = NodeWithValue (type_of v) ch (Some (moved v)))
    as (l & ch & -> & ->);
    [|done].
  unfold Put. destruct key as [|c key].
  - simpl. destruct root_ as [r|]; simpl.
    + exists (length h). eexists. split; [done|].
      rewrite assign_children_total_eq by (rewrite length_app; simpl; lia).
      by rewrite alloc_total_new.
    + exists (length h). eexists. split; [done|]. apply alloc_total_new.
  - set (x := match root_ with
              | Some r => alloc h (Clone (h !!! r))
              | None => alloc h (Node ∅)
              end).
    assert (exists n, x = (h ++ [n], length h)) as [n ->]
      by (unfold x; destruct root_; by eexists).
    cbn [fst snd].
    destruct (Put_loop_spec (c :: key) v ltac:(done) (h ++ [n]) (length h))
      as (_ & l & ch & Hw & Hl).
    { rewrite length_app. simpl. lia. }
    by exists l, ch.
Qed.

Lemma Put_other_key h root_ key v key' T :
  closed h -> handle h root_ -> key' <> key ->
  Get (Put h root_ key v).1 (Put h root_ key v).2 key' T = Get h root_ key' T.
Proof.
  intros Hc Hr Hk.
  unfold Put. destruct key as [|c key].
  - destruct key' as [|c' k]; [done|].
    destruct root_ as [r|]; cbn [alloc fst snd].
    + rewrite Get_cons.
      rewrite assign_children_total_eq by (rewrite length_app; simpl; lia).
      rewrite children_set_children, alloc_total_old by done.
      rewrite Get_cons. apply Get_stable; [done| |by apply handle_child].
      eapply unchanged_trans; [by apply unchanged_alloc|].
      by apply unchanged_assign.
    + rewrite Get_cons, alloc_total_new. simpl.
      by rewrite lookup_empty, !Get_None.
  - set (x := match root_ with
              | Some r => alloc h (Clone (h !!! r))
              | None => alloc h (Node ∅)
              end).
    assert (exists n, x = (h ++ [n], length h) /\
              match root_ with
              | Some p => p < length h /\ n = h !!! p
              | None => n = Node ∅
              end) as (n & -> & Hn).
    { unfold x. destruct root_; by eexists. }
    cbn [fst snd].
    apply (Put_loop_frame h (c :: key) v Hc ltac:(done)); try done.
    + rewrite length_app. simpl. lia.
    + by apply unchanged_alloc.
    + rewrite alloc_total_new. destruct root_; done.
Qed.

(** X19.  What [Get] returns on the trie [Put] returns, for every key and
    every type asked for: under the key that was put, the object [Put]
    constructed from the value by a move (the value itself, but for a
    [MoveBlocked], which comes back with [waited_] set) when its type is the
    type asked for, and null otherwise, whatever the key held before; under
    every other key, what the trie [Put] was called on returns. *)
Theorem Get_after_Put h root_ key v key' T :
  closed h -> handle h root_ ->
  Get (Put h root_ key v).1 (Put h root_ key v).2 key' T
  = if decide (key' = key)
    then (if decide (type_of v = T) then Some (moved v) else None)
    else Get h root_ key' T.
Proof.
  intros Hc Hr. case_decide as Hk.
  - subst key'. apply Put_same_key.
  - by apply Put_other_key.
Qed.

Lemma trie_a_handle : handle trie_a.1 trie_a.2.
Proof. apply Put_closed, closed_nil. Qed.

Lemma trie_ab_closed : closed trie_ab.1 /\ handle trie_ab.1 trie_ab.2.
Proof. apply Put_closed, trie_a_closed. Qed.

Lemma Get_after_Put_witness :
  Get (Put trie_ab.1 trie_ab.2 (key_of "a") (V_MoveBlocked false)).1
      (Put trie_ab.1 trie_ab.2 (key_of "a") (V_MoveBlocked false)).2
      (key_of "a") T_MoveBlocked
  = Some (V_MoveBlocked true) /\
  Get (Put trie_ab.1 trie_ab.2 (key_of "a") (V_MoveBlocked false)).1
      (Put trie_ab.1 trie_ab.2 (key_of "a") (V_MoveBlocked false)).2
      (key_of "a") T_uint32
  = None /\
  Get (Put trie_ab.1 trie_ab.2 (key_of "a") (V_MoveBlocked false)).1
      (Put trie_ab.1 trie_ab.2 (key_of "a") (V_MoveBlocked false)).2
      (key_of "ab") T_uint32
  = Some (V_uint32 2).
Proof.
  split; [|split].
  - exact (Get_after_Put trie_ab.1 trie_ab.2 (key_of "a")
             (V_MoveBlocked false) (key_of "a") T_MoveBlocked
             (proj1 trie_ab_closed) (proj2 trie_ab_closed)).
  - exact (Get_after_Put trie_ab.1 trie_ab.2 (key_of "a")
             (V_MoveBlocked false) (key_of "a") T_uint32
             (proj1 trie_ab_closed) (proj2 trie_ab_closed)).
  - rewrite (Get_after_Put trie_ab.1 trie_ab.2 (key_of "a")
               (V_MoveBlocked false) (key_of "ab") T_uint32
               (proj1 trie_ab_closed) (proj2 trie_ab_closed)).
    vm_compute. reflexivity.
Defined.

(** X20.  [Put] copies the path and nothing more: whatever the trie holds,
    it allocates one node per byte of the key and one more, also when the
    key is already there with the same value, and the root of the trie it
    returns is the first of these nodes, never a node of the old trie and
    never null. *)
Theorem Put_copies_the_path_only h root_ key v :
  length (Put h root_ key v).1 = length h + length key + 1 /\
  (Put h root_ key v).2 = Some (length h).
Proof.
  split; [|apply Put_root].
  assert (Hloop : forall key h curr,
             length (Put_loop h curr key v) = length h + (length key - 1) + 
               (if key is [] then 0 else 1)).
  { clear. induction key as [|c key IH]; intros h curr; [simpl; lia|].
    destruct key as [|c1 key].
    - rewrite Put_loop_last. cbv zeta.
      destruct (children_ _ !! c); unfold set_child;
        rewrite length_assign_children; [case_decide|];
        rewrite ?length_assign_children, length_app; simpl; lia.
    - rewrite Put_loop_step, IH. unfold set_child.
      rewrite length_assign_children, length_app. simpl. lia. }
  unfold Put. destruct key as [|c key].
  - destruct root_; cbn [alloc fst snd];
      rewrite ?length_assign_children, length_app; simpl; lia.
  - destruct root_; cbn [alloc fst snd]; rewrite Hloop, length_app; simpl; lia.
Qed.

(** *** [Remove] and the other keys *)

Lemma Remove_walk_ancestors h key : forall a acc,
  Remove_walk h a key (a :: acc)
  = match ancestors h a key with
    | Some (l, b) => Some (b :: rev l ++ acc)
    | None => None
    end.
Proof.
  induction key as [|c key IH]; intros a acc; simpl; [done|].
  destruct (children_ (h !!! a) !! c) as [n|]; [|done].
  rewrite IH. destruct (ancestors h n key) as [[l b]|]; [|done].
  simpl. by rewrite <- app_assoc.
Qed.

Lemma ancestors_length h key : forall a l b,
  ancestors h a key = Some (l, b) -> length l = length key.
Proof.
  induction key as [|c key IH]; intros a l b; simpl.
  - by intros [= <- _].
  - destruct (children_ (h !!! a) !! c) as [n|]; [|done].
    destruct (ancestors h n key) as [[l' b']|] eqn:E; [|done].
    intros [= <- _]. simpl. f_equal. by eapply IH.
Qed.

Lemma ancestors_walk h key : forall a,
  Get_walk h (Some a) key = snd <$> ancestors h a key.
Proof.
  induction key as [|c key IH]; intros a; simpl; [done|].
  destruct (children_ (h !!! a) !! c) as [n|]; [|by rewrite Get_walk_None].
  rewrite IH. by destruct (ancestors h n key) as [[l b]|].
Qed.

Lemma ancestors_bound h key : closed h -> forall a l b,
  a < length h -> ancestors h a key = Some (l, b) ->
  Forall (fun p => p < length h) l /\ b < length h.
Proof.
  intros Hc. induction key as [|c key IH]; intros a l b Ha; simpl.
  - by intros [= <- <-].
  - destruct (children_ (h !!! a) !! c) as [n|] eqn:En; [|done].
    destruct (ancestors h n key) as [[l' b']|] eqn:E; [|done].
    intros [= <- <-].
    destruct (IH n l' b') as [Hl Hb]; [by eapply closed_children_total|done|].
    split; [by constructor|done].
Qed.

Lemma graft_stable h h' p c d key T :
  closed h -> unchanged_below (length h) h h' -> p < length h ->
  graft h' p c d key T = graft h p c d key T.
Proof.
  intros Hc U Hp. unfold graft. destruct key as [|c' key].
  - by rewrite (unchanged_total (length h) h h').
  - case_decide; [done|]. rewrite (unchanged_total (length h) h h') by done.
    apply Get_stable; [done..|]. by apply handle_child.
Qed.

Lemma grafted_ext h path : forall rk d1 d2 key T,
  (forall k T', d1 k T' = d2 k T') ->
  grafted h path rk d1 key T = grafted h path rk d2 key T.
Proof.
  induction path as [|p path IH]; intros rk d1 d2 key T Hd; simpl; [done|].
  destruct rk as [|c rk]; [done|]. apply IH. intros k T'. unfold graft.
  destruct k; [done|]. by case_decide.
Qed.

Lemma grafted_stable h h' path : forall rk d key T,
  closed h -> unchanged_below (length h) h h' ->
  Forall (fun p => p < length h) path ->
  grafted h' path rk d key T = grafted h path rk d key T.
Proof.
  induction path as [|p path IH]; intros rk d key T Hc U Hpath; simpl; [done|].
  destruct rk as [|c rk]; [done|].
  apply Forall_cons in Hpath as [Hp Hpath]. rewrite IH by done.
  apply grafted_ext. intros k T'. by apply graft_stable.
Qed.

Lemma grafted_snoc h a c : forall l r d key T,
  length l = length r ->
  grafted h (l ++ [a]) (r ++ [c]) d key T
  = graft h a c (grafted h l r d) key T.
Proof.
  induction l as [|p l IH]; intros r d key T Hlen;
    destruct r as [|c0 r]; try done.
  simpl. apply IH. simpl in Hlen. lia.
Qed.

(** The third loop of [Remove] builds what [grafted] describes. *)
Lemma Remove_rebuild_grafted path : forall h rk node key T,
  closed h -> length path = length rk ->
  Forall (fun p => p < length h) path -> handle h node ->
  Get (Remove_rebuild h path rk node).1 (Remove_rebuild h path rk node).2 key T
  = grafted h path rk (Get h node) key T.
Proof.
  induction path as [|p path IH]; intros h rk node key T Hc Hlen Hpath Hnode;
    [done|].
  destruct rk as [|c rk]; [done|].
  apply Forall_cons in Hpath as [Hp Hpath].
  cbn [Remove_rebuild alloc hd tl grafted]. unfold Clone.
  set (h1 := h ++ [h !!! p]).
  assert (Hl1 : length h1 = S (length h))
    by (unfold h1; rewrite length_app; simpl; lia).
  assert (Hc1 : closed h1) by by apply (closed_alloc_copy h p).
  assert (U1 : unchanged_below (length h) h h1) by by apply unchanged_alloc.
  assert (Hn1 : h1 !!! length h = h !!! p) by apply alloc_total_new.
  set (h2 := match node with
             | Some nd => set_child h1 (length h) c nd
             | None => erase_child h1 (length h) c
             end).
  assert (Hl2 : length h2 = S (length h)).
  { unfold h2. destruct node; unfold set_child, erase_child;
      by rewrite length_assign_children. }
  assert (Hc2 : closed h2).
  { unfold h2. destruct node as [nd|].
    - apply closed_set_child; [done|]. simpl in Hnode. lia.
    - by apply closed_erase_child. }
  assert (U2 : unchanged_below (length h) h h2).
  { eapply unchanged_trans; [exact U1|].
    unfold h2. destruct node; by apply unchanged_assign. }
  assert (Hn2 : h2 !!! length h
                = set_children
                    (match node with
                     | Some nd => <[c := nd]> (children_ (h !!! p))
                     | None => delete c (children_ (h !!! p))
                     end) (h !!! p)).
  { unfold h2. destruct node.
    - rewrite set_child_total_eq by lia. by rewrite Hn1.
    - rewrite erase_child_total_eq by lia. by rewrite Hn1. }
  rewrite IH; [|done|simpl in Hlen; lia| |simpl; lia].
  2:{ eapply Forall_impl; [exact Hpath|]. simpl. lia. }
  rewrite (grafted_stable h h2) by done.
  apply grafted_ext. intros k T'. unfold graft. destruct k as [|c' k].
  - by rewrite Get_nil, Hn2, value_at_set_children.
  - rewrite Get_cons, Hn2, children_set_children.
    case_decide as Hcc.
    + subst c'. destruct node as [nd|].
      * rewrite lookup_insert_eq. by apply Get_stable.
      * by rewrite lookup_delete_eq, !Get_None.
    + assert (match node with
              | Some nd => <[c := nd]> (children_ (h !!! p))
              | None => delete c (children_ (h !!! p))
              end !! c' = children_ (h !!! p) !! c') as ->.
      { destruct node; [by apply lookup_insert_ne|by apply lookup_delete_ne]. }
      apply Get_stable; [done..|]. by apply handle_child.
Qed.

(** The key's node is replaced: every other key keeps its answer. *)
Lemma grafted_replaced h key : forall a l b d key' T,
  ancestors h a key = Some (l, b) ->
  (forall s, s <> [] -> d s T = Get h (Some b) s T) ->
  key' <> key ->
  grafted h (rev l) (rev key) d key' T = Get h (Some a) key' T.
Proof.
  induction key as [|c key IH]; intros a l b d key' T; simpl.
  - intros [= <- <-] Hd Hne. simpl. by apply Hd.
  - destruct (children_ (h !!! a) !! c) as [n|] eqn:En; [|done].
    destruct (ancestors h n key) as [[l' b']|] eqn:E; [|done].
    intros [= <- <-] Hd Hne. simpl.
    rewrite grafted_snoc
      by (rewrite !length_rev; by eapply ancestors_length).
    unfold graft. destruct key' as [|c' k]; [done|].
    rewrite Get_cons. case_decide as Hcc; [|done]. subst c'.
    rewrite En. apply (IH n l' b'); [done..|congruence].
Qed.

Lemma only_child (m : gmap ascii nat) c x c' :
  size m < 2 -> m !! c = Some x -> c' <> c -> m !! c' = None.
Proof.
  intros Hs Hc Hne.
  assert (delete c m = ∅) as Hd.
  { apply map_size_empty_inv. rewrite map_size_delete, Hc. simpl. lia. }
  rewrite <- (lookup_delete_ne m c c') by done. by rewrite Hd.
Qed.

(** Below nodes that the second loop of [Remove] drops, the key is the only
    one that can hold a value. *)
Lemma pruned_chain h key : forall a l b key' T,
  ancestors h a key = Some (l, b) ->
  Forall (prunable h) l -> children_ (h !!! b) = ∅ ->
  key' <> key ->
  Get h (Some a) key' T = None.
Proof.
  induction key as [|c key IH]; intros a l b key' T; simpl.
  - intros [= <- <-] _ Hb Hne. destruct key' as [|c' k]; [done|].
    by rewrite Get_cons, Hb, lookup_empty, Get_None.
  - destruct (children_ (h !!! a) !! c) as [n|] eqn:En; [|done].
    destruct (ancestors h n key) as [[l' b']|] eqn:E; [|done].
    intros [= <- <-] [[Hsz Hnv] Hl]%Forall_cons Hb Hne.
    destruct key' as [|c' k].
    + rewrite Get_nil. by destruct (h !!! a).
    + rewrite Get_cons. destruct (decide (c' = c)) as [->|Hcc].
      * rewrite En. apply (IH n l' b'); [done..|congruence].
      * by rewrite (only_child _ c n c'), Get_None.
Qed.

(** A leaf is dropped, and some of its ancestors with it: every other key
    keeps its answer. *)
Lemma grafted_pruned h key1 : forall a l1 l2 key2 b d key' T,
  ancestors h a (key1 ++ key2) = Some (l1 ++ l2, b) ->
  length l1 = length key1 ->
  Forall (prunable h) l2 -> children_ (h !!! b) = ∅ ->
  (forall s, d s T = None) ->
  key' <> key1 ++ key2 ->
  grafted h (rev l1) (rev key1) d key' T = Get h (Some a) key' T.
Proof.
  induction key1 as [|c key1 IH]; intros a l1 l2 key2 b d key' T Ha Hlen;
    destruct l1 as [|x l1]; try done.
  - intros Hl Hb Hd Hne. simpl in *. rewrite Hd. symmetry.
    by eapply pruned_chain.
  - simpl in Ha.
    destruct (children_ (h !!! a) !! c) as [n|] eqn:En; [|done].
    destruct (ancestors h n (key1 ++ key2)) as [[l' b']|] eqn:E; [|done].
    injection Ha as Hx Hl' Hb'. subst x l' b'. intros Hl Hb Hd Hne. simpl.
    rewrite grafted_snoc by (rewrite !length_rev; simpl in Hlen; lia).
    unfold graft. destruct key' as [|c' k]; [done|].
    rewrite Get_cons. case_decide as Hcc; [|done]. subst c'.
    rewrite En. apply (IH n l1 l2 key2 b); try done.
    + simpl in Hlen. lia.
    + simpl in Hne. congruence.
Qed.

(** The second loop of [Remove] drops a run of prunable nodes from the
    bottom of the path, and as many bytes from the end of the key. *)
Lemma Remove_prune_rev h : forall l key,
  length l = length key ->
  exists l1 l2 key1 key2,
    l = l1 ++ l2 /\ key = key1 ++ key2 /\ length l1 = length key1 /\
    Forall (prunable h) l2 /\
    Remove_prune h (rev l) (rev key) = (rev l1, rev key1).
Proof.
  induction l as [|x l IH] using rev_ind; intros key Hlen.
  - destruct key; [|done]. by exists [], [], [], [].
  - destruct key as [|c key _] using rev_ind;
      [rewrite length_app in Hlen; simpl in Hlen; lia|].
    rewrite !length_app in Hlen. simpl in Hlen.
    rewrite !rev_unit. cbn [Remove_prune tl].
    destruct (bool_decide (size (children_ (h !!! x)) < 2)
              && negb (is_value_node_ (h !!! x))) eqn:Hp.
    + destruct (IH key ltac:(lia))
        as (l1 & l2 & key1 & key2 & -> & -> & Hl1 & Hpr & ->).
      exists l1, (l2 ++ [x]), key1, (key2 ++ [c]).
      rewrite <- !app_assoc. split_and!; try done.
      apply Forall_app. split; [done|]. constructor; [|done].
      apply andb_true_iff in Hp as [Hsz%bool_decide_eq_true Hnv%negb_true_iff].
      by split.
    + exists (l ++ [x]), [], (key ++ [c]), [].
      rewrite !app_nil_r, !rev_unit, !length_app. simpl.
      split_and!; (done || lia).
Qed.

Lemma Remove_other_key h root_ key key' T :
  closed h -> handle h root_ -> key' <> key ->
  Get (Remove h root_ key).1 (Remove h root_ key).2 key' T
  = Get h root_ key' T.
Proof.
  intros Hc Hr Hk.
  unfold Remove. destruct root_ as [r|]; [|done].
  rewrite Remove_walk_ancestors.
  destruct (ancestors h r key) as [[l b]|] eqn:Ea; [|done].
  rewrite app_nil_r.
  pose proof (ancestors_length h key r l b Ea) as Hlen.
  destruct (ancestors_bound h key Hc r l b Hr Ea) as [Hl Hb].
  case_decide as Hleaf.
  - destruct (Remove_prune_rev h l key Hlen)
      as (l1 & l2 & key1 & key2 & -> & -> & Hl1 & Hpr & ->).
    rewrite Remove_rebuild_grafted; try done.
    + apply (grafted_pruned h key1 r l1 l2 key2 b); try done.
      intros s. apply Get_None.
    + by rewrite !length_rev.
    + apply Forall_rev. by apply Forall_app in Hl as [? _].
  - destruct (is_value_node_ (h !!! b)) eqn:Hv; [|done].
    cbn [alloc].
    set (h1 := h ++ [Node (children_ (h !!! b))]).
    assert (Hl1 : length h1 = S (length h))
      by (unfold h1; rewrite length_app; simpl; lia).
    assert (Hc1 : closed h1).
    { apply closed_alloc; [done|]. intros c q Hq.
      by eapply closed_children_total. }
    assert (U1 : unchanged_below (length h) h h1) by by apply unchanged_alloc.
    rewrite Remove_rebuild_grafted; try done.
    + rewrite (grafted_stable h h1) by (done || by apply Forall_rev).
      apply (grafted_replaced h key r l b); try done.
      intros s Hs. destruct s as [|c s]; [done|].
      rewrite !Get_cons. unfold h1. rewrite alloc_total_new. simpl.
      apply Get_stable; [done..|]. by apply handle_child.
    + by rewrite !length_rev.
    + apply Forall_rev. eapply Forall_impl; [exact Hl|]. simpl. lia.
    + simpl. lia.
Qed.

(** X21.  What [Get] returns on the trie [Remove] returns, for every key
    and every type asked for: null under the key that was removed, and
    under every other key what the trie [Remove] was called on returns;
    the nodes [Remove] drops on the way up hold no other key. *)
Theorem Get_after_Remove h root_ key key' T :
  closed h -> handle h root_ ->
  Get (Remove h root_ key).1 (Remove h root_ key).2 key' T
  = if decide (key' = key) then None else Get h root_ key' T.
Proof.
  intros Hc Hr. case_decide as Hk.
  - subst key'. apply Get_Remove.
  - by apply Remove_other_key.
Qed.

Lemma Get_after_Remove_witness :
  Get trie_ab.1 trie_ab.2 (key_of "ab") T_uint32 = Some (V_uint32 2) /\
  Get (Remove trie_ab.1 trie_ab.2 (key_of "ab")).1
      (Remove trie_ab.1 trie_ab.2 (key_of "ab")).2 (key_of "ab") T_uint32
  = None /\
  Get (Remove trie_ab.1 trie_ab.2 (key_of "ab")).1
      (Remove trie_ab.1 trie_ab.2 (key_of "ab")).2 (key_of "a") T_uint32
  = Some (V_uint32 1) /\
  Get (Remove trie_ab.1 trie_ab.2 (key_of "a")).1
      (Remove trie_ab.1 trie_ab.2 (key_of "a")).2 (key_of "ab") T_uint32
  = Some (V_uint32 2).
Proof.
  split; [vm_compute; reflexivity|]. split; [|split].
  - exact (Get_after_Remove trie_ab.1 trie_ab.2 (key_of "ab") (key_of "ab")
             T_uint32 (proj1 trie_ab_closed) (proj2 trie_ab_closed)).
  - rewrite (Get_after_Remove trie_ab.1 trie_ab.2 (key_of "ab") (key_of "a")
               T_uint32 (proj1 trie_ab_closed) (proj2 trie_ab_closed)).
    vm_compute. reflexivity.
  - rewrite (Get_after_Remove trie_ab.1 trie_ab.2 (key_of "a") (key_of "ab")
               T_uint32 (proj1 trie_ab_closed) (proj2 trie_ab_closed)).
    vm_compute. reflexivity.
Defined.

(** X22.  [Remove] returns the very trie it was called on, and allocates
    nothing, when the key has no node in the trie, and also when its node
    has children but no value. *)
Theorem Remove_of_a_key_without_value_is_the_same_trie h root_ key :
  Get_walk h root_ key = None \/
  (exists p, Get_walk h root_ key = Some p /\
             children_ (h !!! p) <> ∅ /\ is_value_node_ (h !!! p) = false) ->
  Remove h root_ key = (h, root_).
Proof.
  intros H. unfold Remove. destruct root_ as [r|]; [|done].
  rewrite Remove_walk_ancestors.
  rewrite ancestors_walk in H.
  destruct (ancestors h r key) as [[l b]|]; [|done]. simpl in H.
  rewrite app_nil_r.
  destruct H as [?|(p & [= <-] & Hch & Hv)]; [done|].
  rewrite decide_False by done. by rewrite Hv.
Qed.

Lemma Remove_of_a_key_without_value_is_the_same_trie_witness :
  Remove trie_a.1 trie_a.2 (key_of "b") = (trie_a.1, trie_a.2).
Proof.
  apply (Remove_of_a_key_without_value_is_the_same_trie trie_a.1 trie_a.2
           (key_of "b")).
  left. vm_compute. reflexivity.
Defined.

(** *** The trie as a finite map *)

Lemma run_from ops : forall t m,
  closed t.1 -> handle t.1 t.2 ->
  (forall key T,
     Get t.1 t.2 key T
     = match m !! key with
       | Some v => if decide (type_of v = T) then Some v else None
       | None => None
       end) ->
  forall key T,
    Get (fold_left apply_op ops t).1 (fold_left apply_op ops t).2 key T
    = match fold_left model_op ops m !! key with
      | Some v => if decide (type_of v = T) then Some v else None
      | None => None
      end.
Proof.
  induction ops as [|o ops IH]; intros t m Hc Hr Hm; [done|].
  cbn [fold_left]. apply IH.
  - destruct o; simpl; [by apply Put_closed|by apply Remove_closed].
  - destruct o; simpl; [by apply Put_closed|by apply Remove_closed].
  - intros key T. destruct o as [k v|k]; simpl.
    + destruct (decide (key = k)) as [->|Hk].
      * rewrite Put_same_key, lookup_insert_eq. by destruct v.
      * rewrite Put_other_key, lookup_insert_ne by done. apply Hm.
    + destruct (decide (key = k)) as [->|Hk].
      * by rewrite Get_Remove, lookup_delete_eq.
      * rewrite Remove_other_key, lookup_delete_ne by done. apply Hm.
Qed.

(** X23.  A trie is a finite map: whatever sequence of [Put] and [Remove]
    calls builds it, starting from the empty trie and each call made on the
    trie the call before it returned, [Get] answers with the value the same
    calls leave in a finite map from keys to values, if there is one and it
    has the type asked for, and with null otherwise.  What a [Put] leaves in
    the map is the object it constructed from its argument by a move: the
    argument itself, but for a [MoveBlocked], which is there with [waited_]
    set. *)
Theorem trie_answers_like_a_finite_map ops key T :
  Get (run ops).1 (run ops).2 key T
  = match model ops !! key with
    | Some v => if decide (type_of v = T) then Some v else None
    | None => None
    end.
Proof.
  apply run_from; [apply closed_nil|done|].
  intros k T'. by rewrite Get_None, lookup_empty.
Qed.

End TrieMore.
